(** * klogd's module symbol table (ksym_mod.c)

    A shallow embedding of [InitMsyms], [symsort], [FreeModules],
    [AddModule], [AddSymbol] and [LookupModuleSymbol], and the properties
    of the symbol store that follow from the code.

    Conventions.
    - [unsigned long] is a [w]-bit unsigned integer, held in [Z]; [w] is a
      parameter (32 or 64 on the platforms klogd runs on).
    - The statics and globals of the file live in one [State] record that
      every function threads: the module array, [have_modules], the
      [lastmodule] static of [AddSymbol] and the [ret] buffer of
      [LookupModuleSymbol].
    - [malloc], [realloc] and [strdup] ask the environment: the state
      carries the outcomes of the allocations still to come.
    - A run that dereferences NULL, reads a slot of a symbol array that was
      never written, or reads a byte before [buf] or beyond the bytes of
      [buf] written so far has no result ([None]).
    - [buf], the local of [InitMsyms] that [fgets] fills and [AddSymbol]
      cuts up, keeps beyond the terminator of a line what earlier lines
      left there.
    - [Syslog] and the [debugging] output are not modelled: nothing read
      back by the code depends on them. *)

From Stdlib Require Import ZArith Lia Ascii String List Sorted Permutation.
From stdpp Require Import base option list numbers strings.

Open Scope Z_scope.

(** ** C integers *)

(** An integer type: its width and signedness. *)
Record ctype := { ct_bits : Z; ct_signed : bool }.

(** Conversion of an integer value to the type [t] (two's complement). *)
Definition convert (t : ctype) (x : Z) : Z :=
  let half := 2 ^ (ct_bits t - 1) in
  if ct_signed t then (x + half) mod (2 * half) - half
  else x mod 2 ^ ct_bits t.

Definition c_int : ctype := {| ct_bits := 32; ct_signed := true |}.

(** ** Characters and C strings *)

Definition NUL : ascii := "000"%char.
Definition newline : ascii := "010"%char.

Definition ascii_code (c : ascii) : Z := Z.of_N (N_of_ascii c).

(** [isspace] in the C locale: space, \t, \n, \v, \f, \r. *)
Definition isspace (c : ascii) : bool :=
  let n := ascii_code c in (n =? 32) || ((9 <=? n) && (n <=? 13)).

(** The bytes of [s] up to its terminator. *)
Fixpoint cstring (s : list ascii) : list ascii :=
  match s with
  | [] => []
  | c :: s' => if Ascii.eqb c NUL then [] else c :: cstring s'
  end.

Definition strlen (s : list ascii) : nat := length (cstring s).

(** Offset of the first [c] in the C string [s] ([c] is not NUL). *)
Fixpoint strchr (s : list ascii) (c : ascii) : option nat :=
  match s with
  | [] => None
  | a :: s' =>
      if Ascii.eqb a c then Some 0%nat
      else if Ascii.eqb a NUL then None
      else S <$> strchr s' c
  end.

(** A line buffer: the bytes of [buf] written so far, by the last [fgets]
    and, beyond its terminator, by earlier ones. The last byte written is
    always a NUL; it is left implicit, at offset [length buf]. Pointers into
    the buffer are offsets. *)
Abbreviation buffer := (list ascii).

(** [index(buf + from, c)]. *)
Definition index (buf : buffer) (from : nat) (c : ascii) : option nat :=
  (λ i, (from + i)%nat) <$> strchr (drop from buf) c.

(** The C string at [buf + p]; nothing when [p] lies beyond the bytes
    written so far. *)
Definition string_at (buf : buffer) (p : nat) : option (list ascii) :=
  if (p <=? length buf)%nat then Some (cstring (drop p buf)) else None.

(** The byte at [buf + p], the terminator included. *)
Definition peek (buf : buffer) (p : nat) : option ascii :=
  if (p =? length buf)%nat then Some NUL else buf !! p.

(** [while (isspace( *(--p)))]: [p] ends on the nearest byte before it
    that is not white space; nothing when the scan runs off the front of
    the buffer. *)
Fixpoint back_over_space (buf : buffer) (p : nat) : option nat :=
  match p with
  | O => None
  | S q =>
      c ← buf !! q;
      if isspace c then back_over_space buf q else Some q
  end.

(** ** strtoul(s, NULL, 16) *)

Definition hex_digit (c : ascii) : option Z :=
  let n := ascii_code c in
  if (48 <=? n) && (n <=? 57) then Some (n - 48)
  else if (97 <=? n) && (n <=? 102) then Some (n - 87)
  else if (65 <=? n) && (n <=? 70) then Some (n - 55)
  else None.

(** The value of the leading hexadecimal digits of [s], after [acc]. *)
Fixpoint hex_value (s : list ascii) (acc : Z) : Z :=
  match s with
  | [] => acc
  | c :: s' =>
      match hex_digit c with
      | Some d => hex_value s' (16 * acc + d)
      | None => acc
      end
  end.

Fixpoint skip_space (s : list ascii) : list ascii :=
  match s with
  | c :: s' => if isspace c then skip_space s' else s
  | [] => []
  end.

Definition ULONG_MAX (w : Z) : Z := 2 ^ w - 1.

(** Arithmetic on [unsigned long] wraps modulo [2 ^ w]. *)
Definition wrap (w : Z) (x : Z) : Z := x mod 2 ^ w.

(** Leading white space, an optional sign, an optional 0x, then digits;
    a value out of range gives [ULONG_MAX], a minus sign negates in
    [unsigned long]; no digits give 0. *)
Definition strtoul (w : Z) (s : list ascii) : Z :=
  let s := skip_space s in
  let '(neg, s) :=
    match s with
    | "-"%char :: r => (true, r)
    | "+"%char :: r => (false, r)
    | _ => (false, s)
    end in
  let s :=
    match s with
    | "0"%char :: x :: r =>
        if Ascii.eqb x "x" || Ascii.eqb x "X" then r else s
    | _ => s
    end in
  let v := hex_value s 0 in
  if ULONG_MAX w <? v then ULONG_MAX w
  else if neg then wrap w (- v) else v.

(** ** The symbol store *)

(** [struct sym_table]. ksyms.h, which declares it, is not among the
    sources. Modelled from the spec: a symbol is a name and an unsigned
    address; the address is taken to be an [unsigned long], the type of
    what [AddSymbol] stores in it and of what [LookupModuleSymbol]
    compares it with. *)
Record sym_table := { value : Z; name : string }.

(** [struct Module], with the three fields the code uses. [sym_array] is
    NULL ([None]) or an allocated array; a slot of the array is [None]
    until a symbol has been written to it. [num_syms] is kept beside the
    array, as in the code, and counts as a [nat]: an [int] that many lines
    would overflow is beyond the model. *)
Record Module_t := {
  sym_array : option (list (option sym_table));
  num_syms : nat;
  mod_name : option string
}.

#[global] Instance sym_table_eq_dec : EqDecision sym_table.
Proof. solve_decision. Defined.

(** [struct symbol]: the two fields [LookupModuleSymbol] writes. Their
    integer type is declared in ksyms.h and is a parameter, [fty], of the
    functions below; the code casts both fields to [unsigned long] before
    it compares them. *)
Record symbol := { size : Z; offset : Z }.

(** The module array is a list: [AddModule] grows the array and
    [num_modules] together, or neither. *)
Record State := {
  sym_array_modules : list Module_t; (* num_modules is its length *)
  have_modules : bool;
  lastmodule : option string;        (* static of AddSymbol *)
  ret : string;                      (* static of LookupModuleSymbol *)
  heap : list bool                   (* outcomes of the allocations to come *)
}.

Definition num_modules (st : State) : nat := length (sym_array_modules st).

Definition set_modules (ms : list Module_t) (st : State) : State :=
  {| sym_array_modules := ms; have_modules := have_modules st;
     lastmodule := lastmodule st; ret := ret st; heap := heap st |}.

Definition set_have_modules (b : bool) (st : State) : State :=
  {| sym_array_modules := sym_array_modules st; have_modules := b;
     lastmodule := lastmodule st; ret := ret st; heap := heap st |}.

Definition set_lastmodule (l : option string) (st : State) : State :=
  {| sym_array_modules := sym_array_modules st;
     have_modules := have_modules st;
     lastmodule := l; ret := ret st; heap := heap st |}.

Definition set_ret (r : string) (st : State) : State :=
  {| sym_array_modules := sym_array_modules st;
     have_modules := have_modules st;
     lastmodule := lastmodule st; ret := r; heap := heap st |}.

Definition set_heap (h : list bool) (st : State) : State :=
  {| sym_array_modules := sym_array_modules st;
     have_modules := have_modules st;
     lastmodule := lastmodule st; ret := ret st; heap := h |}.

(** The slot [mp->sym_array[i]], when it can be read. *)
Definition slot (mp : Module_t) (i : nat) : option sym_table :=
  arr ← sym_array mp; mjoin (arr !! i).

(** The first [num_syms] slots of a module, when all can be read (a NULL
    array has no slot). *)
Definition read_syms (mp : Module_t) : option (list sym_table) :=
  let arr := default [] (sym_array mp) in
  if (num_syms mp <=? length arr)%nat
  then mapM id (take (num_syms mp) arr)
  else None.

Definition set_sym_array (a : option (list (option sym_table)))
    (mp : Module_t) : Module_t :=
  {| sym_array := a; num_syms := num_syms mp; mod_name := mod_name mp |}.

(** ** Threading the state *)

(** A computation reads and updates the state, or has no result. *)
Definition M (A : Type) : Type := State → option (A * State).

#[global] Instance M_ret : MRet M := λ A x st, Some (x, st).
#[global] Instance M_bind : MBind M := λ A B f c st,
  match c st with
  | Some (x, st') => f x st'
  | None => None
  end.

Definition gets {A} (f : State → A) : M A := λ st, Some (f st, st).
Definition modify (f : State → State) : M unit := λ st, Some (tt, f st).
Definition lift {A} (o : option A) : M A := λ st, (λ x, (x, st)) <$> o.

(** One request to [malloc], [realloc] or [strdup]: granted or not, as
    the environment decides; once the list is used up every request is
    granted. *)
Definition alloc : M bool := λ st,
  match heap st with
  | [] => Some (true, st)
  | b :: h => Some (b, set_heap h st)
  end.

(** [*mp = f( *mp )] for [mp = &sym_array_modules[i]]. *)
Definition update_module (i : nat) (f : Module_t → Module_t)
    (st : State) : State :=
  set_modules (alter f i (sym_array_modules st)) st.

(** ** symsort and qsort *)

Definition symsort (sym1 sym2 : sym_table) : Z :=
  if value sym1 <? value sym2 then -1
  else if value sym1 =? value sym2 then 0
  else 1.

(** [qsort] belongs to the C library: it is taken to sort by insertion,
    driven by the caller's comparison. The order it leaves between
    elements that compare equal is its own. *)
Fixpoint qsort_insert {A} (compar : A → A → Z) (x : A) (l : list A)
    : list A :=
  match l with
  | [] => [x]
  | y :: l' =>
      if compar x y <=? 0 then x :: l else y :: qsort_insert compar x l'
  end.

Definition qsort {A} (compar : A → A → Z) (l : list A) : list A :=
  foldr (qsort_insert compar) [] l.

(** ** FreeModules *)

(** The body of the loop over the modules: a module without symbols is
    passed over, otherwise each of its [num_syms] names is freed, then the
    array and the module's name. *)
Definition free_module (mp : Module_t) : option unit :=
  if (num_syms mp =? 0)%nat then Some tt
  else _ ← read_syms mp; Some tt.

(** The test of [sym_array_modules] against NULL has no counterpart: the
    array is NULL only when [num_modules] is 0. *)
Definition FreeModules : M unit :=
  modify (set_have_modules false);;
  n ← gets num_modules;
  if (n =? 0)%nat then mret tt
  else
    ms ← gets sym_array_modules;
    _ ← lift (mapM free_module ms);
    modify (set_modules []).

(** ** AddModule *)

(** Returns the index of the new module in [sym_array_modules], or
    nothing when the array cannot grow. A name that cannot be duplicated
    is stored as NULL. *)
Definition AddModule (module : option string) : M (option nat) :=
  ok ← alloc;
  if negb ok then mret None
  else
    n ← gets num_modules;
    nm ← match module with
         | Some s => ok ← alloc; mret (if ok : bool then Some s else None)
         | None => mret None
         end;
    modify (λ st, set_modules
      (sym_array_modules st ++
         [{| sym_array := None; num_syms := 0; mod_name := nm |}]) st);;
    mret (Some n).

(** ** AddSymbol *)

(** The locals of [AddSymbol] once the line is taken apart. *)
Record locals := {
  l_line : buffer;       (* the line, terminators written into it *)
  l_module : option nat; (* module: the byte after the bracket, or NULL *)
  l_address : Z;
  l_p : nat              (* p: three bytes past the first space *)
}.

(** The first half of [AddSymbol]: cut the bracketed annotation off the
    line, find the first space, read the address. The result is nothing
    when the scan for white space leaves the buffer, [Some None] when the
    function returns 0 for want of a space. *)
Definition scan_line (w : Z) (line : buffer) : option (option locals) :=
  '(line, module) ←
    match index line 0 "[" with
    | Some m =>
        let line :=
          match index line m "]" with
          | Some p => <[p := NUL]> line
          | None => line
          end in
        p ← back_over_space line m;
        Some (<[S p := NUL]> line, Some (S m))
    | None => Some (line, None)
    end;
  match index line 0 " " with
  | None => Some None
  | Some p =>
      let line := <[p := NUL]> line in
      Some (Some {| l_line := line; l_module := module;
                    l_address := strtoul w (cstring line);
                    l_p := (p + 3)%nat |})
  end.

(** The string [module] points to, or NULL. *)
Definition module_of (loc : locals) : option string :=
  (λ m, string_of_list_ascii (cstring (drop m (l_line loc))))
    <$> l_module loc.

(** The test that opens a new module, for [n] modules so far. *)
Definition new_group (n : nat) (lastmodule module : option string) : bool :=
  (n =? 0)%nat
  || (match lastmodule, module with None, Some _ => true | _, _ => false end)
  || (match module, lastmodule with None, Some _ => true | _, _ => false end)
  || (match module, lastmodule with
      | Some m, Some l => negb (String.eqb m l)
      | _, _ => false
      end).

(** The second half of [AddSymbol]: choose the module, grow its array,
    store the symbol. *)
Definition add_to_group (loc : locals) : M Z :=
  let module := module_of loc in
  n ← gets num_modules;
  lm ← gets lastmodule;
  mp ← (if new_group n lm module then AddModule module
        else mret (Some (n - 1)%nat));
  match mp with
  | None => mret 0
  | Some i =>
      ms ← gets sym_array_modules;
      m ← lift (ms !! i);
      modify (set_lastmodule (mod_name m));;
      ok ← alloc;
      if negb ok then
        modify (update_module i (set_sym_array None));; mret 0
      else
        let arr := resize (S (num_syms m)) None (default [] (sym_array m)) in
        modify (update_module i (set_sym_array (Some arr)));;
        nm ← lift (string_at (l_line loc) (l_p loc));
        ok ← alloc;
        if negb ok then mret 0
        else
          let sym := {| value := l_address loc;
                        name := string_of_list_ascii nm |} in
          modify (update_module i (λ _,
            {| sym_array := Some (<[num_syms m := Some sym]> arr);
               num_syms := S (num_syms m);
               mod_name := mod_name m |}));;
          mret 1
  end.

Definition AddSymbol (w : Z) (line : buffer) : M Z :=
  r ← lift (scan_line w line);
  match r with
  | None => mret 0
  | Some loc => add_to_group loc
  end.

(** ** InitMsyms *)

(** The successive results of [fgets(buf, sizeof(buf), ksyms)] on a file
    holding [s]: at most [room] more bytes go into the line being read,
    which ends after a newline; [acc] holds its bytes so far, last first. *)
Fixpoint fgets_all (room : nat) (acc : list ascii) (s : list ascii)
    : list buffer :=
  match s with
  | [] => match acc with [] => [] | _ => [reverse acc] end
  | c :: s' =>
      if Ascii.eqb c newline then reverse (c :: acc) :: fgets_all 127 [] s'
      else
        match room with
        | S (S r) => fgets_all (S r) (c :: acc) s'
        | _ => reverse (c :: acc) :: fgets_all 127 [] s'
        end
  end.

Definition fgets_lines (s : list ascii) : list buffer := fgets_all 127 [] s.

(** [if (buf[strlen(buf) - 1] == '\n') buf[strlen(buf) - 1] = '\0']. *)
Definition chomp (buf : buffer) : buffer :=
  let n := (strlen buf - 1)%nat in
  match buf !! n with
  | Some c => if Ascii.eqb c newline then <[n := NUL]> buf else buf
  | None => buf
  end.

(** The body of the reading loop, for the buffer [buf] as [fgets] left it.
    [static_syms] is the [num_syms] of ksym.c, the number of symbols of the
    static table. The result of [AddSymbol] is dropped. *)
Definition read_line (w : Z) (static_syms : Z) (buf : buffer) : M unit :=
  if (0 <? static_syms) && bool_decide (index buf 0 "[" = None) then mret tt
  else
    match index buf 0 " " with
    | None => mret tt
    | Some _ => _ ← AddSymbol w (chomp buf); mret tt
    end.

Fixpoint read_lines (w : Z) (static_syms : Z) (bufs : list buffer)
    : M unit :=
  match bufs with
  | [] => mret tt
  | buf :: bufs' =>
      read_line w static_syms buf;; read_lines w static_syms bufs'
  end.

(** What [fgets] makes of the buffer [old]: the bytes of the piece and a
    terminator go over its front, what lies beyond them stays. *)
Definition fgets_into (old piece : buffer) : buffer :=
  if (length old <=? length piece)%nat then piece
  else piece ++ NUL :: drop (S (length piece)) old.

(** The writes of [AddSymbol] before it looks for the space: the line with
    its annotation cut off, and [module]. *)
Definition cut_annotation (line : buffer) : option (buffer * option nat) :=
  match index line 0 "[" with
  | Some m =>
      let line :=
        match index line m "]" with
        | Some p => <[p := NUL]> line
        | None => line
        end in
      p ← back_over_space line m;
      Some (<[S p := NUL]> line, Some (S m))
  | None => Some (line, None)
  end.

(** What the body of the reading loop leaves in the buffer: nothing is
    written when the line is passed over; otherwise the newline is cut
    off and [AddSymbol] writes its terminators. The writes depend on the
    line alone. *)
Definition line_left (static_syms : Z) (buf : buffer) : buffer :=
  if (0 <? static_syms) && bool_decide (index buf 0 "[" = None) then buf
  else
    match index buf 0 " " with
    | None => buf
    | Some _ =>
        match cut_annotation (chomp buf) with
        | Some (line, _) =>
            match index line 0 " " with
            | Some p => <[p := NUL]> line
            | None => line
            end
        | None => chomp buf
        end
    end.

(** The contents of the buffer after each [fgets], for the pieces it
    delivers in turn; [old] is what the buffer holds before the first. *)
Fixpoint fgets_buffers (static_syms : Z) (old : buffer)
    (pieces : list buffer) : list buffer :=
  match pieces with
  | [] => []
  | piece :: pieces' =>
      let buf := fgets_into old piece in
      buf :: fgets_buffers static_syms (line_left static_syms buf) pieces'
  end.

(** The body of the sorting loop for one module. *)
Definition sort_module (mp : Module_t) : option Module_t :=
  if (num_syms mp <? 2)%nat then Some mp
  else
    syms ← read_syms mp;
    arr ← sym_array mp;
    Some (set_sym_array
            (Some ((Some <$> qsort symsort syms) ++ drop (num_syms mp) arr))
            mp).

(** [ksyms] is the content of /proc/kallsyms, or nothing when it cannot be
    opened. Nothing of [buf] has been written when the loop begins. *)
Definition InitMsyms (w : Z) (static_syms : Z) (ksyms : option (list ascii))
    : M Z :=
  FreeModules;;
  match ksyms with
  | None => mret 0
  | Some s =>
      read_lines w static_syms
        (fgets_buffers static_syms [] (fgets_lines s));;
      modify (set_have_modules true);;
      ms ← gets sym_array_modules;
      ms' ← lift (mapM sort_module ms);
      modify (set_modules ms');;
      mret 1
  end.

(** ** LookupModuleSymbol *)

(** [snprintf(ret, sizeof(ret) - 1, ...)] into the 100 bytes of [ret]:
    at most 98 bytes of the text are kept. *)
Definition full_label (module_name : option string) (sym_name : string)
    : string :=
  match module_name with
  | None => sym_name
  | Some m => (m ++ ":" ++ sym_name)%string
  end.

Definition snprintf_ret (module_name : option string) (sym_name : string)
    : string :=
  substring 0 98 (full_label module_name sym_name).

(** The test on the candidate [(off, sz)] against [*sym]; the fields of
    [*sym] are cast to [unsigned long]. *)
Definition replaces (w : Z) (sym : symbol) (off sz : Z) : bool :=
  (size sym =? 0)
  || (off <? wrap w (offset sym))
  || ((wrap w (offset sym) =? off) && (sz <? wrap w (size sym))).

(** The offset and size of the candidate that [last] and the symbol
    [next] above the address [v] make. *)
Definition cand_offset (w : Z) (v : Z) (last : sym_table) : Z :=
  wrap w (v - value last).

Definition cand_size (w : Z) (last next : sym_table) : Z :=
  wrap w (value next - value last).

(** What [*sym] and [ret] hold once the candidate has been taken. [fty] is
    the type of the fields [size] and [offset] of [struct symbol], which
    ksyms.h declares. *)
Definition taken (w : Z) (fty : ctype) (v : Z) (mp : Module_t)
    (last next : sym_table) : symbol * string :=
  ({| size := convert fty (cand_size w last next);
      offset := convert fty (cand_offset w v last) |},
   snprintf_ret (mod_name mp) (name last)).

(** The statement under [if (mp->sym_array[nsym].value > value)], up to
    the [break]. *)
Definition take_candidate (w : Z) (fty : ctype) (v : Z) (mp : Module_t)
    (last next : sym_table) (acc : symbol * string) : symbol * string :=
  if replaces w acc.1 (cand_offset w v last) (cand_size w last next)
  then taken w fty v mp last next
  else acc.

(** The inner loop, with [fuel] iterations to go, at index [nsym], with
    [last] the index of the symbol [last] points to. *)
Fixpoint sym_loop (w : Z) (fty : ctype) (v : Z) (mp : Module_t)
    (fuel nsym last : nat) (acc : symbol * string)
    : option (symbol * string) :=
  match fuel with
  | O => Some acc
  | S fuel' =>
      cur ← slot mp nsym;
      if v <? value cur then
        l ← slot mp last;
        Some (take_candidate w fty v mp l cur acc)
      else sym_loop w fty v mp fuel' (S nsym) nsym acc
  end.

(** The outer loop. *)
Fixpoint module_loop (w : Z) (fty : ctype) (v : Z) (ms : list Module_t)
    (acc : symbol * string) : option (symbol * string) :=
  match ms with
  | [] => Some acc
  | mp :: ms' =>
      acc' ← sym_loop w fty v mp (num_syms mp - 1) 1 0 acc;
      module_loop w fty v ms' acc'
  end.

(** Returns the string handed back ([ret], or NULL) and [*sym]. *)
Definition LookupModuleSymbol (w : Z) (fty : ctype) (v : Z)
    : M (option string * symbol) := λ st,
  let sym := {| size := 0; offset := 0 |} in
  if (num_modules st =? 0)%nat then Some ((None, sym), st)
  else
    '(sym, r) ← module_loop w fty v (sym_array_modules st) (sym, ret st);
    Some ((if 0 <? size sym then Some r else None, sym), set_ret r st).

(** ** Stores *)

Definition empty_state : State :=
  {| sym_array_modules := []; have_modules := false; lastmodule := None;
     ret := ""; heap := [] |}.

(** A module as [AddSymbol] leaves it when no allocation fails. *)
Definition mk_module (n : option string) (syms : list sym_table) : Module_t :=
  {| sym_array := match syms with [] => None | _ => Some (Some <$> syms) end;
     num_syms := length syms; mod_name := n |}.

Definition sym (a : Z) (n : string) : sym_table := {| value := a; name := n |}.

(** ** What the properties speak of *)

(** The symbols of a module, [num_syms] of them, are in ascending order of
    address: each adjacent pair is. *)
Definition sorted_module (mp : Module_t) : Prop :=
  ∀ i, (i + 1 < num_syms mp)%nat →
    ∃ a b, slot mp i = Some a ∧ slot mp (i + 1) = Some b ∧ value a <= value b.

(** The number of slots of the symbol array that hold a symbol. *)
Definition live_entries (mp : Module_t) : nat :=
  length (omap id (default [] (sym_array mp))).

(** The recorded count is the number of live entries. *)
Definition consistent (mp : Module_t) : bool :=
  (num_syms mp =? live_entries mp)%nat.

Definition total_syms (st : State) : nat :=
  sum_list_with num_syms (sym_array_modules st).

(** The last module of the store has the name [lastmodule] remembers.
    An empty store is such, [AddSymbol] keeps a state such, and so is
    every state a load leaves. *)
Definition coherent (st : State) : bool :=
  match last (sym_array_modules st) with
  | Some mp => bool_decide (lastmodule st = mod_name mp)
  | None => true
  end.

(** The grouping rule in the words of the specification: the record goes
    to the most recent module when there is one and the two names are both
    absent, or both present and equal. *)
Definition same_group (st : State) (module : option string) : bool :=
  negb (num_modules st =? 0)%nat &&
  match lastmodule st, module with
  | None, None => true
  | Some l, Some m => String.eqb m l
  | _, _ => false
  end.

(** A module after one more symbol has been stored in it. *)
Definition append_symbol (s : sym_table) (mp : Module_t) : Module_t :=
  {| sym_array :=
       Some (<[num_syms mp := Some s]>
               (resize (S (num_syms mp)) None (default [] (sym_array mp))));
     num_syms := S (num_syms mp);
     mod_name := mod_name mp |}.

(** In a sequence of symbols, the first adjacent pair whose second symbol
    lies above the address [v]. *)
Fixpoint find_pair (v : Z) (syms : list sym_table)
    : option (sym_table * sym_table) :=
  match syms with
  | a :: (b :: _) as rest =>
      if v <? value b then Some (a, b) else find_pair v rest
  | _ => None
  end.

(** The candidate a module supplies for [v], if it has one; nothing at
    all when one of its symbols cannot be read. *)
Definition candidate (v : Z) (mp : Module_t)
    : option (option (sym_table * sym_table)) :=
  find_pair v <$> read_syms mp.

(** The inner loop stops in [mp] at index [nsym], between the symbols
    [last] and [next]. *)
Definition stops_at (v : Z) (mp : Module_t) (nsym : nat)
    (last next : sym_table) : Prop :=
  (1 ≤ nsym < num_syms mp)%nat ∧
  slot mp (nsym - 1) = Some last ∧ slot mp nsym = Some next ∧
  v < value next ∧
  ∀ j, (1 ≤ j < nsym)%nat → ∃ s, slot mp j = Some s ∧ value s <= v.

(** The field type [fty] holds the [unsigned long] [x] unchanged: casting
    the field back gives [x]. *)
Definition fits (w : Z) (fty : ctype) (x : Z) : bool :=
  wrap w (convert fty x) =? x.

(** The candidate [(o, s)] is better than [(o', s')]: a smaller offset, or
    the same offset and a smaller size. *)
Definition better (o s o' s' : Z) : bool :=
  (o <? o') || ((o =? o') && (s <? s')).

(** A module searched before the one that supplies [(o, s)] does not
    stand in its way: it has no candidate, or one that [(o, s)] is better
    than and that the fields of [*sym] hold unchanged. *)
Definition gives_way (w : Z) (fty : ctype) (v o s : Z) (mp : Module_t)
    : bool :=
  match candidate v mp with
  | Some None => true
  | Some (Some (l, x)) =>
      fits w fty (cand_offset w v l) && fits w fty (cand_size w l x)
      && better o s (cand_offset w v l) (cand_size w l x)
  | None => false
  end.

(** A module searched after it does not displace [(o, s)]: it has no
    candidate, or one that is not better. *)
Definition not_better (w : Z) (v o s : Z) (mp : Module_t) : bool :=
  match candidate v mp with
  | Some None => true
  | Some (Some (l, x)) =>
      negb (better (cand_offset w v l) (cand_size w l x) o s)
  | None => false
  end.

(** A module supplies no candidate. *)
Definition no_candidate (v : Z) (mp : Module_t) : bool :=
  bool_decide (candidate v mp = Some None).

(** What the inner loop makes of [acc] in a module whose candidate is [c]. *)
Definition picked (w : Z) (fty : ctype) (v : Z) (mp : Module_t)
    (c : option (sym_table * sym_table)) (acc : symbol * string)
    : symbol * string :=
  match c with
  | Some (l, x) => take_candidate w fty v mp l x acc
  | None => acc
  end.

(** What the search holds before it reaches the module that supplies
    [(o, s)]: nothing, or a candidate that [(o, s)] is better than. *)
Definition beaten (w : Z) (fty : ctype) (o s : Z) (acc : symbol * string)
    : Prop :=
  size acc.1 = 0 ∨
  ∃ o' s', acc.1 = {| size := convert fty s'; offset := convert fty o' |} ∧
           fits w fty o' = true ∧ fits w fty s' = true ∧
           better o s o' s' = true.

Definition le_value (a b : sym_table) : Prop := value a <= value b.

(** ** Inputs used below *)

(** A file made of the given lines, each ended by a newline. *)
Definition file_of (lines : list string) : list ascii :=
  flat_map (λ l, list_ascii_of_string l ++ [newline]) lines.

(** The state a load leaves with the modules [ms] in its store. *)
Definition loaded (ms : list Module_t) : State :=
  {| sym_array_modules := ms; have_modules := true;
     lastmodule := last ms ≫= mod_name; ret := ""; heap := [] |}.

Definition unsigned_long (w : Z) : ctype :=
  {| ct_bits := w; ct_signed := false |}.

(** One module named m with the symbols A and B. *)
Definition store_m (st : State) : State :=
  set_modules
    [mk_module (Some "m"%string) [sym 0x1000 "A"; sym 0x1100 "B"]] st.

(** Three lines of two groups. *)
Definition three_lines : list ascii :=
  file_of ["1000 T f1 [m]"; "1010 T f2 [m]"; "2000 T g1"]%string.

Definition m_store : list Module_t :=
  [mk_module (Some "m"%string) [sym 0x1000 "f1"; sym 0x1010 "f2"]].

(** The store the three lines load. *)
Definition two_groups : list Module_t :=
  [mk_module (Some "m"%string) [sym 0x1000 "f1"; sym 0x1010 "f2"];
   mk_module None [sym 0x2000 "g1"]].

(** Lines out of address order. *)
Definition unsorted_lines : list ascii :=
  file_of ["3000 T c [m]"; "1000 T a [m]"; "2000 T b [m]";
           "5000 T y"; "4000 T x"]%string.

Definition sorted_store : list Module_t :=
  [mk_module (Some "m"%string)
     [sym 0x1000 "a"; sym 0x2000 "b"; sym 0x3000 "c"];
   mk_module None [sym 0x4000 "x"; sym 0x5000 "y"]].

(** A symbol whose name is a hundred letters long. *)
Definition long_name : string :=
  string_of_list_ascii (replicate 100 "a"%char).

Definition long_lines : list ascii :=
  file_of [("1000 T " ++ long_name)%string; "1100 T B"%string].

Definition long_store : list Module_t :=
  [mk_module None [sym 0x1000 long_name; sym 0x1100 "B"]].

(** Two modules that start at the same address; the first two symbols of
    the first one share it. *)
Definition twin_lines : list ascii :=
  file_of ["2000 T A [m1]"; "2000 T B [m1]";
           "2000 T C [m2]"; "3000 T D [m2]"]%string.

Definition twin_store : list Module_t :=
  [mk_module (Some "m1"%string) [sym 0x2000 "A"; sym 0x2000 "B"];
   mk_module (Some "m2"%string) [sym 0x2000 "C"; sym 0x3000 "D"]].

(** Two modules that bracket the same address alike, the second one more
    closely, and a module of one symbol between them. *)
Definition nested_store : list Module_t :=
  [mk_module (Some "big"%string) [sym 0x1000 "A"; sym 0x3000 "B"];
   mk_module None [sym 0x500 "x"];
   mk_module (Some "small"%string) [sym 0x1000 "C"; sym 0x2000 "D"]].

(** A module that lies above the address 0x1000. *)
Definition low_store : list Module_t :=
  [mk_module (Some "m"%string) [sym 0x2000 "A"; sym 0x3000 "B"]].

(** The same, its two symbols at one address. *)
Definition flat_lines : list ascii :=
  file_of ["2000 T A [m]"; "2000 T B [m]"]%string.

Definition flat_store : list Module_t :=
  [mk_module (Some "m"%string) [sym 0x2000 "A"; sym 0x2000 "B"]].

Definition one_line : list ascii := file_of ["1000 T f1 [m]"%string].

Definition two_lines : list ascii := file_of ["1000 T a"; "2000 T b"]%string.

(** A module that counts one symbol and has no array. *)
Definition dangling_store : list Module_t :=
  [{| sym_array := None; num_syms := 1; mod_name := None |}].

(** ** What the further properties speak of *)

(** The store once the symbol [s] of the module [module] has been added to
    the store of [st], every allocation granted. *)
Definition added (st : State) (module : option string) (s : sym_table)
    : list Module_t :=
  if same_group st module
  then alter (append_symbol s) (num_modules st - 1)%nat (sym_array_modules st)
  else sym_array_modules st ++ [mk_module module [s]].

(** A module holds its symbols and nothing else: at least one symbol, an
    array of exactly [num_syms] slots, each of them written. *)
Definition whole (mp : Module_t) : Prop :=
  ∃ syms, syms ≠ [] ∧ mp = mk_module (mod_name mp) syms.

(** No two neighbours in the store have the same name. *)
Definition runs (ms : list Module_t) : Prop :=
  ∀ i a b, ms !! i = Some a → ms !! S i = Some b → mod_name a ≠ mod_name b.

(** Two states that a load cannot tell apart: the same store, the same
    allocations to come, and the same [lastmodule] unless the store is
    empty, where [AddSymbol] does not look at it. *)
Definition alike (a b : State) : Prop :=
  sym_array_modules a = sym_array_modules b ∧
  have_modules a = have_modules b ∧
  heap a = heap b ∧
  (sym_array_modules a ≠ [] → lastmodule a = lastmodule b).

(** The computation [c] neither reads nor writes what [f] changes. *)
Definition frames {A} (f : State → State) (c : M A) : Prop :=
  ∀ st, c (f st) = (λ p, (p.1, f p.2)) <$> c st.

(** A module lies apart from the address [v]: its symbols can be read,
    their addresses are [unsigned long]s, and all of them are at or below
    [v], or all of them above. *)
Definition apart (w : Z) (v : Z) (mp : Module_t) : Prop :=
  ∃ syms, read_syms mp = Some syms ∧
    Forall (λ s, 0 <= value s < 2 ^ w) syms ∧
    (Forall (λ s, value s <= v) syms ∨ Forall (λ s, v < value s) syms).

(** A byte of an address or of a symbol name as the kernel prints them:
    not white space, not NUL, not an opening bracket. *)
Definition plain (c : ascii) : bool :=
  negb (isspace c) && negb (Ascii.eqb c NUL) && negb (Ascii.eqb c "[").

(** The horizontal tab. *)
Definition tab : ascii := "009"%char.

(** A line of /proc/kallsyms: the address, a space, the type, a space, the
    name, for the symbol of a module a tab and the module's name in
    brackets, and a newline. *)
Definition kallsyms_line (addr : list ascii) (type : ascii)
    (name : list ascii) (module : option (list ascii)) : buffer :=
  addr ++ " "%char :: type :: " "%char :: name ++
  match module with
  | Some m => tab :: "["%char :: m ++ ["]"%char]
  | None => []
  end ++ [newline].

(** One entry of /proc/kallsyms. *)
Record entry := {
  e_addr : list ascii;
  e_type : ascii;
  e_name : list ascii;
  e_module : option (list ascii)
}.

(** The line of an entry. *)
Definition entry_line (e : entry) : buffer :=
  kallsyms_line (e_addr e) (e_type e) (e_name e) (e_module e).

(** An entry as the kernel prints it, on a line that fits the buffer of
    [InitMsyms]. *)
Definition well_formed (e : entry) : Prop :=
  Forall (λ c, plain c = true) (e_addr e) ∧
  (e_type e ≠ NUL ∧ e_type e ≠ "["%char) ∧ e_type e ≠ newline ∧
  Forall (λ c, plain c = true) (e_name e) ∧ e_name e ≠ [] ∧
  (∀ m, e_module e = Some m →
     Forall (λ c, (c ≠ NUL ∧ c ≠ "]"%char) ∧ c ≠ newline) m) ∧
  (length (entry_line e) ≤ 127)%nat.

(** The module name and the symbol an entry stands for; nothing when a
    static table is loaded and the entry has no module. *)
Definition entry_record (w n : Z) (e : entry)
    : option (option string * sym_table) :=
  if (0 <? n) && bool_decide (e_module e = None) then None
  else Some (string_of_list_ascii <$> e_module e,
             {| value := strtoul w (e_addr e);
                name := string_of_list_ascii (e_name e) |}).

(** A symbol joins the last module when that has its module's name, and
    opens a new module otherwise. *)
Definition grouped_add (ms : list Module_t) (r : option string * sym_table)
    : list Module_t :=
  match last ms with
  | Some mp =>
      if bool_decide (mod_name mp = r.1)
      then alter (append_symbol r.2) (length ms - 1)%nat ms
      else ms ++ [mk_module r.1 [r.2]]
  | None => [mk_module r.1 [r.2]]
  end.

(** The modules a sequence of symbols makes, run by run. *)
Definition grouped (rs : list (option string * sym_table)) : list Module_t :=
  foldl grouped_add [] rs.

(** The symbols of a store, module after module. *)
Definition store_symbols (ms : list Module_t) : list sym_table :=
  ms ≫= (λ mp, default [] (read_syms mp)).

(** A piece of 127 bytes without a newline. *)
Definition long_piece : list ascii :=
  list_ascii_of_string "1000 T " ++ replicate 120 "a"%char.

(** A line that follows it. *)
Definition long_rest : list ascii := file_of ["c0de T tail"%string].

(** The three lines as entries. *)
Definition entry_f1 : entry :=
  {| e_addr := list_ascii_of_string "1000"; e_type := "T"%char;
     e_name := list_ascii_of_string "f1";
     e_module := Some (list_ascii_of_string "m") |}.

Definition entry_f2 : entry :=
  {| e_addr := list_ascii_of_string "1010"; e_type := "T"%char;
     e_name := list_ascii_of_string "f2";
     e_module := Some (list_ascii_of_string "m") |}.

Definition entry_g1 : entry :=
  {| e_addr := list_ascii_of_string "2000"; e_type := "T"%char;
     e_name := list_ascii_of_string "g1"; e_module := None |}.

(** Two states of the search that differ at most in a label that is not
    yet in use: the same [*sym], and the same [ret] unless the size is
    still 0. *)
Definition same_search (a b : symbol * string) : Prop :=
  a.1 = b.1 ∧ (a.2 = b.2 ∨ size a.1 = 0).

(** The record of a line with [r] beyond the terminator of its buffer. *)
Definition beyond (r : list ascii) (loc : locals) : locals :=
  {| l_line := l_line loc ++ NUL :: r; l_module := l_module loc;
     l_address := l_address loc; l_p := l_p loc |}.

(** The name of a piece lies within it: three bytes past the first space
    of the line is no further than the terminator of the piece. *)
Definition within (w : Z) (piece : buffer) : Prop :=
  ∀ loc, scan_line w (chomp piece) = Some (Some loc) →
         (l_p loc ≤ length piece)%nat.

(** A line that ends at its first space, after a longer one. *)
Definition stale_lines : list ascii :=
  file_of ["ffff T AAAAAAAAAAAA"; "1000 "]%string.

(** * Properties of the code *)

(** ** Running a computation *)

Lemma bind_Some {A B} (c : M A) (f : A → M B) st y st' :
  (c ≫= f) st = Some (y, st') ↔
  ∃ x st1, c st = Some (x, st1) ∧ f x st1 = Some (y, st').
Proof.
  unfold mbind, M_bind. split.
  - destruct (c st) as [[x st1]|]; [eauto | discriminate].
  - intros (x & st1 & -> & H). exact H.
Qed.

Lemma bind_run {A B} (c : M A) (f : A → M B) st :
  (c ≫= f) st = match c st with Some (x, st') => f x st' | None => None end.
Proof. reflexivity. Qed.

Lemma gets_Some {A} (f : State → A) st x st' :
  gets f st = Some (x, st') → x = f st ∧ st' = st.
Proof. unfold gets. now intros [= <- <-]. Qed.

Lemma modify_Some f st (x : unit) st' :
  modify f st = Some (x, st') → st' = f st.
Proof. unfold modify. now intros [= <-]. Qed.

Lemma lift_Some {A} (o : option A) st x st' :
  lift o st = Some (x, st') → o = Some x ∧ st' = st.
Proof.
  unfold lift. destruct o; simpl; [now intros [= <- <-] | discriminate].
Qed.

Lemma mret_Some {A} (x : A) st y st' :
  mret (M := M) x st = Some (y, st') → y = x ∧ st' = st.
Proof. unfold mret, M_ret. now intros [= <- <-]. Qed.

(** Takes a run that has a result apart, one step after the other. *)
Ltac inv_run H :=
  cbv beta in H;
  lazymatch type of H with
  | (_ ≫= _) _ = Some _ =>
      let x := fresh "x" in let s := fresh "st" in let H1 := fresh "R" in
      apply bind_Some in H as (x & s & H1 & H); inv_run H1; inv_run H
  | gets _ _ = Some _ => apply gets_Some in H; destruct H; subst
  | modify _ _ = Some _ => apply modify_Some in H; subst
  | lift _ _ = Some _ => apply lift_Some in H; destruct H as [H ?]; subst
  | mret _ _ = Some _ => apply mret_Some in H; destruct H; subst
  | _ => idtac
  end.

Ltac simpl_state :=
  unfold num_modules, update_module, set_modules, set_have_modules,
    set_lastmodule, set_ret, set_heap in *;
  cbn beta iota zeta delta
    [sym_array_modules have_modules lastmodule ret heap] in *.

Lemma state_eta st : set_ret (ret st) st = st.
Proof. now destruct st. Qed.

Lemma alloc_Some st b st' :
  alloc st = Some (b, st') → sym_array_modules st' = sym_array_modules st.
Proof.
  unfold alloc. destruct (heap st); intros [= <- <-]; reflexivity.
Qed.

(** ** Lists *)

Lemma forallb_impl {A} (f g : A → bool) l :
  (∀ x, f x = true → g x = true) → forallb f l = true → forallb g l = true.
Proof.
  intros Hfg. induction l as [|x l IH]; simpl; [auto |].
  intros [Hx Hl]%andb_prop. rewrite (Hfg _ Hx). auto.
Qed.

Lemma list_last_split {A} (l : list A) :
  l ≠ [] → ∃ l' x, l = l' ++ [x].
Proof.
  destruct l as [|a l] using rev_ind; [congruence | eauto].
Qed.

Lemma alter_end {A} (f : A → A) l x :
  alter f (length l) (l ++ [x]) = l ++ [f x].
Proof.
  replace (length l) with (length l + 0)%nat at 1 by lia.
  now rewrite alter_app_r.
Qed.

Lemma lookup_end {A} (l : list A) x : (l ++ [x]) !! length l = Some x.
Proof. rewrite lookup_app_r by lia. now rewrite Nat.sub_diag. Qed.

Lemma mapM_id_length {A} (l : list (option A)) k :
  mapM id l = Some k → length k = length l.
Proof.
  intros H. apply mapM_Some in H. symmetry. eapply Forall2_length, H.
Qed.

Lemma mapM_id_lookup {A} (l : list (option A)) k i :
  mapM id l = Some k → (i < length l)%nat → mjoin (l !! i) = k !! i.
Proof.
  intros H Hi. apply mapM_Some in H.
  destruct (lookup_lt_is_Some_2 l i Hi) as [x Hx].
  destruct (Forall2_lookup_l _ _ _ _ _ H Hx) as (y & Hy & Hxy).
  rewrite Hx, Hy. simpl. exact Hxy.
Qed.

Lemma substring_all s n :
  (String.length s ≤ n)%nat → substring 0 n s = s.
Proof.
  revert n. induction s as [|c s IH]; intros n Hn.
  - now destruct n.
  - destruct n as [|n]; simpl in *; [lia |]. f_equal. apply IH. lia.
Qed.

Lemma string_length_of_list s :
  String.length (string_of_list_ascii s) = length s.
Proof. induction s as [|c s IH]; simpl; [reflexivity | now rewrite IH]. Qed.

(** ** Small values survive the conversions *)

Lemma wrap_small w x : 0 <= x < 2 ^ w → wrap w x = x.
Proof. apply Z.mod_small. Qed.

Lemma convert_small t x : 0 <= x < 2 ^ (ct_bits t - 1) → convert t x = x.
Proof.
  intros Hx. unfold convert.
  assert (Hb : 0 <= ct_bits t - 1).
  { destruct (Z.le_gt_cases 0 (ct_bits t - 1)); [assumption |].
    rewrite Z.pow_neg_r in Hx by lia. lia. }
  assert (Hp : 2 ^ ct_bits t = 2 * 2 ^ (ct_bits t - 1)).
  { rewrite <- Z.pow_succ_r by assumption. f_equal. lia. }
  destruct (ct_signed t).
  - rewrite Z.mod_small by lia. lia.
  - rewrite Z.mod_small by lia. reflexivity.
Qed.

Lemma fits_small w t x :
  0 <= x < 2 ^ w → x < 2 ^ (ct_bits t - 1) → fits w t x = true.
Proof.
  intros Hw Ht. unfold fits.
  rewrite convert_small, wrap_small by lia. apply Z.eqb_refl.
Qed.

(** ** symsort and qsort *)

Lemma symsort_le a b : (symsort a b <=? 0) = true ↔ value a <= value b.
Proof.
  unfold symsort.
  destruct (Z.ltb_spec (value a) (value b)); [simpl; intuition lia |].
  destruct (Z.eqb_spec (value a) (value b)); simpl; intuition lia.
Qed.

Lemma qsort_insert_HdRel x y l :
  le_value y x → HdRel le_value y l →
  HdRel le_value y (qsort_insert symsort x l).
Proof.
  intros Hyx Hl. destruct l as [|z l']; simpl.
  - constructor. exact Hyx.
  - destruct (symsort x z <=? 0); constructor.
    + exact Hyx.
    + inversion Hl; assumption.
Qed.

Lemma qsort_insert_sorted x l :
  Sorted le_value l → Sorted le_value (qsort_insert symsort x l).
Proof.
  induction 1 as [|y l' Hs IH Hhd]; simpl.
  - repeat constructor.
  - destruct (symsort x y <=? 0) eqn:E.
    + constructor; [constructor; assumption |].
      constructor. apply symsort_le. exact E.
    + constructor; [exact IH |].
      apply qsort_insert_HdRel; [| exact Hhd].
      unfold le_value.
      assert (¬ value x <= value y)
        by (rewrite <- symsort_le, E; discriminate).
      lia.
Qed.

Lemma qsort_sorted l : Sorted le_value (qsort symsort l).
Proof.
  induction l as [|x l IH]; simpl; [constructor |].
  apply qsort_insert_sorted, IH.
Qed.

Lemma qsort_insert_length {A} (c : A → A → Z) x l :
  length (qsort_insert c x l) = S (length l).
Proof.
  induction l as [|y l IH]; simpl; [reflexivity |].
  destruct (c x y <=? 0); simpl; [reflexivity | now rewrite IH].
Qed.

Lemma qsort_length {A} (c : A → A → Z) l : length (qsort c l) = length l.
Proof.
  induction l as [|x l IH]; simpl; [reflexivity |].
  now rewrite qsort_insert_length, IH.
Qed.

Lemma qsort_insert_perm {A} (c : A → A → Z) x l :
  Permutation (qsort_insert c x l) (x :: l).
Proof.
  induction l as [|y l IH]; simpl; [reflexivity |].
  destruct (c x y <=? 0); [reflexivity |].
  rewrite IH. apply perm_swap.
Qed.

Lemma qsort_perm {A} (c : A → A → Z) l : Permutation (qsort c l) l.
Proof.
  induction l as [|x l IH]; simpl; [reflexivity |].
  now rewrite qsort_insert_perm, IH.
Qed.

Lemma sorted_adjacent l i a b :
  Sorted le_value l → l !! i = Some a → l !! S i = Some b →
  value a <= value b.
Proof.
  intros Hs. revert i. induction Hs as [|x l' Hs IH Hhd]; intros i Ha Hb.
  - discriminate.
  - destruct i as [|i]; simpl in *.
    + injection Ha as <-. destruct l' as [|y l'']; [discriminate |].
      simpl in Hb. injection Hb as <-. inversion Hhd; assumption.
    + eapply IH; eassumption.
Qed.

(** ** The symbols of a module *)

Lemma read_syms_length mp syms :
  read_syms mp = Some syms → length syms = num_syms mp.
Proof.
  unfold read_syms. intros H.
  destruct (Nat.leb_spec (num_syms mp) (length (default [] (sym_array mp))));
    [| discriminate].
  apply mapM_id_length in H. rewrite H, length_take. lia.
Qed.

Lemma read_syms_slot mp syms i :
  read_syms mp = Some syms → (i < num_syms mp)%nat → slot mp i = syms !! i.
Proof.
  unfold read_syms, slot. intros H Hi.
  destruct (Nat.leb_spec (num_syms mp) (length (default [] (sym_array mp))))
    as [Hle|]; [| discriminate].
  destruct (sym_array mp) as [arr|]; simpl in *; [| lia].
  rewrite <- (mapM_id_lookup _ _ i H) by (rewrite length_take; lia).
  now rewrite lookup_take_lt by lia.
Qed.

Lemma sort_module_sorted mp mp' :
  sort_module mp = Some mp' → sorted_module mp'.
Proof.
  unfold sort_module. intros H i Hi.
  destruct (Nat.ltb_spec (num_syms mp) 2) as [Hlt|Hge].
  - injection H as <-. lia.
  - destruct (read_syms mp) as [syms|] eqn:Hr; [| discriminate].
    destruct (sym_array mp) as [arr|] eqn:Ha; [| discriminate].
    simpl in H. injection H as <-. simpl in Hi.
    pose proof (read_syms_length _ _ Hr) as Hlen.
    pose proof (qsort_length symsort syms) as Hq.
    assert (Hslot : ∀ j, (j < num_syms mp)%nat →
              slot (set_sym_array
                (Some ((Some <$> qsort symsort syms)
                         ++ drop (num_syms mp) arr)) mp) j
              = qsort symsort syms !! j).
    { intros j Hj. unfold slot. simpl.
      rewrite lookup_app_l by (rewrite length_fmap; lia).
      rewrite list_lookup_fmap. now destruct (qsort symsort syms !! j). }
    destruct (lookup_lt_is_Some_2 (qsort symsort syms) i) as [a Ea]; [lia |].
    destruct (lookup_lt_is_Some_2 (qsort symsort syms) (i + 1)) as [b Eb];
      [lia |].
    exists a, b. rewrite !Hslot by lia. repeat split; try assumption.
    eapply sorted_adjacent; [apply qsort_sorted | exact Ea |].
    now replace (S i) with (i + 1)%nat by lia.
Qed.

Lemma FreeModules_modules st st' :
  FreeModules st = Some (tt, st') → sym_array_modules st' = [].
Proof.
  unfold FreeModules. intros H. inv_run H. simpl_state.
  destruct (sym_array_modules st) as [|m ms] eqn:E; simpl in H.
  - inv_run H. reflexivity.
  - inv_run H. reflexivity.
Qed.

(** ** The search *)

Section Lookup.

Context (w : Z) (fty : ctype) (v : Z).

(** The inner loop follows [find_pair] along the symbols of a module that
    can all be read. *)
Lemma sym_loop_find mp syms acc fuel nsym :
  read_syms mp = Some syms →
  (S nsym + fuel = num_syms mp)%nat →
  sym_loop w fty v mp fuel (S nsym) nsym acc
  = Some (picked w fty v mp (find_pair v (drop nsym syms)) acc).
Proof.
  intros Hr. pose proof (read_syms_length _ _ Hr) as Hlen.
  revert nsym. induction fuel as [|fuel IH]; intros nsym Hn.
  - simpl.
    destruct (lookup_lt_is_Some_2 syms nsym) as [a Ha]; [lia |].
    rewrite (drop_S _ _ _ Ha), drop_ge by lia. reflexivity.
  - destruct (lookup_lt_is_Some_2 syms nsym) as [a Ha]; [lia |].
    destruct (lookup_lt_is_Some_2 syms (S nsym)) as [b Hb]; [lia |].
    rewrite (drop_S _ _ _ Ha), (drop_S _ _ _ Hb).
    cbn [sym_loop find_pair].
    rewrite !(read_syms_slot _ _ _ Hr) by lia. rewrite Ha, Hb. simpl.
    destruct (v <? value b); [reflexivity |].
    rewrite IH by lia. now rewrite (drop_S _ _ _ Hb).
Qed.

Lemma sym_loop_candidate mp c acc :
  candidate v mp = Some c →
  sym_loop w fty v mp (num_syms mp - 1) 1 0 acc
  = Some (picked w fty v mp c acc).
Proof.
  unfold candidate. intros H.
  destruct (read_syms mp) as [syms|] eqn:Hr; [| discriminate].
  injection H as <-.
  pose proof (read_syms_length _ _ Hr) as Hlen.
  destruct (num_syms mp) as [|n] eqn:En.
  - destruct syms; [reflexivity | discriminate].
  - replace (S n - 1)%nat with n by lia.
    now rewrite (sym_loop_find _ syms) by (assumption || lia).
Qed.

(** What the inner loop leaves is what it was given, or what the pair it
    stopped at made of it. *)
Lemma sym_loop_stops mp acc acc' fuel nsym :
  sym_loop w fty v mp fuel (S nsym) nsym acc = Some acc' →
  (S nsym + fuel = num_syms mp)%nat →
  (∀ j, (1 ≤ j < S nsym)%nat → ∃ s, slot mp j = Some s ∧ value s <= v) →
  acc' = acc ∨
  ∃ n l x, stops_at v mp n l x ∧ acc' = take_candidate w fty v mp l x acc.
Proof.
  revert nsym. induction fuel as [|fuel IH]; intros nsym H Hn Hbelow.
  - left. now injection H as <-.
  - simpl in H.
    destruct (slot mp (S nsym)) as [cur|] eqn:Hcur; [| discriminate].
    simpl in H. destruct (Z.ltb_spec v (value cur)) as [Hv|Hv].
    + destruct (slot mp nsym) as [l|] eqn:Hl; [| discriminate].
      simpl in H. injection H as <-. right.
      exists (S nsym), l, cur. split; [| reflexivity].
      unfold stops_at. replace (S nsym - 1)%nat with nsym by lia.
      repeat split; try assumption; lia.
    + apply IH in H; [exact H | lia |].
      intros j Hj. destruct (decide (j = S nsym)) as [->|].
      * eauto.
      * apply Hbelow. lia.
Qed.

Lemma sym_loop_inv mp acc acc' :
  sym_loop w fty v mp (num_syms mp - 1) 1 0 acc = Some acc' →
  acc' = acc ∨
  ∃ n l x, stops_at v mp n l x ∧ acc' = take_candidate w fty v mp l x acc.
Proof.
  intros H. destruct (num_syms mp) as [|n] eqn:En.
  - left. now injection H as <-.
  - eapply sym_loop_stops; [exact H | lia |]. intros j Hj. lia.
Qed.

Lemma module_loop_none ms acc :
  forallb (no_candidate v) ms = true →
  module_loop w fty v ms acc = Some acc.
Proof.
  induction ms as [|m ms IH]; simpl; [reflexivity |].
  intros [Hm Hms]%andb_prop.
  apply bool_decide_eq_true in Hm.
  rewrite (sym_loop_candidate _ _ _ Hm). simpl. auto.
Qed.

Lemma module_loop_app ms1 ms2 acc :
  module_loop w fty v (ms1 ++ ms2) acc
  = module_loop w fty v ms1 acc ≫= module_loop w fty v ms2.
Proof.
  revert acc. induction ms1 as [|m ms1 IH]; intros acc; simpl;
    [reflexivity |].
  destruct (sym_loop w fty v m (num_syms m - 1) 1 0 acc); simpl; auto.
Qed.

(** Whatever the search ends with was taken from a pair some module's
    loop stopped at. *)
Lemma module_loop_inv ms acc acc' :
  module_loop w fty v ms acc = Some acc' →
  acc' = acc ∨
  ∃ m n l x, m ∈ ms ∧ stops_at v m n l x ∧ acc' = taken w fty v m l x.
Proof.
  revert acc. induction ms as [|m ms IH]; intros acc H; simpl in H.
  - left. now injection H as <-.
  - destruct (sym_loop w fty v m (num_syms m - 1) 1 0 acc) as [acc1|] eqn:E;
      [| discriminate].
    simpl in H. apply IH in H as [-> | (m' & n & l & x & Hin & Hst & ->)].
    + apply sym_loop_inv in E as [-> | (n & l & x & Hst & ->)]; [now left |].
      unfold take_candidate.
      destruct (replaces w acc.1 (cand_offset w v l) (cand_size w l x));
        [| now left].
      right. exists m, n, l, x. split; [left | auto].
    + right. exists m', n, l, x. split; [now right | auto].
Qed.

Lemma beaten_replaces o s acc :
  beaten w fty o s acc → replaces w acc.1 o s = true.
Proof.
  unfold replaces, fits.
  intros [H0 | (o' & s' & -> & Ho & Hs & Hb)].
  - rewrite H0. reflexivity.
  - simpl. apply Z.eqb_eq in Ho, Hs. rewrite Ho, Hs.
    unfold better in Hb.
    destruct (convert fty s' =? 0); simpl; [reflexivity |].
    destruct (o <? o'); simpl in *; [reflexivity |].
    rewrite Z.eqb_sym. exact Hb.
Qed.

Lemma module_loop_before o s ms acc :
  forallb (gives_way w fty v o s) ms = true →
  beaten w fty o s acc →
  ∃ acc', module_loop w fty v ms acc = Some acc' ∧ beaten w fty o s acc'.
Proof.
  revert acc. induction ms as [|m ms IH]; intros acc Hms Hacc; simpl.
  - eauto.
  - simpl in Hms. apply andb_prop in Hms as [Hm Hms].
    unfold gives_way in Hm.
    destruct (candidate v m) as [c|] eqn:Hc; [| discriminate].
    rewrite (sym_loop_candidate _ _ _ Hc). simpl.
    apply IH; [exact Hms |].
    destruct c as [[l x]|]; simpl; [| exact Hacc].
    unfold take_candidate.
    destruct (replaces w acc.1 (cand_offset w v l) (cand_size w l x));
      [| exact Hacc].
    apply andb_prop in Hm as [Hm Hb]. apply andb_prop in Hm as [Ho Hs].
    right. exists (cand_offset w v l), (cand_size w l x). auto.
Qed.

Lemma module_loop_after m l x ms :
  fits w fty (cand_offset w v l) = true →
  fits w fty (cand_size w l x) = true →
  0 < convert fty (cand_size w l x) →
  forallb (not_better w v (cand_offset w v l) (cand_size w l x)) ms = true →
  module_loop w fty v ms (taken w fty v m l x) = Some (taken w fty v m l x).
Proof.
  intros Ho Hs Hpos. induction ms as [|m' ms IH]; simpl; [reflexivity |].
  intros [Hm Hms]%andb_prop. unfold not_better in Hm.
  destruct (candidate v m') as [c|] eqn:Hc; [| discriminate].
  rewrite (sym_loop_candidate _ _ _ Hc). simpl.
  destruct c as [[l' x']|]; simpl; [| auto].
  unfold take_candidate.
  replace (replaces w (taken w fty v m l x).1
             (cand_offset w v l') (cand_size w l' x')) with false; [auto |].
  symmetry. unfold replaces, taken. simpl.
  unfold fits in Ho, Hs. apply Z.eqb_eq in Ho, Hs. rewrite Ho, Hs.
  unfold better in Hm. apply negb_true_iff in Hm.
  destruct (Z.eqb_spec (convert fty (cand_size w l x)) 0); [lia |]. simpl.
  rewrite Z.eqb_sym. exact Hm.
Qed.

(** The module whose candidate no earlier module stands in the way of,
    and no later module displaces, names the result. *)
Lemma lookup_best st pre m post l x :
  sym_array_modules st = pre ++ m :: post →
  candidate v m = Some (Some (l, x)) →
  fits w fty (cand_offset w v l) = true →
  fits w fty (cand_size w l x) = true →
  0 < convert fty (cand_size w l x) →
  forallb (gives_way w fty v (cand_offset w v l) (cand_size w l x)) pre
    = true →
  forallb (not_better w v (cand_offset w v l) (cand_size w l x)) post
    = true →
  LookupModuleSymbol w fty v st
  = Some ((Some (snprintf_ret (mod_name m) (name l)),
           {| size := convert fty (cand_size w l x);
              offset := convert fty (cand_offset w v l) |}),
          set_ret (snprintf_ret (mod_name m) (name l)) st).
Proof.
  intros Hms Hc Ho Hs Hpos Hpre Hpost.
  unfold LookupModuleSymbol, num_modules. rewrite Hms.
  rewrite length_app. simpl.
  replace (length pre + S (length post) =? 0)%nat with false
    by (symmetry; apply Nat.eqb_neq; lia).
  rewrite module_loop_app.
  destruct (module_loop_before _ _ pre
              ({| size := 0; offset := 0 |}, ret st) Hpre)
    as (acc1 & -> & Hb); [now left |].
  simpl. rewrite (sym_loop_candidate _ _ _ Hc). simpl.
  unfold take_candidate. rewrite (beaten_replaces _ _ _ Hb).
  rewrite module_loop_after by assumption.
  simpl. now apply Z.ltb_lt in Hpos as ->.
Qed.

Lemma no_candidate_gives_way o s m :
  no_candidate v m = true → gives_way w fty v o s m = true.
Proof.
  unfold no_candidate, gives_way. intros H%bool_decide_eq_true.
  now rewrite H.
Qed.

Lemma no_candidate_not_better o s m :
  no_candidate v m = true → not_better w v o s m = true.
Proof.
  unfold no_candidate, not_better. intros H%bool_decide_eq_true.
  now rewrite H.
Qed.

Lemma candidate_first mp a b rest :
  read_syms mp = Some (a :: b :: rest) → v < value b →
  candidate v mp = Some (Some (a, b)).
Proof.
  intros Hr Hv. unfold candidate. rewrite Hr. simpl.
  now apply Z.ltb_lt in Hv as ->.
Qed.

End Lookup.

Lemma replaces_spec w best o s :
  replaces w best o s = true ↔
  size best = 0 ∨ o < wrap w (offset best) ∨
  (wrap w (offset best) = o ∧ s < wrap w (size best)).
Proof.
  unfold replaces.
  rewrite !orb_true_iff, andb_true_iff, Z.eqb_eq, !Z.ltb_lt, Z.eqb_eq.
  tauto.
Qed.

(** ** Grouping *)

Lemma new_group_same_group st module :
  new_group (num_modules st) (lastmodule st) module
  = negb (same_group st module).
Proof.
  unfold new_group, same_group.
  destruct (num_modules st =? 0)%nat; [reflexivity |].
  destruct (lastmodule st), module; reflexivity.
Qed.

Lemma same_group_spec st module :
  same_group st module = true ↔
  sym_array_modules st ≠ [] ∧
  ((lastmodule st = None ∧ module = None) ∨
   ∃ n, lastmodule st = Some n ∧ module = Some n).
Proof.
  unfold same_group, num_modules.
  destruct (sym_array_modules st) as [|m ms]; simpl.
  - split; [discriminate | intros [[] _]; reflexivity].
  - destruct (lastmodule st) as [l|], module as [n|]; simpl.
    + destruct (String.eqb_spec n l) as [->|Hne].
      * split; [intros _ | reflexivity]. split; [discriminate | eauto].
      * split; [discriminate |].
        intros [_ [[? _] | (k & [= <-] & [= <-])]];
          [discriminate | contradiction].
    + split; [discriminate |].
      intros [_ [[? _] | (k & _ & ?)]]; discriminate.
    + split; [discriminate |].
      intros [_ [[_ ?] | (k & ? & _)]]; discriminate.
    + split; [intros _ | reflexivity]. split; [discriminate | auto].
Qed.

(** The slots of a module once a symbol is appended. *)
Lemma append_symbol_new s mp :
  slot (append_symbol s mp) (num_syms mp) = Some s.
Proof.
  unfold slot, append_symbol. simpl.
  rewrite list_lookup_insert_eq by (rewrite length_resize; lia).
  reflexivity.
Qed.

Lemma append_symbol_old s mp i :
  (i < num_syms mp)%nat → slot (append_symbol s mp) i = slot mp i.
Proof.
  intros Hi. unfold slot, append_symbol. simpl.
  rewrite list_lookup_insert_ne by lia.
  destruct (sym_array mp) as [arr|]; cbn [from_option id mbind option_bind].
  - destruct (decide (i < length arr)%nat).
    + now rewrite lookup_resize by lia.
    + rewrite lookup_resize_new by lia.
      now rewrite (lookup_ge_None_2 arr) by lia.
  - now rewrite lookup_resize_new by (simpl; lia).
Qed.

Lemma append_symbol_mk_module s n syms :
  append_symbol s (mk_module n syms) = mk_module n (syms ++ [s]).
Proof.
  unfold append_symbol, mk_module. simpl.
  rewrite length_app. simpl. f_equal; [| lia].
  replace (default [] match syms with
                      | [] => None
                      | _ => Some (Some <$> syms)
                      end)
    with (Some <$> syms) by (now destruct syms).
  assert (E : ∀ l : list (option sym_table),
            <[length l := Some s]> (resize (S (length l)) None l)
            = l ++ [Some s]).
  { intros l. rewrite resize_ge by lia.
    replace (S (length l) - length l)%nat with 1%nat by lia. simpl.
    replace (length l) with (length l + 0)%nat at 1 by lia.
    now rewrite insert_app_r. }
  specialize (E (Some <$> syms)). rewrite length_fmap in E. rewrite E.
  rewrite fmap_app. simpl. now destruct syms.
Qed.

(** What [add_to_group] does when every allocation is granted and the
    name can be read. *)
Lemma add_to_group_granted loc st nm :
  heap st = [] →
  string_at (l_line loc) (l_p loc) = Some nm →
  let s := {| value := l_address loc; name := string_of_list_ascii nm |} in
  ∃ st', add_to_group loc st = Some (1, st') ∧ heap st' = [] ∧
    if same_group st (module_of loc)
    then ∃ ms mp, sym_array_modules st = ms ++ [mp] ∧
           sym_array_modules st' = ms ++ [append_symbol s mp] ∧
           lastmodule st' = mod_name mp
    else sym_array_modules st' =
           sym_array_modules st ++ [mk_module (module_of loc) [s]] ∧
         lastmodule st' = module_of loc.
Proof.
  intros Hheap Hnm s. unfold add_to_group.
  unfold mbind at 1 2, M_bind, gets.
  rewrite new_group_same_group.
  destruct (same_group st (module_of loc)) eqn:Hsame; simpl negb; cbv iota.
  - assert (Hne : sym_array_modules st ≠ []).
    { unfold same_group, num_modules in Hsame. intros E. rewrite E in Hsame.
      discriminate. }
    destruct (list_last_split _ Hne) as (ms & mp & Hms).
    destruct st as [ms0 hm lm r h]. simpl in Hheap, Hms. subst h ms0.
    unfold mbind, M_bind, mret, M_ret, gets, modify, lift, alloc,
      update_module, num_modules, set_lastmodule, set_modules, set_heap.
    cbn [sym_array_modules have_modules lastmodule ret heap].
    rewrite length_app. cbn [length].
    replace (length ms + 1 - 1)%nat with (length ms) by lia.
    rewrite lookup_end. cbn [fmap option_fmap option_map].
    cbn [negb sym_array_modules have_modules lastmodule ret heap].
    rewrite Hnm. cbn [fmap option_fmap option_map negb
      sym_array_modules have_modules lastmodule ret heap].
    eexists. split; [reflexivity |]. split; [reflexivity |].
    exists ms, mp. split; [reflexivity |]. split; [| reflexivity].
    cbn [sym_array_modules]. rewrite !alter_end. reflexivity.
  - destruct st as [ms hm lm r h]. simpl in Hheap. subst h.
    clear Hsame. generalize (module_of loc) as md. intros md.
    unfold AddModule, mbind, M_bind, mret, M_ret, gets, modify, lift, alloc,
      update_module, num_modules, set_lastmodule, set_modules, set_heap.
    cbn [sym_array_modules have_modules lastmodule ret heap negb].
    destruct md as [mn|];
      cbn [sym_array_modules have_modules lastmodule ret heap negb];
      rewrite lookup_end;
      cbn [fmap option_fmap option_map negb num_syms sym_array mod_name
        sym_array_modules have_modules lastmodule ret heap];
      rewrite Hnm;
      cbn [fmap option_fmap option_map negb
        sym_array_modules have_modules lastmodule ret heap];
      (eexists; split; [reflexivity |]; split; [reflexivity |];
       split; [| reflexivity]);
      cbn [sym_array_modules]; rewrite !alter_end; reflexivity.
Qed.

Lemma AddModule_Some module st i st' :
  AddModule module st = Some (Some i, st') →
  i = num_modules st ∧
  ∃ m, sym_array_modules st' = sym_array_modules st ++ [m].
Proof.
  unfold AddModule. intros H.
  apply bind_Some in H as (ok & st1 & Hal & H).
  pose proof (alloc_Some _ _ _ Hal) as E.
  destruct ok; simpl in H; [| inv_run H; discriminate].
  apply bind_Some in H as (n & st2 & Hn & H). inv_run Hn.
  apply bind_Some in H as (nm & st3 & Hnm & H).
  assert (E3 : sym_array_modules st3 = sym_array_modules st1).
  { destruct module as [s|]; inv_run Hnm; [| reflexivity].
    eauto using alloc_Some. }
  inv_run H.
  match goal with H : Some _ = Some _ |- _ => injection H as -> end.
  unfold num_modules. rewrite E. split; [reflexivity |].
  simpl. rewrite E3, E. eauto.
Qed.

(** A call that returns 1 has stored its symbol last in the last module. *)
Lemma add_to_group_stored loc st st' :
  add_to_group loc st = Some (1, st') →
  ∃ nm ms m,
    string_at (l_line loc) (l_p loc) = Some nm ∧
    sym_array_modules st' = ms ++ [m] ∧
    (0 < num_syms m)%nat ∧
    slot m (num_syms m - 1)
    = Some {| value := l_address loc; name := string_of_list_ascii nm |}.
Proof.
  unfold add_to_group. intros H.
  apply bind_Some in H as (n & st1 & Hn & H). inv_run Hn.
  apply bind_Some in H as (lm & st2 & Hlm & H). inv_run Hlm.
  apply bind_Some in H as (mp & st3 & Hmp & H).
  assert (Hi : ∃ i ms m0, mp = Some i ∧ sym_array_modules st3 = ms ++ [m0]
                          ∧ i = length ms).
  { destruct (new_group (num_modules st) (lastmodule st) (module_of loc))
      eqn:G.
    - destruct mp as [i|]; [| inv_run H; discriminate].
      apply AddModule_Some in Hmp as (-> & m0 & E).
      exists (num_modules st), (sym_array_modules st), m0. auto.
    - inv_run Hmp. unfold new_group in G.
      destruct (num_modules st) as [|n] eqn:En; [discriminate G |].
      unfold num_modules in En.
      destruct (list_last_split (sym_array_modules st)) as (ms & m0 & E).
      { intros E. rewrite E in En. discriminate. }
      exists n, ms, m0. split; [f_equal; lia |]. split; [exact E |].
      rewrite E, length_app in En. simpl in En. lia. }
  destruct Hi as (i & ms & m0 & -> & Ems & ->).
  apply bind_Some in H as (ms' & st4 & Hms' & H). inv_run Hms'.
  apply bind_Some in H as (m & st5 & Hm & H). inv_run Hm.
  rewrite Ems, lookup_end in Hm. injection Hm as <-.
  apply bind_Some in H as ([] & st6 & Hlast & H). inv_run Hlast.
  apply bind_Some in H as (ok & st7 & Hal & H).
  pose proof (alloc_Some _ _ _ Hal) as E7. simpl in E7.
  destruct ok; simpl in H; [| inv_run H; discriminate].
  apply bind_Some in H as ([] & st8 & Hup & H). inv_run Hup.
  apply bind_Some in H as (nm & st9 & Hnm & H). inv_run Hnm.
  apply bind_Some in H as (ok & st10 & Hal' & H).
  pose proof (alloc_Some _ _ _ Hal') as E10. simpl in E10.
  destruct ok; simpl in H; [| inv_run H; discriminate].
  inv_run H.
  exists nm, ms. eexists. split; [assumption |].
  split.
  { simpl. rewrite E10. unfold update_module. simpl. rewrite E7, Ems.
    rewrite !alter_end. reflexivity. }
  cbn [num_syms]. split; [lia |].
  replace (S (num_syms m0) - 1)%nat with (num_syms m0) by lia.
  unfold slot. cbn [sym_array mbind option_bind].
  rewrite list_lookup_insert_eq by (rewrite length_resize; lia).
  reflexivity.
Qed.

Lemma total_syms_app st ms m :
  sym_array_modules st = ms ++ [m] →
  total_syms st = (sum_list_with num_syms ms + num_syms m)%nat.
Proof.
  unfold total_syms. intros ->. rewrite sum_list_with_app. simpl. lia.
Qed.

(** ** Strings in a buffer *)

#[local] Arguments Ascii.eqb : simpl never.

Lemma space_not_NUL : " "%char ≠ NUL.
Proof. discriminate. Qed.

Lemma space_not_newline : " "%char ≠ newline.
Proof. discriminate. Qed.

Lemma bracket_not_NUL : "["%char ≠ NUL.
Proof. discriminate. Qed.

Create HintDb chars.
#[local] Hint Resolve space_not_NUL space_not_newline bracket_not_NUL : chars.

Lemma index_0 buf c : index buf 0 c = strchr buf c.
Proof.
  unfold index. rewrite drop_0. now destruct (strchr buf c).
Qed.

Lemma strchr_Some s c p :
  c ≠ NUL → strchr s c = Some p → s !! p = Some c ∧ (p < strlen s)%nat.
Proof.
  intros Hc. unfold strlen. revert p.
  induction s as [|a s IH]; intros p H; simpl in H; [discriminate |].
  destruct (Ascii.eqb_spec a c) as [->|Hac].
  - injection H as <-. split; [reflexivity |]. simpl.
    destruct (Ascii.eqb_spec c NUL); [contradiction | simpl; lia].
  - destruct (Ascii.eqb_spec a NUL) as [|Ha]; [discriminate |].
    destruct (strchr s c) as [q|] eqn:E; [| discriminate].
    simpl in H. injection H as <-. destruct (IH q eq_refl) as [H1 H2].
    split; [exact H1 |]. simpl.
    destruct (Ascii.eqb_spec a NUL); [contradiction | simpl; lia].
Qed.

Lemma strchr_insert_None s c k :
  c ≠ NUL → strchr s c = None → strchr (<[k := NUL]> s) c = None.
Proof.
  intros Hc. revert k. induction s as [|a s IH]; intros k H; [reflexivity |].
  simpl in H.
  destruct (Ascii.eqb_spec a c) as [|Hac]; [discriminate |].
  destruct k as [|k]; simpl.
  - destruct (Ascii.eqb_spec NUL c) as [E|_]; [now symmetry in E |].
    reflexivity.
  - destruct (Ascii.eqb_spec a c); [contradiction |].
    destruct (Ascii.eqb a NUL); [reflexivity |].
    destruct (strchr s c) eqn:E; [discriminate |].
    now rewrite IH.
Qed.

Lemma strchr_insert_Some s c k p :
  strchr s c = Some p → (p < k)%nat → strchr (<[k := NUL]> s) c = Some p.
Proof.
  revert k p. induction s as [|a s IH]; intros k p H Hk; [discriminate |].
  simpl in H. destruct k as [|k]; [lia |]. simpl.
  destruct (Ascii.eqb a c); [exact H |].
  destruct (Ascii.eqb a NUL); [discriminate |].
  destruct (strchr s c) as [q|] eqn:E; [| discriminate].
  simpl in H. injection H as <-. rewrite (IH k q) by (reflexivity || lia).
  reflexivity.
Qed.

Lemma chomp_length buf : length (chomp buf) = length buf.
Proof.
  unfold chomp; cbv zeta.
  destruct (buf !! (strlen buf - 1)%nat) as [c|]; [| reflexivity].
  destruct (Ascii.eqb c newline); [apply length_insert | reflexivity].
Qed.

Lemma chomp_strchr_None buf c :
  c ≠ NUL → strchr buf c = None → strchr (chomp buf) c = None.
Proof.
  intros Hc H. unfold chomp; cbv zeta.
  destruct (buf !! (strlen buf - 1)%nat) as [a|]; [| exact H].
  destruct (Ascii.eqb a newline); [| exact H].
  now apply strchr_insert_None.
Qed.

Lemma chomp_strchr_Some buf c p :
  c ≠ NUL → c ≠ newline → strchr buf c = Some p →
  strchr (chomp buf) c = Some p.
Proof.
  intros Hc Hnl H. unfold chomp; cbv zeta.
  destruct (buf !! (strlen buf - 1)%nat) as [a|] eqn:Ea; [| exact H].
  destruct (Ascii.eqb_spec a newline) as [->|]; [| exact H].
  destruct (strchr_Some _ _ _ Hc H) as [Hp Hlt].
  apply strchr_insert_Some; [exact H |].
  assert (p ≠ strlen buf - 1)%nat by (intros ->; congruence).
  lia.
Qed.

(** The string at [p] is empty exactly when [p] points at a terminator. *)
Lemma string_at_empty buf p nm :
  string_at buf p = Some nm →
  (1 ≤ length nm)%nat ↔ ∃ c, peek buf p = Some c ∧ c ≠ NUL.
Proof.
  unfold string_at, peek. intros H.
  destruct (Nat.leb_spec p (length buf)) as [Hp|]; [| discriminate].
  injection H as <-.
  destruct (Nat.eqb_spec p (length buf)) as [->|Hne].
  - rewrite drop_all. simpl. split; [lia |]. intros (c & [= <-] & Hc).
    contradiction.
  - destruct (lookup_lt_is_Some_2 buf p) as [c Hc]; [lia |].
    rewrite (drop_S _ _ _ Hc), Hc. simpl.
    destruct (Ascii.eqb_spec c NUL) as [->|Hn]; simpl.
    + split; [lia |]. intros (c & [= <-] & Hc'). contradiction.
    + split; [eauto | lia].
Qed.

(** A line without a bracket keeps its bytes but the first space. *)
Lemma scan_line_plain w line p :
  index line 0 "[" = None → index line 0 " " = Some p →
  scan_line w line
  = Some (Some {| l_line := <[p := NUL]> line; l_module := None;
                  l_address := strtoul w (cstring (<[p := NUL]> line));
                  l_p := (p + 3)%nat |}).
Proof. intros H1 H2. unfold scan_line. rewrite H1. simpl. now rewrite H2. Qed.

Lemma AddSymbol_scanned w line loc st :
  scan_line w line = Some (Some loc) →
  AddSymbol w line st = add_to_group loc st.
Proof.
  intros H. unfold AddSymbol. rewrite bind_run. unfold lift. now rewrite H.
Qed.

(** ** The store and [lastmodule] stay in step *)

Lemma alloc_lastmodule st b st' :
  alloc st = Some (b, st') → lastmodule st' = lastmodule st.
Proof.
  unfold alloc. destruct (heap st); intros [= <- <-]; reflexivity.
Qed.

Lemma coherent_snoc st ms m :
  sym_array_modules st = ms ++ [m] → lastmodule st = mod_name m →
  coherent st = true.
Proof.
  intros Hms Hl. unfold coherent. rewrite Hms, last_snoc.
  now apply bool_decide_eq_true.
Qed.

Lemma AddModule_None module st st' :
  AddModule module st = Some (None, st') →
  sym_array_modules st' = sym_array_modules st ∧
  lastmodule st' = lastmodule st.
Proof.
  unfold AddModule. intros H.
  apply bind_Some in H as (ok & st1 & Hal & H).
  pose proof (alloc_Some _ _ _ Hal) as E.
  pose proof (alloc_lastmodule _ _ _ Hal) as E'.
  destruct ok; simpl in H.
  - apply bind_Some in H as (n & st2 & Hn & H). inv_run Hn.
    apply bind_Some in H as (nm & st3 & Hnm & H). inv_run H. discriminate.
  - inv_run H. auto.
Qed.

(** [AddSymbol] keeps the store and [lastmodule] in step. *)
Lemma add_to_group_coherent loc st r st' :
  coherent st = true → add_to_group loc st = Some (r, st') →
  coherent st' = true.
Proof.
  intros Hco H. unfold add_to_group in H.
  apply bind_Some in H as (n & st1 & Hn & H). inv_run Hn.
  apply bind_Some in H as (lm & st2 & Hlm & H). inv_run Hlm.
  apply bind_Some in H as (mp & st3 & Hmp & H).
  destruct mp as [i|].
  - assert (Hi : ∃ ms m0, sym_array_modules st3 = ms ++ [m0] ∧ i = length ms).
    { destruct (new_group (num_modules st) (lastmodule st) (module_of loc))
        eqn:G.
      - apply AddModule_Some in Hmp as (-> & m0 & E).
        exists (sym_array_modules st), m0. auto.
      - inv_run Hmp. unfold new_group in G.
        destruct (num_modules st) as [|n] eqn:En; [discriminate G |].
        unfold num_modules in En.
        destruct (list_last_split (sym_array_modules st)) as (ms & m0 & E).
        { intros E. rewrite E in En. discriminate. }
        exists ms, m0. split; [exact E |].
        match goal with H : Some _ = Some _ |- _ => injection H as -> end.
        rewrite E, length_app in En. simpl in En. lia. }
    destruct Hi as (ms & m0 & Ems & ->).
    apply bind_Some in H as (ms' & st4 & Hms' & H). inv_run Hms'.
    apply bind_Some in H as (m & st5 & Hm & H). inv_run Hm.
    rewrite Ems, lookup_end in Hm. injection Hm as <-.
    apply bind_Some in H as ([] & st6 & Hlast & H). inv_run Hlast.
    apply bind_Some in H as (ok & st7 & Hal & H).
    pose proof (alloc_Some _ _ _ Hal) as E7.
    pose proof (alloc_lastmodule _ _ _ Hal) as L7. simpl in E7, L7.
    destruct ok; simpl in H.
    + apply bind_Some in H as ([] & st8 & Hup & H). inv_run Hup.
      apply bind_Some in H as (nm & st9 & Hnm & H). inv_run Hnm.
      apply bind_Some in H as (ok & st10 & Hal' & H).
      pose proof (alloc_Some _ _ _ Hal') as E10.
      pose proof (alloc_lastmodule _ _ _ Hal') as L10. simpl in E10, L10.
      destruct ok; simpl in H; inv_run H.
      * eapply coherent_snoc.
        -- simpl. rewrite E10. unfold update_module. simpl.
           rewrite E7, Ems, !alter_end. reflexivity.
        -- simpl. rewrite L10. simpl. exact L7.
      * eapply coherent_snoc.
        -- rewrite E10. unfold update_module. simpl.
           rewrite E7, Ems, !alter_end. reflexivity.
        -- rewrite L10. simpl. exact L7.
    + inv_run H. eapply coherent_snoc.
      * unfold update_module. simpl. rewrite E7, Ems, alter_end. reflexivity.
      * simpl. exact L7.
  - inv_run H.
    destruct (new_group (num_modules st) (lastmodule st) (module_of loc)).
    + apply AddModule_None in Hmp as [E L].
      unfold coherent in *. now rewrite E, L.
    + inv_run Hmp. discriminate.
Qed.

Lemma AddSymbol_coherent w line st r st' :
  coherent st = true → AddSymbol w line st = Some (r, st') →
  coherent st' = true.
Proof.
  intros Hco H. unfold AddSymbol in H. rewrite bind_run in H.
  unfold lift in H.
  destruct (scan_line w line) as [[loc|]|]; simpl in H;
    [| inv_run H; exact Hco | discriminate].
  eauto using add_to_group_coherent.
Qed.

Lemma read_line_coherent w n buf st st' :
  coherent st = true → read_line w n buf st = Some (tt, st') →
  coherent st' = true.
Proof.
  intros Hco H. unfold read_line in H.
  destruct ((0 <? n) && bool_decide (index buf 0 "[" = None));
    [inv_run H; exact Hco |].
  destruct (index buf 0 " "); [| inv_run H; exact Hco].
  apply bind_Some in H as (r & st1 & Hadd & H). inv_run H.
  eauto using AddSymbol_coherent.
Qed.

Lemma read_lines_coherent w n bufs st st' :
  coherent st = true → read_lines w n bufs st = Some (tt, st') →
  coherent st' = true.
Proof.
  revert st. induction bufs as [|buf bufs IH]; intros st Hco H; simpl in H.
  - inv_run H. exact Hco.
  - apply bind_Some in H as ([] & st1 & Hline & H).
    eauto using read_line_coherent.
Qed.

Lemma sort_module_name mp mp' :
  sort_module mp = Some mp' → mod_name mp' = mod_name mp.
Proof.
  unfold sort_module. intros H.
  destruct (num_syms mp <? 2)%nat; [now injection H as <- |].
  destruct (read_syms mp); [| discriminate].
  destruct (sym_array mp); [| discriminate].
  simpl in H. now injection H as <-.
Qed.

Lemma sort_modules_last ms ms' :
  mapM sort_module ms = Some ms' →
  mod_name <$> last ms' = mod_name <$> last ms.
Proof.
  intros H%mapM_Some. induction H as [|m m' ms ms' Hm Hms IH];
    [reflexivity |].
  destruct Hms as [|m2 m2' ms2 ms2' Hm2 Hms2].
  - simpl. f_equal. now apply sort_module_name.
  - exact IH.
Qed.

(** ** Beyond the terminator of a line *)

Lemma strchr_tail l r c : c ≠ NUL → strchr (l ++ NUL :: r) c = strchr l c.
Proof.
  intros Hc. induction l as [|a l IH]; simpl.
  - destruct (Ascii.eqb_spec NUL c) as [E|_]; [now symmetry in E |].
    reflexivity.
  - now rewrite IH.
Qed.

Lemma strchr_bound l c p : strchr l c = Some p → (p < length l)%nat.
Proof.
  revert p. induction l as [|a l IH]; intros p H; simpl in H; [discriminate |].
  destruct (Ascii.eqb a c); [injection H as <-; simpl; lia |].
  destruct (Ascii.eqb a NUL); [discriminate |].
  destruct (strchr l c) as [q|]; [| discriminate].
  injection H as <-. specialize (IH q eq_refl). simpl. lia.
Qed.

Lemma index_bound l from c p :
  index l from c = Some p → (from ≤ p < length l)%nat.
Proof.
  unfold index. destruct (strchr (drop from l) c) as [i|] eqn:E;
    [| discriminate].
  intros [= <-]. apply strchr_bound in E. rewrite length_drop in E. lia.
Qed.

Lemma index_tail l r from c :
  c ≠ NUL → (from ≤ length l)%nat →
  index (l ++ NUL :: r) from c = index l from c.
Proof.
  intros Hc Hf. unfold index.
  rewrite drop_app_le by exact Hf. now rewrite strchr_tail.
Qed.

Lemma cstring_tail l r : cstring (l ++ NUL :: r) = cstring l.
Proof.
  induction l as [|a l IH]; simpl; [reflexivity |].
  now rewrite IH.
Qed.

Lemma cstring_length l : (length (cstring l) ≤ length l)%nat.
Proof.
  induction l as [|a l IH]; simpl; [lia |].
  destruct (Ascii.eqb a NUL); simpl; lia.
Qed.

Lemma chomp_tail l r : chomp (l ++ NUL :: r) = chomp l ++ NUL :: r.
Proof.
  unfold chomp, strlen. rewrite cstring_tail.
  pose proof (cstring_length l) as Hl.
  destruct (decide (length (cstring l) - 1 < length l)%nat) as [Hlt|Hge].
  - rewrite lookup_app_l by exact Hlt.
    destruct (l !! (length (cstring l) - 1)%nat) as [c|]; [| reflexivity].
    destruct (Ascii.eqb c newline); [| reflexivity].
    now rewrite insert_app_l by exact Hlt.
  - assert (length l = 0)%nat by lia. destruct l; [| discriminate].
    reflexivity.
Qed.

Lemma back_over_space_app l x m :
  (m ≤ length l)%nat → back_over_space (l ++ x) m = back_over_space l m.
Proof.
  induction m as [|m IH]; intros Hm; [reflexivity |]. simpl.
  rewrite lookup_app_l by lia.
  destruct (l !! m) as [c|]; [| reflexivity]. simpl.
  destruct (isspace c); [apply IH; lia | reflexivity].
Qed.

Lemma back_over_space_bound l m p :
  back_over_space l m = Some p → (p < m)%nat.
Proof.
  induction m as [|m IH]; intros H; simpl in H; [discriminate |].
  destruct (l !! m) as [c|]; [| discriminate]. simpl in H.
  destruct (isspace c); [specialize (IH H); lia |].
  injection H as <-. lia.
Qed.

(** What lies beyond the terminator of the buffer takes no part in the
    scan of the line. *)
Lemma scan_line_tail w l r :
  scan_line w (l ++ NUL :: r)
  = option_map (option_map (beyond r)) (scan_line w l).
Proof.
  unfold scan_line.
  rewrite (index_tail l r 0 "[") by (discriminate || lia).
  destruct (index l 0 "[") as [m|] eqn:Hm.
  - pose proof (index_bound _ _ _ _ Hm) as Bm.
    rewrite (index_tail l r m "]") by (discriminate || lia).
    set (l1 := match index l m "]" with
               | Some p => <[p := NUL]> l
               | None => l
               end).
    assert (E1 : match index l m "]" with
                 | Some p => <[p := NUL]> (l ++ NUL :: r)
                 | None => l ++ NUL :: r
                 end = l1 ++ NUL :: r).
    { unfold l1. destruct (index l m "]") as [p|] eqn:Hp; [| reflexivity].
      apply index_bound in Hp. now rewrite insert_app_l by lia. }
    rewrite E1.
    assert (L1 : length l1 = length l).
    { unfold l1. destruct (index l m "]"); [apply length_insert |].
      reflexivity. }
    rewrite back_over_space_app by lia.
    destruct (back_over_space l1 m) as [p|] eqn:Hp; [| reflexivity].
    apply back_over_space_bound in Hp. cbn [mbind option_bind].
    rewrite insert_app_l by lia.
    rewrite (index_tail _ r 0 " ") by (discriminate || lia).
    destruct (index (<[S p := NUL]> l1) 0 " ") as [q|] eqn:Hq;
      [| reflexivity].
    apply index_bound in Hq. rewrite !length_insert in Hq.
    rewrite insert_app_l by (rewrite length_insert; lia).
    rewrite cstring_tail. reflexivity.
  - cbn [mbind option_bind].
    rewrite (index_tail l r 0 " ") by (discriminate || lia).
    destruct (index l 0 " ") as [q|] eqn:Hq; [| reflexivity].
    apply index_bound in Hq. rewrite insert_app_l by lia.
    rewrite cstring_tail. reflexivity.
Qed.

Lemma scan_line_module_bound w l loc m :
  scan_line w l = Some (Some loc) → l_module loc = Some m →
  (m ≤ length (l_line loc))%nat.
Proof.
  unfold scan_line. intros H Hm.
  destruct (index l 0 "[") as [k|] eqn:Hk.
  - apply index_bound in Hk.
    destruct (back_over_space _ k) as [p|]; [| discriminate].
    cbn [mbind option_bind] in H.
    destruct (index _ 0 " ") as [q|]; [| discriminate].
    injection H as <-. simpl in *. injection Hm as <-.
    rewrite !length_insert.
    destruct (index l k "]"); rewrite ?length_insert; lia.
  - cbn [mbind option_bind] in H.
    destruct (index l 0 " ") as [q|]; [| discriminate].
    injection H as <-. discriminate.
Qed.

Lemma string_at_tail l r p nm :
  string_at l p = Some nm → string_at (l ++ NUL :: r) p = Some nm.
Proof.
  unfold string_at. rewrite length_app. simpl.
  destruct (Nat.leb_spec p (length l)) as [Hp|]; [| discriminate].
  intros [= <-].
  destruct (Nat.leb_spec p (length l + S (length r))); [| lia].
  now rewrite drop_app_le, cstring_tail by exact Hp.
Qed.

(** [add_to_group] takes from the record the module name, the address
    and the name. *)
Lemma add_to_group_ext loc loc' st :
  module_of loc = module_of loc' → l_address loc = l_address loc' →
  string_at (l_line loc) (l_p loc) = string_at (l_line loc') (l_p loc') →
  add_to_group loc st = add_to_group loc' st.
Proof.
  intros H1 H2 H3. unfold add_to_group. now rewrite H1, H2, H3.
Qed.

Lemma string_at_beyond l r k :
  string_at (l ++ NUL :: r) (S (length l) + k) = string_at r k.
Proof.
  unfold string_at. rewrite length_app. cbn [length].
  destruct (Nat.leb_spec k (length r)).
  - rewrite (proj2 (Nat.leb_le _ _)) by lia.
    rewrite drop_app_ge by lia.
    now replace (S (length l) + k - length l)%nat with (S k) by lia.
  - now rewrite (proj2 (Nat.leb_gt _ _)) by lia.
Qed.

Lemma scan_line_length w l loc :
  scan_line w l = Some (Some loc) → length (l_line loc) = length l.
Proof.
  unfold scan_line. intros H.
  destruct (index l 0 "[") as [k|].
  - destruct (back_over_space _ k) as [p|]; [| discriminate].
    cbn [mbind option_bind] in H.
    destruct (index _ 0 " ") as [q|]; [| discriminate].
    injection H as <-. simpl. rewrite !length_insert.
    destruct (index l k "]"); rewrite ?length_insert; reflexivity.
  - cbn [mbind option_bind] in H.
    destruct (index l 0 " ") as [q|]; [| discriminate].
    injection H as <-. simpl. apply length_insert.
Qed.

(** A piece whose name lies within it is read the same over what an
    earlier line left. *)
Lemma read_line_within w n piece r st :
  within w piece →
  read_line w n (piece ++ NUL :: r) st = read_line w n piece st.
Proof.
  intros Hw. unfold read_line.
  rewrite !(index_tail piece r 0) by (discriminate || lia).
  destruct ((0 <? n) && bool_decide (index piece 0 "[" = None));
    [reflexivity |].
  destruct (index piece 0 " "); [| reflexivity].
  rewrite !bind_run, chomp_tail. unfold AddSymbol. rewrite !bind_run.
  unfold lift. rewrite scan_line_tail.
  destruct (scan_line w (chomp piece)) as [[loc|]|] eqn:Hscan;
    [| reflexivity | reflexivity].
  simpl.
  pose proof (Hw loc Hscan) as Hp.
  pose proof (scan_line_length _ _ _ Hscan) as Hl.
  rewrite chomp_length in Hl.
  rewrite (add_to_group_ext (beyond r loc) loc); [reflexivity | | |].
  - unfold module_of, beyond. simpl.
    destruct (l_module loc) as [m|] eqn:Hm; [| reflexivity]. simpl.
    pose proof (scan_line_module_bound _ _ _ _ Hscan Hm).
    now rewrite drop_app_le, cstring_tail by lia.
  - reflexivity.
  - simpl.
    destruct (string_at (l_line loc) (l_p loc)) as [nm|] eqn:Hnm;
      [now apply string_at_tail |].
    unfold string_at in Hnm.
    destruct (Nat.leb_spec (l_p loc) (length (l_line loc)));
      [discriminate | lia].
Qed.

Lemma read_line_beyond w n buf r loc nm st :
  scan_line w (chomp buf) = Some (Some loc) →
  string_at (l_line loc) (l_p loc) = Some nm →
  read_line w n (buf ++ NUL :: r) st = read_line w n buf st.
Proof.
  intros Hscan Hnm. apply read_line_within. intros loc' Hloc'.
  rewrite Hscan in Hloc'. injection Hloc' as <-.
  rewrite <- (chomp_length buf), <- (scan_line_length _ _ _ Hscan).
  unfold string_at in Hnm.
  destruct (Nat.leb_spec (l_p loc) (length (l_line loc)));
    [assumption | discriminate].
Qed.

Lemma fgets_into_shape old piece :
  fgets_into old piece = piece ∨
  ∃ r, fgets_into old piece = piece ++ NUL :: r.
Proof.
  unfold fgets_into. destruct (length old <=? length piece)%nat; eauto.
Qed.

(** * The claims *)

(** ** Loading *)

(** C1. The claim is that a load in which an allocation fails reports
    failure. The code drops what [AddSymbol] returns: on a file of one
    line [InitMsyms] returns 1 whichever of the four allocations the line
    needs is refused (the module array, the module name, the symbol array,
    the symbol name). *)
Theorem InitMsyms_drops_allocation_failure :
  fst <$> InitMsyms 64 0 (Some one_line) (set_heap [false] empty_state)
    = Some 1 ∧
  fst <$> InitMsyms 64 0 (Some one_line) (set_heap [true; false] empty_state)
    = Some 1 ∧
  fst <$> InitMsyms 64 0 (Some one_line)
            (set_heap [true; true; false] empty_state)
    = Some 1 ∧
  fst <$> InitMsyms 64 0 (Some one_line)
            (set_heap [true; true; true; false] empty_state)
    = Some 1.
Proof. repeat split; vm_compute; reflexivity. Qed.

(** C2. The claim is that after any load every module's count is the
    number of live entries of its array. When [realloc] refuses to grow
    the array for a second symbol, [AddSymbol] has already stored NULL in
    [sym_array] and leaves [num_syms] at 1: the load ends with a module
    that counts one symbol and has no array. [FreeModules] cannot free
    that store, and neither can the next load, which starts by freeing. *)
Theorem InitMsyms_leaves_count_without_array :
  InitMsyms 64 0 (Some two_lines)
    (set_heap [true; true; true; false] empty_state)
    = Some (1, loaded dangling_store) ∧
  forallb consistent dangling_store = false ∧
  FreeModules (loaded dangling_store) = None ∧
  InitMsyms 64 0 (Some two_lines) (loaded dangling_store) = None.
Proof. repeat split; vm_compute; reflexivity. Qed.

(** C5. In every store a completed load leaves, every module has its
    symbols in ascending order of address: for each valid adjacent pair
    of indices the first address is at most the second. *)
Theorem InitMsyms_sorted w static_syms ksyms st r st' :
  InitMsyms w static_syms ksyms st = Some (r, st') →
  Forall sorted_module (sym_array_modules st').
Proof.
  unfold InitMsyms. intros H.
  apply bind_Some in H as ([] & st1 & Hfree & H).
  apply FreeModules_modules in Hfree.
  destruct ksyms as [s|].
  - apply bind_Some in H as ([] & st2 & _ & H).
    inv_run H. simpl.
    match goal with Hs : mapM sort_module _ = Some _ |- _ =>
      apply mapM_Some in Hs;
      induction Hs; constructor; eauto using sort_module_sorted
    end.
  - inv_run H. rewrite Hfree. constructor.
Qed.

Lemma InitMsyms_sorted_witness :
  InitMsyms 64 0 (Some unsorted_lines) empty_state
    = Some (1, loaded sorted_store) ∧
  Forall sorted_module sorted_store.
Proof.
  assert (H : InitMsyms 64 0 (Some unsorted_lines) empty_state
              = Some (1, loaded sorted_store)) by (vm_compute; reflexivity).
  split; [exact H |].
  exact (InitMsyms_sorted 64 0 (Some unsorted_lines) empty_state 1
           (loaded sorted_store) H).
Defined.

(** ** Lines *)




(** C7. A record joins the most recent module exactly when there is one
    and the record's module name and the last one seen are both absent, or
    both present and equal; in every other case a new module of the
    record's name, holding the one symbol, is appended and is the one its
    name is remembered of. Allocations are taken to be granted. The three
    lines of [three_lines], read with a static symbol count of zero, give
    the module m with f1 and f2 and an anonymous module with g1. *)
Theorem AddSymbol_grouping :
  (∀ st module,
     same_group st module = true ↔
     sym_array_modules st ≠ [] ∧
     ((lastmodule st = None ∧ module = None) ∨
      ∃ n, lastmodule st = Some n ∧ module = Some n)) ∧
  (∀ w line loc nm st,
     scan_line w line = Some (Some loc) →
     string_at (l_line loc) (l_p loc) = Some nm →
     heap st = [] →
     let s := {| value := l_address loc; name := string_of_list_ascii nm |} in
     ∃ st', AddSymbol w line st = Some (1, st') ∧
       if same_group st (module_of loc)
       then ∃ ms mp, sym_array_modules st = ms ++ [mp] ∧
              sym_array_modules st' = ms ++ [append_symbol s mp] ∧
              lastmodule st' = mod_name mp
       else sym_array_modules st' =
              sym_array_modules st ++ [mk_module (module_of loc) [s]] ∧
            lastmodule st' = module_of loc) ∧
  (∀ w st, w = 32 ∨ w = 64 → sym_array_modules st = [] → heap st = [] →
     ∃ st', InitMsyms w 0 (Some three_lines) st = Some (1, st') ∧
       sym_array_modules st' =
         [mk_module (Some "m"%string) [sym 0x1000 "f1"; sym 0x1010 "f2"];
          mk_module None [sym 0x2000 "g1"]]).
Proof.
  split; [exact same_group_spec |]. split.
  - intros w line loc nm st Hscan Hnm Hheap s.
    destruct (add_to_group_granted loc st nm Hheap Hnm)
      as (st' & Hrun & _ & H).
    exists st'. split; [| exact H].
    now rewrite (AddSymbol_scanned _ _ _ _ Hscan).
  - intros w [ms hm lm r h] Hw Hms Hh. simpl in Hms, Hh. subst ms h.
    destruct Hw as [-> | ->]; eexists; split; vm_compute; reflexivity.
Qed.

Lemma AddSymbol_grouping_witness :
  (same_group (loaded twin_store) (Some "m2"%string) = true) ∧
  (∃ st', AddSymbol 64 (list_ascii_of_string "1010 T f2 [m]")
            (loaded [mk_module (Some "m"%string) [sym 0x1000 "f1"]])
          = Some (1, st')) ∧
  (∃ st', InitMsyms 64 0 (Some three_lines) empty_state = Some (1, st') ∧
       sym_array_modules st' =
         [mk_module (Some "m"%string) [sym 0x1000 "f1"; sym 0x1010 "f2"];
          mk_module None [sym 0x2000 "g1"]]).
Proof.
  destruct AddSymbol_grouping as (H1 & H2 & H3).
  split; [| split].
  - vm_compute. reflexivity.
  - edestruct H2 with (w := 64)
      (line := list_ascii_of_string "1010 T f2 [m]")
      (st := loaded [mk_module (Some "m"%string) [sym 0x1000 "f1"]])
      as (st' & Hrun & _);
      [vm_compute; reflexivity | vm_compute; reflexivity | reflexivity |].
    exists st'. exact Hrun.
  - apply (H3 64 empty_state); [right; reflexivity | reflexivity | reflexivity].
Defined.




(** ** Resolving an address *)

(** C8. When no module of the store supplies a candidate for the address,
    an empty store included, [LookupModuleSymbol] returns NULL and leaves
    0 in both [size] and [offset]; the state is as it was. *)
Theorem LookupModuleSymbol_not_found w fty v st :
  forallb (no_candidate v) (sym_array_modules st) = true →
  LookupModuleSymbol w fty v st
  = Some ((None, {| size := 0; offset := 0 |}), st).
Proof.
  intros H. unfold LookupModuleSymbol.
  destruct (num_modules st =? 0)%nat; [reflexivity |].
  rewrite module_loop_none by exact H. simpl.
  now rewrite state_eta.
Qed.

Lemma LookupModuleSymbol_not_found_witness :
  LookupModuleSymbol 64 c_int 0x1050 empty_state
    = Some ((None, {| size := 0; offset := 0 |}), empty_state) ∧
  LookupModuleSymbol 64 c_int 0x1100 (store_m empty_state)
    = Some ((None, {| size := 0; offset := 0 |}), store_m empty_state).
Proof.
  split.
  - apply (LookupModuleSymbol_not_found 64 c_int 0x1050 empty_state).
    reflexivity.
  - apply (LookupModuleSymbol_not_found 64 c_int 0x1100
             (store_m empty_state)).
    vm_compute. reflexivity.
Defined.

(** C3, amended. In a store of the one module m with the symbols A at
    0x1000 and B at 0x1100, the address 0x1050 resolves to the label m:A,
    offset 0x50 and size 0x100. In general a label that is returned is
    made for a pair of adjacent symbols at which the loop of some module
    stopped: it is the module's name, a colon and the first symbol's
    name, or that name alone for a module without a name, cut to its
    first 98 bytes; it is the whole text when that is at most 98 bytes
    long. *)
Theorem LookupModuleSymbol_label :
  (∀ w fty st,
     0x1100 < 2 ^ w → 0x100 < 2 ^ (ct_bits fty - 1) →
     LookupModuleSymbol w fty 0x1050 (store_m st)
     = Some ((Some "m:A"%string, {| size := 0x100; offset := 0x50 |}),
             set_ret "m:A" (store_m st))) ∧
  (∀ w fty v st label sy st',
     LookupModuleSymbol w fty v st = Some ((Some label, sy), st') →
     ∃ mp nsym last next,
       mp ∈ sym_array_modules st ∧ stops_at v mp nsym last next ∧
       label = substring 0 98 (full_label (mod_name mp) (name last)) ∧
       sy = {| size := convert fty (cand_size w last next);
               offset := convert fty (cand_offset w v last) |}) ∧
  (∀ module_name sym_name,
     (String.length (full_label module_name sym_name) ≤ 98)%nat →
     snprintf_ret module_name sym_name = full_label module_name sym_name).
Proof.
  split; [| split].
  - intros w fty st Hw Hf.
    assert (Ho : cand_offset w 0x1050 (sym 0x1000 "A") = 0x50).
    { unfold cand_offset. simpl. apply wrap_small. lia. }
    assert (Hs : cand_size w (sym 0x1000 "A") (sym 0x1100 "B") = 0x100).
    { unfold cand_size. simpl. apply wrap_small. lia. }
    rewrite (lookup_best w fty 0x1050 (store_m st) []
               (mk_module (Some "m"%string) [sym 0x1000 "A"; sym 0x1100 "B"])
               [] (sym 0x1000 "A") (sym 0x1100 "B"));
      rewrite ?Ho, ?Hs; try reflexivity.
    + rewrite !convert_small by lia. reflexivity.
    + apply fits_small; lia.
    + apply fits_small; lia.
    + rewrite convert_small by lia. lia.
  - intros w fty v st label sy st' H. unfold LookupModuleSymbol in H.
    destruct (num_modules st =? 0)%nat; [discriminate |].
    destruct (module_loop w fty v (sym_array_modules st)
                ({| size := 0; offset := 0 |}, ret st))
      as [[sy' r]|] eqn:E; [| discriminate].
    simpl in H.
    destruct (Z.ltb_spec 0 (size sy')) as [Hpos|]; [| discriminate].
    injection H as <- <- <-.
    apply module_loop_inv in E as [E | (mp & n & l & x & Hin & Hst & E)].
    + injection E as -> ->. simpl in Hpos. lia.
    + injection E as -> ->. exists mp, n, l, x. auto.
  - intros mn sn H. unfold snprintf_ret. now apply substring_all.
Qed.

Lemma LookupModuleSymbol_label_witness :
  LookupModuleSymbol 64 c_int 0x1050 (store_m empty_state)
    = Some ((Some "m:A"%string, {| size := 0x100; offset := 0x50 |}),
            set_ret "m:A" (store_m empty_state)) ∧
  (∃ mp nsym last next,
     mp ∈ sym_array_modules (store_m empty_state) ∧
     stops_at 0x1050 mp nsym last next ∧
     "m:A"%string = substring 0 98 (full_label (mod_name mp) (name last)) ∧
     {| size := 0x100; offset := 0x50 |}
     = {| size := convert c_int (cand_size 64 last next);
          offset := convert c_int (cand_offset 64 0x1050 last) |}) ∧
  snprintf_ret (Some "m"%string) "A" = full_label (Some "m"%string) "A".
Proof.
  destruct LookupModuleSymbol_label as (H1 & H2 & H3).
  assert (E : LookupModuleSymbol 64 c_int 0x1050 (store_m empty_state)
    = Some ((Some "m:A"%string, {| size := 0x100; offset := 0x50 |}),
            set_ret "m:A" (store_m empty_state))).
  { apply H1; vm_compute; reflexivity. }
  split; [exact E |]. split.
  - exact (H2 64 c_int 0x1050 _ _ _ _ E).
  - apply H3. vm_compute. lia.
Defined.

(** C3 as stated fails for a symbol whose name is a hundred bytes long:
    the label returned for it is its first 98 bytes. *)
Lemma label_cut_at_98 :
  InitMsyms 64 0 (Some long_lines) empty_state = Some (1, loaded long_store) ∧
  fst <$> LookupModuleSymbol 64 c_int 0x1050 (loaded long_store)
    = Some (Some (substring 0 98 long_name),
            {| size := 0x100; offset := 0x50 |}) ∧
  substring 0 98 long_name ≠ full_label None long_name.
Proof.
  split; [vm_compute; reflexivity |].
  split; [vm_compute; reflexivity |].
  vm_compute. discriminate.
Qed.

(** C4, amended. A candidate replaces what [*sym] holds exactly when
    [size] there is 0, or the candidate's offset is smaller than the one
    held, or the offsets are equal and its size is smaller than the one
    held. Hence, when two modules of the store supply candidates of one
    offset and of different sizes, and no other module supplies any, the
    label returned is that of the smaller candidate, provided the offset
    and both sizes are held unchanged by the fields of [*sym] and both
    sizes are stored as positive numbers. *)
Theorem LookupModuleSymbol_tie_break :
  (∀ w fty v mp last next acc,
     let o := cand_offset w v last in
     let s := cand_size w last next in
     let unset_or_better :=
       size acc.1 = 0 ∨ o < wrap w (offset acc.1) ∨
       (wrap w (offset acc.1) = o ∧ s < wrap w (size acc.1)) in
     (unset_or_better ∧
      take_candidate w fty v mp last next acc = taken w fty v mp last next) ∨
     (¬ unset_or_better ∧ take_candidate w fty v mp last next acc = acc)) ∧
  (∀ w fty v st pre m1 mid m2 post l1 x1 l2 x2,
     sym_array_modules st = pre ++ m1 :: mid ++ m2 :: post →
     forallb (no_candidate v) (pre ++ mid ++ post) = true →
     candidate v m1 = Some (Some (l1, x1)) →
     candidate v m2 = Some (Some (l2, x2)) →
     cand_offset w v l1 = cand_offset w v l2 →
     cand_size w l1 x1 ≠ cand_size w l2 x2 →
     fits w fty (cand_offset w v l1) = true →
     fits w fty (cand_size w l1 x1) = true →
     fits w fty (cand_size w l2 x2) = true →
     0 < convert fty (cand_size w l1 x1) →
     0 < convert fty (cand_size w l2 x2) →
     fst <$> LookupModuleSymbol w fty v st
     = Some (if cand_size w l1 x1 <? cand_size w l2 x2
             then (Some (snprintf_ret (mod_name m1) (name l1)),
                   {| size := convert fty (cand_size w l1 x1);
                      offset := convert fty (cand_offset w v l1) |})
             else (Some (snprintf_ret (mod_name m2) (name l2)),
                   {| size := convert fty (cand_size w l2 x2);
                      offset := convert fty (cand_offset w v l2) |}))).
Proof.
  split.
  - intros w fty v mp last next acc o s P. unfold take_candidate. fold o s.
    destruct (replaces w acc.1 o s) eqn:E.
    + left. split; [now apply replaces_spec | reflexivity].
    + right. split; [| reflexivity].
      intros H%replaces_spec. congruence.
  - intros w fty v st pre m1 mid m2 post l1 x1 l2 x2 Hms Hnone Hc1 Hc2
      Ho Hne Hfo Hf1 Hf2 Hp1 Hp2.
    rewrite !forallb_app in Hnone.
    apply andb_prop in Hnone as [Hpre Hnone].
    apply andb_prop in Hnone as [Hmid Hpost].
    destruct (Z.ltb_spec (cand_size w l1 x1) (cand_size w l2 x2)) as [Hlt|Hge].
    + rewrite (lookup_best w fty v st pre m1 (mid ++ m2 :: post) l1 x1);
        try assumption; [reflexivity | |].
      * eapply forallb_impl; [| exact Hpre].
        intros m. apply no_candidate_gives_way.
      * rewrite forallb_app. apply andb_true_intro. split.
        { eapply forallb_impl; [| exact Hmid].
          intros m. apply no_candidate_not_better. }
        simpl. apply andb_true_intro. split.
        { unfold not_better. rewrite Hc2. unfold better. rewrite <- Ho.
          rewrite Z.ltb_irrefl, Z.eqb_refl. simpl.
          apply negb_true_iff, Z.ltb_ge. lia. }
        eapply forallb_impl; [| exact Hpost].
        intros m. apply no_candidate_not_better.
    + rewrite (lookup_best w fty v st (pre ++ m1 :: mid) m2 post l2 x2);
        try assumption.
      * reflexivity.
      * rewrite Hms. now rewrite <- app_assoc.
      * now rewrite <- Ho.
      * rewrite forallb_app. apply andb_true_intro. split.
        { eapply forallb_impl; [| exact Hpre].
          intros m. apply no_candidate_gives_way. }
        simpl. apply andb_true_intro. split.
        { unfold gives_way. rewrite Hc1, Hfo, Hf1. simpl.
          unfold better. rewrite <- Ho. rewrite Z.ltb_irrefl, Z.eqb_refl.
          simpl. apply Z.ltb_lt. lia. }
        eapply forallb_impl; [| exact Hmid].
        intros m. apply no_candidate_gives_way.
      * eapply forallb_impl; [| exact Hpost].
        intros m. apply no_candidate_not_better.
Qed.

Lemma LookupModuleSymbol_tie_break_witness :
  ((0 = 0 ∨ 0x50 < wrap 64 0 ∨ (wrap 64 0 = 0x50 ∧ 0x100 < wrap 64 0)) ∧
   take_candidate 64 c_int 0x1050
     (mk_module (Some "m"%string) [sym 0x1000 "A"; sym 0x1100 "B"])
     (sym 0x1000 "A") (sym 0x1100 "B")
     ({| size := 0; offset := 0 |}, ""%string)
   = ({| size := 0x100; offset := 0x50 |}, "m:A"%string)) ∧
  fst <$> LookupModuleSymbol 64 c_int 0x1800 (loaded nested_store)
  = Some (Some "small:C"%string, {| size := 0x1000; offset := 0x800 |}).
Proof.
  destruct LookupModuleSymbol_tie_break as [H1 H2]. split.
  - destruct (H1 64 c_int 0x1050
      (mk_module (Some "m"%string) [sym 0x1000 "A"; sym 0x1100 "B"])
      (sym 0x1000 "A") (sym 0x1100 "B")
      ({| size := 0; offset := 0 |}, ""%string)) as [H | [H _]].
    + exact H.
    + exfalso. apply H. left. reflexivity.
  - exact (H2 64 c_int 0x1800 (loaded nested_store) []
      (mk_module (Some "big"%string) [sym 0x1000 "A"; sym 0x3000 "B"])
      [mk_module None [sym 0x500 "x"]]
      (mk_module (Some "small"%string) [sym 0x1000 "C"; sym 0x2000 "D"]) []
      (sym 0x1000 "A") (sym 0x3000 "B") (sym 0x1000 "C") (sym 0x2000 "D")
      eq_refl eq_refl eq_refl eq_refl eq_refl
      ltac:(vm_compute; discriminate)
      eq_refl eq_refl eq_refl eq_refl eq_refl).
Defined.

(** C4 as stated fails when the smaller of the two sizes is 0. The modules
    m1 and m2 both start at 0x2000, above the address 0x1000; the
    candidate of m1 has size 0, that of m2 the same offset and size
    0x1000, and the label returned is that of m2. *)
Lemma tie_break_size_zero :
  InitMsyms 64 0 (Some twin_lines) empty_state = Some (1, loaded twin_store) ∧
  candidate 0x1000
    (mk_module (Some "m1"%string) [sym 0x2000 "A"; sym 0x2000 "B"])
    = Some (Some (sym 0x2000 "A", sym 0x2000 "B")) ∧
  candidate 0x1000
    (mk_module (Some "m2"%string) [sym 0x2000 "C"; sym 0x3000 "D"])
    = Some (Some (sym 0x2000 "C", sym 0x3000 "D")) ∧
  cand_offset 64 0x1000 (sym 0x2000 "A")
    = cand_offset 64 0x1000 (sym 0x2000 "C") ∧
  cand_size 64 (sym 0x2000 "A") (sym 0x2000 "B") = 0 ∧
  cand_size 64 (sym 0x2000 "C") (sym 0x3000 "D") = 0x1000 ∧
  fst <$> LookupModuleSymbol 64 c_int 0x1000 (loaded twin_store)
    = Some (Some "m2:C"%string, {| size := 0x1000; offset := -0x1000 |}) ∧
  fst <$> LookupModuleSymbol 64 (unsigned_long 64) 0x1000 (loaded twin_store)
    = Some (Some "m2:C"%string,
            {| size := 0x1000; offset := 2 ^ 64 - 0x1000 |}).
Proof. repeat split; vm_compute; reflexivity. Qed.

(** C10, amended. When the address lies below the first two symbols of a
    module, the loop of that module stops at index 1 and takes the first
    symbol for the one before the address: the offset is the difference
    of the address and the first symbol's address, wrapped modulo
    [2 ^ w]. When in addition the distance of the two symbols is stored
    as a positive size, offset and size are held unchanged by the fields
    of [*sym], every module searched before has no candidate or a worse
    one, and no module searched after has a better one, the label
    returned is that of the first symbol. *)
Theorem LookupModuleSymbol_below_first w fty v st pre mp post a b rest :
  sym_array_modules st = pre ++ mp :: post →
  read_syms mp = Some (a :: b :: rest) →
  v < value a → v < value b →
  fits w fty (cand_offset w v a) = true →
  fits w fty (cand_size w a b) = true →
  0 < convert fty (cand_size w a b) →
  forallb (gives_way w fty v (cand_offset w v a) (cand_size w a b)) pre
    = true →
  forallb (not_better w v (cand_offset w v a) (cand_size w a b)) post
    = true →
  LookupModuleSymbol w fty v st
  = Some ((Some (snprintf_ret (mod_name mp) (name a)),
           {| size := convert fty (wrap w (value b - value a));
              offset := convert fty (wrap w (v - value a)) |}),
          set_ret (snprintf_ret (mod_name mp) (name a)) st) ∧
  (0 <= v → value a < 2 ^ w → wrap w (v - value a) = 2 ^ w - (value a - v)).
Proof.
  intros Hms Hr Ha Hb Hfo Hfs Hpos Hpre Hpost. split.
  - apply (lookup_best w fty v st pre mp post a b); try assumption.
    now apply (candidate_first v mp a b rest).
  - intros Hv Hw. unfold wrap.
    replace (v - value a) with ((2 ^ w - (value a - v)) + (-1) * 2 ^ w)
      by lia.
    rewrite Z.mod_add by lia. apply Z.mod_small. lia.
Qed.

Lemma LookupModuleSymbol_below_first_witness :
  LookupModuleSymbol 64 c_int 0x1000 (loaded low_store)
  = Some ((Some "m:A"%string, {| size := 0x1000; offset := -0x1000 |}),
          set_ret "m:A" (loaded low_store)) ∧
  wrap 64 (0x1000 - 0x2000) = 2 ^ 64 - (0x2000 - 0x1000).
Proof.
  destruct (LookupModuleSymbol_below_first 64 c_int 0x1000 (loaded low_store)
    [] (mk_module (Some "m"%string) [sym 0x2000 "A"; sym 0x3000 "B"]) []
    (sym 0x2000 "A") (sym 0x3000 "B") []
    eq_refl eq_refl eq_refl eq_refl eq_refl eq_refl eq_refl eq_refl eq_refl)
    as [H1 H2].
  split; [exact H1 |].
  apply H2; [discriminate | reflexivity].
Defined.

(** C10 as stated fails when the first two symbols of the module share
    an address: the candidate has size 0 and the address is not resolved. *)
Lemma below_first_equal_addresses :
  InitMsyms 64 0 (Some flat_lines) empty_state
    = Some (1, loaded flat_store) ∧
  fst <$> LookupModuleSymbol 64 c_int 0x1000 (loaded flat_store)
    = Some (None, {| size := 0; offset := -0x1000 |}) ∧
  fst <$> LookupModuleSymbol 64 (unsigned_long 64) 0x1000 (loaded flat_store)
    = Some (None, {| size := 0; offset := 2 ^ 64 - 0x1000 |}).
Proof. repeat split; vm_compute; reflexivity. Qed.

(** * Further properties *)

(** X1. Whenever the file opens and the run ends, [InitMsyms] returns 1,
    whatever the allocator did. *)
Lemma InitMsyms_returns_1 w static_syms s st r st' :
  InitMsyms w static_syms (Some s) st = Some (r, st') → r = 1.
Proof.
  unfold InitMsyms. intros H.
  apply bind_Some in H as ([] & st1 & _ & H).
  apply bind_Some in H as ([] & st2 & _ & H).
  inv_run H. reflexivity.
Qed.

Lemma InitMsyms_returns_1_witness :
  InitMsyms 64 0 (Some one_line) (set_heap [false] empty_state)
    = Some (1, loaded []) ∧ 1 = 1.
Proof.
  assert (H : InitMsyms 64 0 (Some one_line) (set_heap [false] empty_state)
              = Some (1, loaded [])) by (vm_compute; reflexivity).
  split; [exact H |].
  exact (InitMsyms_returns_1 64 0 one_line _ 1 _ H).
Defined.

(** X2. After a load that leaves modules in the store, [lastmodule] is
    the name of the last of them. *)
Theorem InitMsyms_coherent w n ksyms st r st' mp :
  InitMsyms w n ksyms st = Some (r, st') →
  last (sym_array_modules st') = Some mp →
  lastmodule st' = mod_name mp.
Proof.
  unfold InitMsyms. intros H Hlast.
  apply bind_Some in H as ([] & st1 & Hfree & H).
  apply FreeModules_modules in Hfree.
  assert (Hco : coherent st1 = true) by (unfold coherent; now rewrite Hfree).
  destruct ksyms as [s|];
    [| inv_run H; unfold coherent in Hco; rewrite Hlast in Hco;
       now apply bool_decide_eq_true in Hco].
  apply bind_Some in H as ([] & st2 & Hread & H).
  apply (read_lines_coherent _ _ _ _ _ Hco) in Hread.
  inv_run H. simpl in Hlast.
  match goal with Hs : mapM sort_module _ = Some ?k |- _ =>
    apply sort_modules_last in Hs; rewrite Hlast in Hs;
    unfold coherent in Hread; simpl in *;
    destruct (last (sym_array_modules st2)) as [m|];
    simpl in Hs; [injection Hs as Hs | discriminate]
  end.
  apply bool_decide_eq_true in Hread. congruence.
Qed.

Lemma InitMsyms_coherent_witness :
  InitMsyms 64 0 (Some one_line) empty_state
    = Some (1, loaded [mk_module (Some "m"%string) [sym 0x1000 "f1"]]) ∧
  lastmodule (loaded [mk_module (Some "m"%string) [sym 0x1000 "f1"]])
    = Some "m"%string.
Proof.
  assert (H : InitMsyms 64 0 (Some one_line) empty_state
              = Some (1, loaded [mk_module (Some "m"%string)
                                   [sym 0x1000 "f1"]]))
    by (vm_compute; reflexivity).
  split; [exact H |].
  exact (InitMsyms_coherent 64 0 (Some one_line) empty_state 1 _
           (mk_module (Some "m"%string) [sym 0x1000 "f1"]) H eq_refl).
Defined.

(** X3. Sorting keeps the symbols of a module: the same ones, reordered. *)
Lemma sort_module_perm mp mp' syms :
  sort_module mp = Some mp' → read_syms mp = Some syms →
  ∃ syms', read_syms mp' = Some syms' ∧ Permutation syms' syms.
Proof.
  unfold sort_module. intros H Hr.
  destruct (Nat.ltb_spec (num_syms mp) 2) as [Hlt|Hge].
  - injection H as <-. eauto.
  - rewrite Hr in H. simpl in H.
    destruct (sym_array mp) as [arr|] eqn:Ha; [| discriminate].
    simpl in H. injection H as <-.
    exists (qsort symsort syms). split; [| apply qsort_perm].
    pose proof (read_syms_length _ _ Hr) as Hlen.
    unfold read_syms. simpl. rewrite length_app, length_fmap, qsort_length.
    replace (num_syms mp <=? length syms + length (drop (num_syms mp) arr))%nat
      with true by (symmetry; apply Nat.leb_le; lia).
    rewrite take_app_length' by (now rewrite length_fmap, qsort_length).
    apply mapM_Some. apply Forall2_fmap_l, Forall_Forall2_diag.
    now apply Forall_forall.
Qed.

Lemma sort_module_perm_witness :
  sort_module (mk_module None [sym 0x5000 "y"; sym 0x4000 "x"])
    = Some (mk_module None [sym 0x4000 "x"; sym 0x5000 "y"]) ∧
  ∃ syms',
    read_syms (mk_module None [sym 0x4000 "x"; sym 0x5000 "y"])
      = Some syms' ∧
    Permutation syms' [sym 0x5000 "y"; sym 0x4000 "x"].
Proof.
  split; [reflexivity |].
  exact (sort_module_perm
           (mk_module None [sym 0x5000 "y"; sym 0x4000 "x"])
           (mk_module None [sym 0x4000 "x"; sym 0x5000 "y"])
           [sym 0x5000 "y"; sym 0x4000 "x"] eq_refl eq_refl).
Defined.

(** ** Loads in which every allocation is granted *)

(** With every allocation granted, a name that cannot be read ends the
    run. *)
Lemma add_to_group_unread loc st :
  heap st = [] → string_at (l_line loc) (l_p loc) = None →
  add_to_group loc st = None.
Proof.
  intros Hheap Hnm. unfold add_to_group.
  unfold mbind at 1 2, M_bind, gets.
  rewrite new_group_same_group.
  destruct (same_group st (module_of loc)) eqn:Hsame; simpl negb; cbv iota.
  - assert (Hne : sym_array_modules st ≠ []).
    { unfold same_group, num_modules in Hsame. intros E. rewrite E in Hsame.
      discriminate. }
    destruct (list_last_split _ Hne) as (ms & mp & Hms).
    destruct st as [ms0 hm lm r h]. simpl in Hheap, Hms. subst h ms0.
    unfold mbind, M_bind, mret, M_ret, gets, modify, lift, alloc,
      update_module, num_modules, set_lastmodule, set_modules, set_heap.
    cbn [sym_array_modules have_modules lastmodule ret heap].
    rewrite length_app. cbn [length].
    replace (length ms + 1 - 1)%nat with (length ms) by lia.
    rewrite lookup_end. cbn [fmap option_fmap option_map].
    cbn [negb sym_array_modules have_modules lastmodule ret heap].
    rewrite Hnm. reflexivity.
  - destruct st as [ms hm lm r h]. simpl in Hheap. subst h.
    clear Hsame. generalize (module_of loc) as md. intros md.
    unfold AddModule, mbind, M_bind, mret, M_ret, gets, modify, lift, alloc,
      update_module, num_modules, set_lastmodule, set_modules, set_heap.
    cbn [sym_array_modules have_modules lastmodule ret heap negb].
    destruct md as [mn|];
      cbn [sym_array_modules have_modules lastmodule ret heap negb];
      rewrite lookup_end;
      cbn [fmap option_fmap option_map negb num_syms sym_array mod_name
        sym_array_modules have_modules lastmodule ret heap];
      rewrite Hnm; reflexivity.
Qed.

(** What [add_to_group] leaves in the store when every allocation is
    granted and the name can be read. *)
Lemma add_to_group_added loc st nm :
  heap st = [] → string_at (l_line loc) (l_p loc) = Some nm →
  ∃ st', add_to_group loc st = Some (1, st') ∧ heap st' = [] ∧
    sym_array_modules st'
    = added st (module_of loc)
        {| value := l_address loc; name := string_of_list_ascii nm |}.
Proof.
  intros Hheap Hnm.
  destruct (add_to_group_granted loc st nm Hheap Hnm) as (st2 & E & Hh & Hd).
  exists st2. split; [exact E |]. split; [exact Hh |].
  unfold added. destruct (same_group st (module_of loc)) eqn:Hs.
  - destruct Hd as (ms & mp & E1 & E2 & E3). rewrite E2.
    unfold num_modules. rewrite E1, length_app. simpl.
    replace (length ms + 1 - 1)%nat with (length ms) by lia.
    now rewrite alter_end.
  - apply Hd.
Qed.

(** A call of [AddSymbol] that ends, every allocation granted: the line
    had no space left and nothing changed, or its symbol is in the store. *)
Lemma AddSymbol_granted w line st r st' :
  heap st = [] → AddSymbol w line st = Some (r, st') →
  heap st' = [] ∧
  (st' = st ∨
   ∃ loc nm,
     scan_line w line = Some (Some loc) ∧
     string_at (l_line loc) (l_p loc) = Some nm ∧
     sym_array_modules st'
     = added st (module_of loc)
         {| value := l_address loc; name := string_of_list_ascii nm |}).
Proof.
  intros Hheap H. unfold AddSymbol in H. rewrite bind_run in H.
  unfold lift in H.
  destruct (scan_line w line) as [[loc|]|] eqn:Hscan; simpl in H;
    [| inv_run H; auto | discriminate].
  destruct (string_at (l_line loc) (l_p loc)) as [nm|] eqn:Hnm.
  - destruct (add_to_group_added loc st nm Hheap Hnm) as (st2 & E & Hh & Hs).
    rewrite E in H. injection H as <- <-. split; [exact Hh |].
    right. exists loc, nm. auto.
  - now rewrite (add_to_group_unread loc st Hheap Hnm) in H.
Qed.

Lemma read_line_granted w n buf st st' :
  heap st = [] → read_line w n buf st = Some (tt, st') →
  heap st' = [] ∧
  (st' = st ∨
   ∃ loc nm,
     (0 <? n) && bool_decide (index buf 0 "[" = None) = false ∧
     scan_line w (chomp buf) = Some (Some loc) ∧
     string_at (l_line loc) (l_p loc) = Some nm ∧
     sym_array_modules st'
     = added st (module_of loc)
         {| value := l_address loc; name := string_of_list_ascii nm |}).
Proof.
  intros Hheap H. unfold read_line in H.
  destruct ((0 <? n) && bool_decide (index buf 0 "[" = None)) eqn:Hf;
    [inv_run H; auto |].
  destruct (index buf 0 " "); [| inv_run H; auto].
  apply bind_Some in H as (r & st1 & Hadd & H). inv_run H.
  destruct (AddSymbol_granted _ _ _ _ _ Hheap Hadd)
    as [Hh [-> | (loc & nm & H1 & H2 & H3)]]; [auto |].
  split; [exact Hh |]. right. exists loc, nm. auto.
Qed.

(** An invariant of the store that each added symbol keeps is kept by the
    reading loop, every allocation granted. *)
Lemma read_lines_granted (P : State → Prop) w n :
  (∀ st st' buf loc nm,
     P st → coherent st = true → coherent st' = true →
     (0 <? n) && bool_decide (index buf 0 "[" = None) = false →
     scan_line w (chomp buf) = Some (Some loc) →
     string_at (l_line loc) (l_p loc) = Some nm →
     sym_array_modules st'
     = added st (module_of loc)
         {| value := l_address loc; name := string_of_list_ascii nm |} →
     P st') →
  ∀ bufs st st',
    heap st = [] → coherent st = true → P st →
    read_lines w n bufs st = Some (tt, st') →
    heap st' = [] ∧ coherent st' = true ∧ P st'.
Proof.
  intros Hstep bufs. induction bufs as [|buf bufs IH];
    intros st st' Hheap Hco HP H; simpl in H.
  - inv_run H. auto.
  - apply bind_Some in H as ([] & st1 & Hline & H).
    pose proof (read_line_coherent _ _ _ _ _ Hco Hline) as Hco1.
    destruct (read_line_granted _ _ _ _ _ Hheap Hline)
      as [Hh [-> | (loc & nm & H0 & H1 & H2 & H3)]].
    + eauto.
    + eapply (IH st1); eauto.
Qed.

Lemma read_syms_mk_module nm syms :
  read_syms (mk_module nm syms) = Some syms.
Proof.
  unfold read_syms, mk_module. simpl.
  replace (default [] match syms with
                      | [] => None
                      | _ => Some (Some <$> syms)
                      end)
    with (Some <$> syms) by (now destruct syms).
  rewrite length_fmap, Nat.leb_refl.
  rewrite <- (length_fmap Some syms) at 1. rewrite firstn_all.
  apply mapM_Some. apply Forall2_fmap_l, Forall_Forall2_diag.
  now apply Forall_forall.
Qed.

Lemma whole_append s mp : whole mp → whole (append_symbol s mp).
Proof.
  intros (syms & Hne & E). exists (syms ++ [s]). split.
  - now destruct syms.
  - rewrite E at 1. rewrite append_symbol_mk_module. reflexivity.
Qed.

Lemma added_whole st module s :
  Forall whole (sym_array_modules st) → Forall whole (added st module s).
Proof.
  intros H. unfold added. destruct (same_group st module).
  - apply Forall_alter; [exact H |]. intros mp _. apply whole_append.
  - apply Forall_app. split; [exact H |]. constructor; [| constructor].
    exists [s]. split; [discriminate | reflexivity].
Qed.

Lemma sort_module_mk_module nm syms :
  sort_module (mk_module nm syms)
  = Some (mk_module nm
            (if (length syms <? 2)%nat then syms else qsort symsort syms)).
Proof.
  unfold sort_module. rewrite read_syms_mk_module.
  change (num_syms (mk_module nm syms)) with (length syms).
  destruct (Nat.ltb_spec (length syms) 2) as [Hlt|Hge]; [reflexivity |].
  destruct syms as [|a syms]; [simpl in Hge; lia |].
  cbn [mbind option_bind mk_module sym_array set_sym_array num_syms mod_name].
  rewrite drop_ge by (rewrite length_fmap; lia).
  rewrite app_nil_r. unfold mk_module. rewrite qsort_length.
  destruct (qsort symsort (a :: syms)) as [|b l] eqn:E; [| reflexivity].
  apply (f_equal length) in E. rewrite qsort_length in E. discriminate.
Qed.

Lemma sort_module_whole mp mp' :
  whole mp → sort_module mp = Some mp' → whole mp'.
Proof.
  intros (syms & Hne & E) H. rewrite E, sort_module_mk_module in H.
  injection H as <-.
  exists (if (length syms <? 2)%nat then syms else qsort symsort syms).
  split; [| reflexivity].
  destruct (length syms <? 2)%nat; [exact Hne |].
  intros E'. apply (f_equal length) in E'. rewrite qsort_length in E'.
  now destruct syms.
Qed.

Lemma whole_consistent mp : whole mp → consistent mp = true.
Proof.
  intros (syms & Hne & ->). unfold consistent, live_entries, mk_module. simpl.
  apply Nat.eqb_eq.
  destruct syms as [|a syms]; [contradiction |]. simpl.
  f_equal. induction syms as [|b syms IH]; [reflexivity |]. simpl.
  now rewrite IH.
Qed.

Lemma whole_free mp : whole mp → free_module mp = Some tt.
Proof.
  intros (syms & Hne & ->). unfold free_module.
  rewrite read_syms_mk_module. now destruct (num_syms _ =? 0)%nat.
Qed.

Lemma FreeModules_whole st :
  Forall whole (sym_array_modules st) →
  FreeModules st = Some (tt, set_modules [] (set_have_modules false st)).
Proof.
  intros H. unfold FreeModules.
  unfold mbind, M_bind, mret, M_ret, gets, modify, lift, num_modules.
  cbn [set_have_modules sym_array_modules].
  destruct (sym_array_modules st) as [|m ms] eqn:E.
  - simpl. unfold set_modules, set_have_modules. simpl. now rewrite E.
  - cbn [length Nat.eqb].
    assert (Hm : mapM free_module (m :: ms)
                 = Some (replicate (length (m :: ms)) tt)).
    { apply mapM_Some. clear E. induction H as [|x l Hx Hl IH]; simpl.
      - constructor.
      - constructor; [now apply whole_free | exact IH]. }
    change (sym_array_modules (set_have_modules false st))
      with (sym_array_modules st).
    rewrite E, Hm. reflexivity.
Qed.

Lemma mapM_sort_whole ms ms' :
  Forall whole ms → mapM sort_module ms = Some ms' → Forall whole ms'.
Proof.
  intros H Hs%mapM_Some. induction Hs as [|m m' ms ms' Hm Hms IH];
    [constructor |].
  apply Forall_cons in H as [H1 H2].
  constructor; [eauto using sort_module_whole | auto].
Qed.

Lemma mapM_sort_names ms ms' :
  mapM sort_module ms = Some ms' → mod_name <$> ms' = mod_name <$> ms.
Proof.
  intros Hs%mapM_Some. induction Hs as [|m m' ms ms' Hm Hms IH];
    [reflexivity |].
  simpl. f_equal; [now apply sort_module_name | exact IH].
Qed.

(** What the end of a load owes to its reading loop. *)
Lemma InitMsyms_granted (P : State → Prop) w n ksyms st r st' :
  (∀ st, sym_array_modules st = [] → P st) →
  (∀ st st' buf loc nm,
     P st → coherent st = true → coherent st' = true →
     (0 <? n) && bool_decide (index buf 0 "[" = None) = false →
     scan_line w (chomp buf) = Some (Some loc) →
     string_at (l_line loc) (l_p loc) = Some nm →
     sym_array_modules st'
     = added st (module_of loc)
         {| value := l_address loc; name := string_of_list_ascii nm |} →
     P st') →
  heap st = [] →
  InitMsyms w n ksyms st = Some (r, st') →
  ∃ st1 ms',
    P st1 ∧ mapM sort_module (sym_array_modules st1) = Some ms' ∧
    sym_array_modules st' = ms'.
Proof.
  intros Hinit Hstep Hheap H. unfold InitMsyms in H.
  apply bind_Some in H as ([] & st0 & Hfree & H).
  pose proof (FreeModules_modules _ _ Hfree) as Hms0.
  assert (Hh0 : heap st0 = []).
  { unfold FreeModules in Hfree. inv_run Hfree. simpl_state.
    destruct (length (sym_array_modules st) =? 0)%nat; inv_run Hfree;
      exact Hheap. }
  assert (Hco0 : coherent st0 = true) by (unfold coherent; now rewrite Hms0).
  destruct ksyms as [s|].
  - apply bind_Some in H as ([] & st1 & Hread & H).
    destruct (read_lines_granted P w n Hstep _ _ _ Hh0 Hco0 (Hinit _ Hms0)
                Hread) as (Hh1 & Hco1 & HP1).
    inv_run H.
    match goal with Hs : mapM sort_module _ = Some ?k |- _ =>
      exists st1, k; simpl in Hs; auto
    end.
  - inv_run H. exists st0, []. rewrite Hms0. auto.
Qed.

Lemma runs_names ms ms' :
  mod_name <$> ms' = mod_name <$> ms → runs ms → runs ms'.
Proof.
  intros E H i a b Ha Hb.
  assert (Hl : ∀ j x, ms' !! j = Some x →
             ∃ y, ms !! j = Some y ∧ mod_name y = mod_name x).
  { intros j x Hx.
    assert (Hn : (mod_name <$> ms) !! j = Some (mod_name x))
      by (now rewrite <- E, list_lookup_fmap, Hx).
    apply list_lookup_fmap_Some in Hn as (y & Hy & Hxy). eauto. }
  destruct (Hl _ _ Ha) as (a0 & Ha0 & <-).
  destruct (Hl _ _ Hb) as (b0 & Hb0 & <-).
  eauto.
Qed.

Lemma runs_snoc ms x :
  runs ms → (∀ l, last ms = Some l → mod_name l ≠ mod_name x) →
  runs (ms ++ [x]).
Proof.
  intros H Hl i a b Ha Hb.
  destruct (decide (S i < length ms)%nat) as [Hlt|Hge].
  - rewrite lookup_app_l in Ha, Hb by lia. eauto.
  - assert (S i = length ms).
    { apply lookup_lt_Some in Hb. rewrite length_app in Hb. simpl in Hb. lia. }
    rewrite lookup_app_l in Ha by lia.
    rewrite lookup_app_r in Hb by lia.
    replace (S i - length ms)%nat with 0%nat in Hb by lia.
    injection Hb as <-. apply Hl.
    rewrite last_lookup. now replace (Nat.pred (length ms)) with i by lia.
Qed.

Lemma added_names st module s :
  same_group st module = true →
  mod_name <$> added st module s = mod_name <$> sym_array_modules st.
Proof.
  intros Hs. unfold added. rewrite Hs.
  apply list_eq. intros i. rewrite !list_lookup_fmap.
  destruct (decide (i = num_modules st - 1)%nat) as [->|Hne].
  - rewrite list_lookup_alter_eq.
    destruct (sym_array_modules st !! (num_modules st - 1)%nat);
      reflexivity.
  - now rewrite list_lookup_alter_ne by auto.
Qed.

Lemma added_runs st module s :
  coherent st = true → runs (sym_array_modules st) →
  runs (added st module s).
Proof.
  intros Hco H. destruct (same_group st module) eqn:Hs.
  - eapply runs_names; [now apply added_names | exact H].
  - unfold added. rewrite Hs. apply runs_snoc; [exact H |].
    intros l Hl. simpl. intros E. unfold coherent in Hco. rewrite Hl in Hco.
    apply bool_decide_eq_true in Hco.
    assert (Ht : same_group st module = true); [| congruence].
    apply same_group_spec. split.
    + intros E0. now rewrite E0 in Hl.
    + rewrite Hco, E. destruct module; eauto.
Qed.

Lemma scan_line_module w line loc m :
  index line 0 "[" = Some m → scan_line w line = Some (Some loc) →
  l_module loc = Some (S m).
Proof.
  intros Hm H. unfold scan_line in H. rewrite Hm in H.
  destruct (back_over_space _ m) as [p|]; [| discriminate]. simpl in H.
  destruct (index _ 0 " "); [| discriminate].
  now injection H as <-.
Qed.

Lemma added_named st module s :
  is_Some module →
  Forall (λ mp, is_Some (mod_name mp)) (sym_array_modules st) →
  Forall (λ mp, is_Some (mod_name mp)) (added st module s).
Proof.
  intros Hm H. unfold added. destruct (same_group st module).
  - apply Forall_alter; [exact H |]. intros mp _ Hn. exact Hn.
  - apply Forall_app. split; [exact H |]. constructor; [exact Hm | constructor].
Qed.

(** X4. After a load in which every allocation is granted, each module
    of the store holds at least one symbol, in an array of exactly
    [num_syms] written slots; the recorded counts are the numbers of live
    entries and [FreeModules] frees the store. *)
Theorem InitMsyms_granted_whole w n ksyms st r st' :
  heap st = [] → InitMsyms w n ksyms st = Some (r, st') →
  Forall whole (sym_array_modules st') ∧
  forallb consistent (sym_array_modules st') = true ∧
  FreeModules st' = Some (tt, set_modules [] (set_have_modules false st')).
Proof.
  intros Hheap H.
  destruct (InitMsyms_granted (λ s, Forall whole (sym_array_modules s))
              w n ksyms st r st') as (st1 & ms' & HP & Hs & E);
    [| | exact Hheap | exact H |].
  - intros s ->. constructor.
  - intros s s' buf loc nm HP _ _ _ _ _ ->. now apply added_whole.
  - assert (Hw : Forall whole (sym_array_modules st'))
      by (rewrite E; eauto using mapM_sort_whole).
    split; [exact Hw |]. split; [| now apply FreeModules_whole].
    apply forallb_forall. intros mp Hin. apply whole_consistent.
    rewrite Forall_forall in Hw. apply Hw. now apply list_elem_of_In.
Qed.

Lemma InitMsyms_granted_whole_witness :
  InitMsyms 64 0 (Some three_lines) empty_state
    = Some (1, loaded two_groups) ∧
  Forall whole (sym_array_modules (loaded two_groups)) ∧
  forallb consistent (sym_array_modules (loaded two_groups)) = true ∧
  FreeModules (loaded two_groups)
    = Some (tt, set_modules [] (set_have_modules false (loaded two_groups))).
Proof.
  assert (H : InitMsyms 64 0 (Some three_lines) empty_state
              = Some (1, loaded two_groups)) by (vm_compute; reflexivity).
  split; [exact H |].
  exact (InitMsyms_granted_whole 64 0 (Some three_lines) empty_state 1
           (loaded two_groups) eq_refl H).
Defined.

(** X5. After a load in which every allocation is granted, no two
    neighbours in the store have the same name: the lines of one run are
    one module. *)
Theorem InitMsyms_granted_runs w n ksyms st r st' :
  heap st = [] → InitMsyms w n ksyms st = Some (r, st') →
  runs (sym_array_modules st').
Proof.
  intros Hheap H.
  destruct (InitMsyms_granted (λ s, runs (sym_array_modules s))
              w n ksyms st r st') as (st1 & ms' & HP & Hs & E);
    [| | exact Hheap | exact H |].
  - intros s -> i a b Ha. discriminate.
  - intros s s' buf loc nm HP Hco _ _ _ _ ->. now apply added_runs.
  - rewrite E. eapply runs_names; [| exact HP]. now apply mapM_sort_names.
Qed.

Lemma InitMsyms_granted_runs_witness :
  InitMsyms 64 0 (Some three_lines) empty_state
    = Some (1, loaded two_groups) ∧
  runs (sym_array_modules (loaded two_groups)).
Proof.
  assert (H : InitMsyms 64 0 (Some three_lines) empty_state
              = Some (1, loaded two_groups)) by (vm_compute; reflexivity).
  split; [exact H |].
  exact (InitMsyms_granted_runs 64 0 (Some three_lines) empty_state 1
           (loaded two_groups) eq_refl H).
Defined.

(** X6. With a static table loaded and every allocation granted, every
    module of the store has a name: no line opens the anonymous module. *)
Theorem InitMsyms_static_named w n ksyms st r st' :
  0 < n → heap st = [] → InitMsyms w n ksyms st = Some (r, st') →
  Forall (λ mp, is_Some (mod_name mp)) (sym_array_modules st').
Proof.
  intros Hn Hheap H.
  destruct (InitMsyms_granted
              (λ s, Forall (λ mp, is_Some (mod_name mp)) (sym_array_modules s))
              w n ksyms st r st') as (st1 & ms' & HP & Hs & E);
    [| | exact Hheap | exact H |].
  - intros s ->. constructor.
  - intros s s' buf loc nm HP _ _ Hf Hscan _ ->. apply added_named; [| exact HP].
    apply Z.ltb_lt in Hn. rewrite Hn in Hf. simpl in Hf.
    apply bool_decide_eq_false in Hf.
    destruct (index buf 0 "[") as [m|] eqn:Hm; [| contradiction].
    rewrite index_0 in Hm.
    apply (chomp_strchr_Some _ _ _ bracket_not_NUL) in Hm; [| discriminate].
    rewrite <- index_0 in Hm.
    unfold module_of. rewrite (scan_line_module _ _ _ _ Hm Hscan). simpl. eauto.
  - rewrite E. apply mapM_sort_names in Hs.
    apply Forall_forall. intros mp Hin.
    apply list_elem_of_lookup in Hin as (i & Hi).
    assert (Hn' : (mod_name <$> sym_array_modules st1) !! i
                  = Some (mod_name mp))
      by (now rewrite <- Hs, list_lookup_fmap, Hi).
    apply list_lookup_fmap_Some in Hn' as (y & Hxy & Hy).
    rewrite Forall_forall in HP. rewrite Hxy. apply HP.
    eapply list_elem_of_lookup_2; eauto.
Qed.

Lemma InitMsyms_static_named_witness :
  InitMsyms 64 7 (Some three_lines) empty_state = Some (1, loaded m_store) ∧
  Forall (λ mp, is_Some (mod_name mp)) (sym_array_modules (loaded m_store)).
Proof.
  assert (H : InitMsyms 64 7 (Some three_lines) empty_state
              = Some (1, loaded m_store)) by (vm_compute; reflexivity).
  split; [exact H |].
  apply (InitMsyms_static_named 64 7 (Some three_lines) empty_state 1
           (loaded m_store)); [lia | reflexivity | exact H].
Defined.

(** ** A load forgets the store before it *)

Lemma frames_ret {A} f (x : A) : frames f (mret x).
Proof. intros st. reflexivity. Qed.

Lemma frames_bind {A B} f (c : M A) (k : A → M B) :
  frames f c → (∀ x, frames f (k x)) → frames f (c ≫= k).
Proof.
  intros Hc Hk st. rewrite !bind_run, Hc.
  destruct (c st) as [[x st1]|]; [apply Hk | reflexivity].
Qed.

Lemma frames_gets {A} f (g : State → A) :
  (∀ st, g (f st) = g st) → frames f (gets g).
Proof. intros H st. unfold gets. now rewrite H. Qed.

Lemma frames_modify f g :
  (∀ st, g (f st) = f (g st)) → frames f (modify g).
Proof. intros H st. unfold modify. now rewrite H. Qed.

Lemma frames_lift {A} f (o : option A) : frames f (lift o).
Proof. intros st. unfold lift. now destruct o. Qed.

Lemma frames_alloc x : frames (set_ret x) alloc.
Proof. intros st. unfold alloc. simpl. now destruct (heap st). Qed.

Ltac solve_frames :=
  repeat first
    [ apply frames_bind; [| intros ?]
    | apply frames_ret | apply frames_alloc | apply frames_lift
    | apply frames_gets; intros ?; reflexivity
    | apply frames_modify; intros ?; reflexivity
    | match goal with
      | |- frames _ (if ?b then _ else _) => destruct b
      | |- frames _ (match ?x with _ => _ end) => destruct x
      end ].

Lemma AddModule_ret x module : frames (set_ret x) (AddModule module).
Proof. unfold AddModule. solve_frames. Qed.

Lemma add_to_group_ret x loc : frames (set_ret x) (add_to_group loc).
Proof. unfold add_to_group. solve_frames. Qed.

(** With an empty store [AddSymbol] does not look at [lastmodule]. *)
Lemma add_to_group_first loc st l :
  sym_array_modules st = [] →
  add_to_group loc (set_lastmodule l st)
  = (λ p, (p.1, match sym_array_modules p.2 with
                | [] => set_lastmodule l p.2
                | _ => p.2
                end)) <$> add_to_group loc st.
Proof.
  destruct st as [ms hm lm r h]. simpl. intros ->.
  unfold add_to_group, AddModule, new_group.
  unfold mbind, M_bind, mret, M_ret, gets, modify, lift, alloc,
    update_module, num_modules, set_lastmodule, set_modules, set_heap.
  cbn [sym_array_modules have_modules lastmodule ret heap length Nat.eqb orb].
  destruct (module_of loc) as [md|], (string_at (l_line loc) (l_p loc)) as [nm|];
    destruct h as [|[] [|[] [|[] [|[] h]]]]; reflexivity.
Qed.

Lemma alike_refl a : alike a a.
Proof. repeat split. Qed.

Lemma add_to_group_alike loc a b r a' :
  alike a b → add_to_group loc a = Some (r, a') →
  ∃ b', add_to_group loc b = Some (r, b') ∧ alike a' b'.
Proof.
  intros (Hms & Hhm & Hh & Hl) H.
  destruct (sym_array_modules a) as [|m ms] eqn:Ea.
  - assert (Eb : b = set_ret (ret b) (set_lastmodule (lastmodule b) a)).
    { destruct a, b. simpl in *. now subst. }
    rewrite Eb, add_to_group_ret, add_to_group_first, H by exact Ea.
    eexists. split; [reflexivity |]. simpl.
    destruct (sym_array_modules a') eqn:Ea'; repeat split; simpl; auto.
    intros Hne. now rewrite Ea' in Hne.
  - assert (Eb : b = set_ret (ret b) a).
    { destruct a, b. simpl in *. rewrite Hl by discriminate. now subst. }
    rewrite Eb, add_to_group_ret, H. eexists. split; [reflexivity |].
    repeat split.
Qed.

Lemma AddSymbol_alike w line a b r a' :
  alike a b → AddSymbol w line a = Some (r, a') →
  ∃ b', AddSymbol w line b = Some (r, b') ∧ alike a' b'.
Proof.
  intros Hab H. unfold AddSymbol in *. rewrite bind_run in *.
  unfold lift in *.
  destruct (scan_line w line) as [[loc|]|]; simpl in *;
    [| inv_run H; eauto | discriminate].
  eauto using add_to_group_alike.
Qed.

Lemma read_line_alike w n buf a b a' :
  alike a b → read_line w n buf a = Some (tt, a') →
  ∃ b', read_line w n buf b = Some (tt, b') ∧ alike a' b'.
Proof.
  intros Hab H. unfold read_line in *.
  destruct ((0 <? n) && bool_decide (index buf 0 "[" = None));
    [inv_run H; eauto |].
  destruct (index buf 0 " "); [| inv_run H; eauto].
  apply bind_Some in H as (r & a1 & Hadd & H). inv_run H.
  destruct (AddSymbol_alike _ _ _ _ _ _ Hab Hadd) as (b' & Hb' & Hab').
  rewrite bind_run, Hb'. eauto.
Qed.

Lemma read_lines_alike w n bufs a b a' :
  alike a b → read_lines w n bufs a = Some (tt, a') →
  ∃ b', read_lines w n bufs b = Some (tt, b') ∧ alike a' b'.
Proof.
  revert a b. induction bufs as [|buf bufs IH]; intros a b Hab H; simpl in *.
  - inv_run H. eauto.
  - apply bind_Some in H as ([] & a1 & Hline & H).
    destruct (read_line_alike _ _ _ _ _ _ Hab Hline) as (b1 & Hb1 & Hab1).
    rewrite bind_run, Hb1. eauto.
Qed.

Lemma FreeModules_Some st st' :
  FreeModules st = Some (tt, st') →
  st' = set_modules [] (set_have_modules false st).
Proof.
  unfold FreeModules. intros H. inv_run H. simpl_state.
  destruct (sym_array_modules st) as [|m ms] eqn:E; simpl in H; inv_run H.
  - reflexivity.
  - reflexivity.
Qed.

(** X7. What a load returns and the store it leaves do not depend on the
    store before it, nor on the [lastmodule] that [FreeModules] leaves
    behind: they are the same from any state that can be freed and has the
    same allocations to come. *)
Theorem InitMsyms_forgets w n ksyms st1 st2 r st1' :
  heap st1 = heap st2 →
  InitMsyms w n ksyms st1 = Some (r, st1') →
  is_Some (FreeModules st2) →
  ∃ st2', InitMsyms w n ksyms st2 = Some (r, st2') ∧
    sym_array_modules st2' = sym_array_modules st1' ∧
    have_modules st2' = have_modules st1' ∧
    heap st2' = heap st1'.
Proof.
  intros Hh H [[[] b0] Hfree2]. unfold InitMsyms in *.
  apply bind_Some in H as ([] & a0 & Hfree1 & H).
  rewrite bind_run, Hfree2.
  apply FreeModules_Some in Hfree1, Hfree2.
  assert (Hab : alike a0 b0).
  { subst a0 b0. repeat split; simpl; [exact Hh | contradiction]. }
  clear Hfree1 Hfree2. destruct ksyms as [s|].
  - apply bind_Some in H as ([] & a1 & Hread & H).
    destruct (read_lines_alike _ _ _ _ _ _ Hab Hread)
      as (b1 & Hb1 & (E1 & E2 & E3 & E4)).
    rewrite bind_run, Hb1. inv_run H.
    unfold mbind, M_bind, modify, gets, lift, mret, M_ret. simpl.
    match goal with Hs : mapM sort_module _ = Some _ |- _ =>
      simpl in Hs; rewrite <- E1, Hs end.
    simpl. eexists. split; [reflexivity |]. simpl. auto.
  - inv_run H. destruct Hab as (E1 & E2 & E3 & E4). eauto.
Qed.

Lemma InitMsyms_forgets_witness :
  InitMsyms 64 0 (Some three_lines) empty_state
    = Some (1, loaded two_groups) ∧
  ∃ st2', InitMsyms 64 0 (Some three_lines) (loaded sorted_store)
          = Some (1, st2') ∧
    sym_array_modules st2' = sym_array_modules (loaded two_groups) ∧
    have_modules st2' = have_modules (loaded two_groups) ∧
    heap st2' = heap (loaded two_groups).
Proof.
  assert (H : InitMsyms 64 0 (Some three_lines) empty_state
              = Some (1, loaded two_groups)) by (vm_compute; reflexivity).
  split; [exact H |].
  apply (InitMsyms_forgets 64 0 (Some three_lines) empty_state
           (loaded sorted_store) 1 (loaded two_groups));
    [reflexivity | exact H | eexists; vm_compute; reflexivity].
Defined.

(** X8. When /proc/kallsyms cannot be opened, [InitMsyms] returns 0 and
    the store loaded before is gone: the modules are freed and
    [have_modules] is 0. *)
Theorem InitMsyms_not_opened w n st r st' :
  InitMsyms w n None st = Some (r, st') →
  r = 0 ∧ st' = set_modules [] (set_have_modules false st).
Proof.
  unfold InitMsyms. intros H.
  apply bind_Some in H as ([] & st0 & Hfree & H).
  apply FreeModules_Some in Hfree. inv_run H. auto.
Qed.

Lemma InitMsyms_not_opened_witness :
  InitMsyms 64 0 None (loaded m_store)
    = Some (0, set_modules [] (set_have_modules false (loaded m_store))) ∧
  0 = 0 ∧
  set_modules [] (set_have_modules false (loaded m_store))
    = set_modules [] (set_have_modules false (loaded m_store)).
Proof.
  assert (H : InitMsyms 64 0 None (loaded m_store)
              = Some (0, set_modules [] (set_have_modules false
                                           (loaded m_store))))
    by (vm_compute; reflexivity).
  split; [exact H |].
  exact (InitMsyms_not_opened 64 0 (loaded m_store) 0 _ H).
Defined.

(** ** Addresses the search resolves *)

Lemma find_pair_below v syms :
  Forall (λ s, value s <= v) (tail syms) → find_pair v syms = None.
Proof.
  induction syms as [|a syms IH]; [reflexivity |]. simpl.
  intros H. destruct syms as [|b rest]; [reflexivity |].
  apply Forall_cons in H as [Hb Hrest].
  destruct (Z.ltb_spec v (value b)); [lia |]. apply IH. exact Hrest.
Qed.

Lemma find_pair_sorted v syms i a b :
  Sorted le_value syms → syms !! i = Some a → syms !! S i = Some b →
  value a <= v < value b → find_pair v syms = Some (a, b).
Proof.
  intros Hs. apply Sorted_StronglySorted in Hs;
    [| intros x y z; unfold le_value; lia].
  revert i. induction Hs as [|x l Hl IH Hx]; intros i Ha Hb Hv;
    [discriminate |].
  destruct l as [|y rest]; [discriminate |].
  destruct i as [|i]; simpl in Ha, Hb.
  - injection Ha as ->. injection Hb as ->. simpl.
    now destruct (Z.ltb_spec v (value b)); [| lia].
  - cbn [find_pair].
    destruct (Z.ltb_spec v (value y)) as [Hy|Hy].
    + exfalso. destruct i as [|i]; simpl in Ha.
      * injection Ha as ->. lia.
      * inversion Hl as [|? ? _ Hy']; subst.
        rewrite Forall_forall in Hy'.
        assert (le_value y a) by (apply Hy'; eapply list_elem_of_lookup_2; eauto).
        unfold le_value in *. lia.
    + apply (IH i); assumption.
Qed.

Lemma fits_width w t x :
  ct_bits t = w → 0 < w → 0 <= x < 2 ^ w → fits w t x = true.
Proof.
  intros <- Hw Hx. unfold fits, wrap, convert. apply Z.eqb_eq.
  assert (E : 2 * 2 ^ (ct_bits t - 1) = 2 ^ ct_bits t).
  { rewrite <- Z.pow_succ_r by lia. f_equal. lia. }
  destruct (ct_signed t).
  - rewrite E. rewrite Zminus_mod_idemp_l.
    replace (x + 2 ^ (ct_bits t - 1) - 2 ^ (ct_bits t - 1)) with x by lia.
    now apply Z.mod_small.
  - rewrite Z.mod_mod by lia. now apply Z.mod_small.
Qed.

Section Apart.

Context (w : Z) (fty : ctype) (v : Z).
Hypothesis width : ct_bits fty = w.
Hypothesis positive : 0 < w.

Lemma wrap_range x : 0 <= wrap w x < 2 ^ w.
Proof. unfold wrap. apply Z.mod_pos_bound. lia. Qed.

Lemma apart_gives_way o s mp :
  0 <= o → 0 <= v → o <= v → apart w v mp →
  gives_way w fty v o s mp = true.
Proof.
  intros Ho Hv Hov (syms & Hr & Hrange & [Hb | Ha]).
  - unfold gives_way, candidate. rewrite Hr. simpl.
    rewrite find_pair_below; [reflexivity |].
    destruct syms; [constructor |]. now apply Forall_cons in Hb as [_ ?].
  - unfold gives_way, candidate. rewrite Hr. simpl.
    destruct syms as [|f [|x rest]]; [reflexivity | reflexivity |].
    simpl. apply Forall_cons in Ha as [Hf Ha].
    apply Forall_cons in Ha as [Hx _].
    apply Forall_cons in Hrange as [Rf _].
    apply Z.ltb_lt in Hx as ->.
    rewrite (fits_width w fty (cand_offset w v f))
      by (auto; apply wrap_range).
    rewrite (fits_width w fty (cand_size w f x)) by (auto; apply wrap_range).
    simpl. unfold better. apply orb_true_iff. left. apply Z.ltb_lt.
    unfold cand_offset, wrap.
    replace (v - value f) with ((2 ^ w - (value f - v)) + (-1) * 2 ^ w)
      by lia.
    rewrite Z.mod_add by lia. rewrite Z.mod_small by lia. lia.
Qed.

Lemma apart_not_better o s mp :
  0 <= o → 0 <= v → o <= v → apart w v mp →
  not_better w v o s mp = true.
Proof.
  intros Ho Hv Hov (syms & Hr & Hrange & [Hb | Ha]).
  - unfold not_better, candidate. rewrite Hr. simpl.
    rewrite find_pair_below; [reflexivity |].
    destruct syms; [constructor |]. now apply Forall_cons in Hb as [_ ?].
  - unfold not_better, candidate. rewrite Hr. simpl.
    destruct syms as [|f [|x rest]]; [reflexivity | reflexivity |].
    simpl. apply Forall_cons in Ha as [Hf Ha].
    apply Forall_cons in Ha as [Hx _].
    apply Forall_cons in Hrange as [Rf _].
    apply Z.ltb_lt in Hx as ->.
    apply negb_true_iff. unfold better.
    assert (E : cand_offset w v f = 2 ^ w - (value f - v)).
    { unfold cand_offset, wrap.
      replace (v - value f) with ((2 ^ w - (value f - v)) + (-1) * 2 ^ w)
        by lia.
      rewrite Z.mod_add by lia. apply Z.mod_small. lia. }
    rewrite E.
    destruct (Z.ltb_spec (2 ^ w - (value f - v)) o); [lia |].
    destruct (Z.eqb_spec (2 ^ w - (value f - v)) o); [lia |]. reflexivity.
Qed.

End Apart.

(** X9. In a store where the module [mp] is sorted, the address lies
    between two neighbours [a] and [b] of [mp], and every other module
    lies apart from the address, the search returns the label of [a], the
    distance from [a] as offset and the distance of [a] and [b] as size.
    The fields of [*sym] have the width of [unsigned long], and the size
    is less than half the address space. *)
Theorem LookupModuleSymbol_resolves w fty v st pre mp post syms i a b :
  ct_bits fty = w →
  sym_array_modules st = pre ++ mp :: post →
  read_syms mp = Some syms → Sorted le_value syms →
  syms !! i = Some a → syms !! S i = Some b →
  value a <= v < value b →
  0 <= value a → value b < 2 ^ w → value b - value a < 2 ^ (w - 1) →
  Forall (apart w v) (pre ++ post) →
  LookupModuleSymbol w fty v st
  = Some ((Some (snprintf_ret (mod_name mp) (name a)),
           {| size := value b - value a; offset := v - value a |}),
          set_ret (snprintf_ret (mod_name mp) (name a)) st).
Proof.
  intros Hfty Hms Hr Hsorted Ha Hb Hv Ha0 Hbw Hhalf Hap.
  assert (Hw : 0 < w).
  { destruct (Z.ltb_spec 0 (w - 1)); [lia |].
    assert (2 ^ (w - 1) <= 1); [| lia].
    destruct (Z.eq_dec (w - 1) 0) as [->|]; [simpl; lia |].
    rewrite Z.pow_neg_r by lia. lia. }
  assert (Hpow : 2 ^ (w - 1) < 2 ^ w) by (apply Z.pow_lt_mono_r; lia).
  assert (Eo : cand_offset w v a = v - value a)
    by (unfold cand_offset; apply wrap_small; lia).
  assert (Es : cand_size w a b = value b - value a)
    by (unfold cand_size; apply wrap_small; lia).
  apply Forall_app in Hap as [Hpre Hpost].
  rewrite (lookup_best w fty v st pre mp post a b Hms).
  - rewrite Eo, Es.
    rewrite !convert_small by (rewrite Hfty; lia). reflexivity.
  - unfold candidate. rewrite Hr. simpl. f_equal.
    eapply find_pair_sorted; eauto.
  - rewrite Eo. apply fits_width; auto; lia.
  - rewrite Es. apply fits_width; auto; lia.
  - rewrite Es, convert_small by (rewrite Hfty; lia). lia.
  - rewrite Eo. apply forallb_forall. intros m Hin.
    apply (apart_gives_way w fty v Hfty Hw); try lia.
    rewrite Forall_forall in Hpre. apply Hpre. now apply list_elem_of_In.
  - rewrite Eo. apply forallb_forall. intros m Hin.
    apply (apart_not_better w v Hw); try lia.
    rewrite Forall_forall in Hpost. apply Hpost. now apply list_elem_of_In.
Qed.

Lemma LookupModuleSymbol_resolves_witness :
  LookupModuleSymbol 64 (unsigned_long 64) 0x2800 (loaded sorted_store)
  = Some ((Some "m:b"%string, {| size := 0x1000; offset := 0x800 |}),
          set_ret "m:b" (loaded sorted_store)).
Proof.
  apply (LookupModuleSymbol_resolves 64 (unsigned_long 64) 0x2800
           (loaded sorted_store) []
           (mk_module (Some "m"%string)
              [sym 0x1000 "a"; sym 0x2000 "b"; sym 0x3000 "c"])
           [mk_module None [sym 0x4000 "x"; sym 0x5000 "y"]]
           [sym 0x1000 "a"; sym 0x2000 "b"; sym 0x3000 "c"]
           1%nat (sym 0x2000 "b") (sym 0x3000 "c"));
    try reflexivity.
  - repeat constructor; unfold le_value; simpl; lia.
  - simpl. lia.
  - simpl. lia.
  - constructor; [| constructor].
    exists [sym 0x4000 "x"; sym 0x5000 "y"]. split; [reflexivity |]. split.
    + repeat constructor; simpl; lia.
    + right. repeat constructor; simpl; lia.
Defined.

(** X10. An address at or above every symbol but the first of each
    module is not resolved: the last symbol of a module has no extent. *)
Theorem LookupModuleSymbol_above w fty v st :
  Forall (λ mp, ∃ syms, read_syms mp = Some syms ∧
                  Forall (λ s, value s <= v) (tail syms))
    (sym_array_modules st) →
  LookupModuleSymbol w fty v st
  = Some ((None, {| size := 0; offset := 0 |}), st).
Proof.
  intros H. unfold LookupModuleSymbol.
  destruct (num_modules st =? 0)%nat; [reflexivity |].
  rewrite module_loop_none.
  - simpl. now rewrite state_eta.
  - apply forallb_forall. intros mp Hin. apply bool_decide_eq_true.
    rewrite Forall_forall in H.
    destruct (H mp) as (syms & Hr & Hb); [now apply list_elem_of_In |].
    unfold candidate. rewrite Hr. simpl. f_equal. now apply find_pair_below.
Qed.

Lemma LookupModuleSymbol_above_witness :
  LookupModuleSymbol 64 c_int 0x1100 (store_m empty_state)
  = Some ((None, {| size := 0; offset := 0 |}), store_m empty_state).
Proof.
  apply (LookupModuleSymbol_above 64 c_int 0x1100 (store_m empty_state)).
  constructor; [| constructor].
  exists [sym 0x1000 "A"; sym 0x1100 "B"]. split; [reflexivity |].
  constructor; [simpl; lia | constructor].
Defined.

Lemma module_loop_total w fty v ms acc :
  Forall (λ mp, is_Some (read_syms mp)) ms →
  is_Some (module_loop w fty v ms acc).
Proof.
  intros H. revert acc. induction H as [|mp ms [syms Hr] Hms IH]; intros acc.
  - simpl. eauto.
  - simpl.
    rewrite (sym_loop_candidate w fty v mp (find_pair v syms))
      by (unfold candidate; now rewrite Hr).
    simpl. apply IH.
Qed.

(** X11. On a store whose modules hold their symbols and nothing else,
    as a load without allocation failure leaves it, the search returns for
    every address, and changes nothing but [ret]. *)
Theorem LookupModuleSymbol_returns w fty v st :
  Forall whole (sym_array_modules st) →
  ∃ r sy st',
    LookupModuleSymbol w fty v st = Some ((r, sy), st') ∧
    sym_array_modules st' = sym_array_modules st ∧
    have_modules st' = have_modules st ∧
    lastmodule st' = lastmodule st ∧ heap st' = heap st.
Proof.
  intros H. unfold LookupModuleSymbol.
  destruct (num_modules st =? 0)%nat.
  - exists None, {| size := 0; offset := 0 |}, st. auto.
  - destruct (module_loop_total w fty v (sym_array_modules st)
                ({| size := 0; offset := 0 |}, ret st)) as [[sy label] E].
    { eapply Forall_impl; [exact H |]. intros mp (syms & _ & Emp).
      rewrite Emp, read_syms_mk_module. eauto. }
    rewrite E. simpl. eexists _, _, _. split; [reflexivity |]. auto.
Qed.

Lemma LookupModuleSymbol_returns_witness :
  ∃ r sy st',
    LookupModuleSymbol 64 c_int 0x1008 (loaded two_groups)
    = Some ((r, sy), st') ∧
    sym_array_modules st' = sym_array_modules (loaded two_groups) ∧
    have_modules st' = have_modules (loaded two_groups) ∧
    lastmodule st' = lastmodule (loaded two_groups) ∧
    heap st' = heap (loaded two_groups).
Proof.
  apply (LookupModuleSymbol_returns 64 c_int 0x1008 (loaded two_groups)).
  repeat constructor.
  - exists [sym 0x1000 "f1"; sym 0x1010 "f2"]. split; [discriminate |].
    reflexivity.
  - exists [sym 0x2000 "g1"]. split; [discriminate | reflexivity].
Defined.

(** ** Lines the reading loop cannot take *)

Lemma back_over_space_blank buf m :
  Forall (λ c, isspace c = true) (take m buf) → back_over_space buf m = None.
Proof.
  induction m as [|m IH]; intros H; [reflexivity |]. simpl.
  destruct (buf !! m) as [c|] eqn:Hc; [| reflexivity]. simpl.
  rewrite (take_S_r _ _ _ Hc) in H. apply Forall_app in H as [H1 H2].
  apply Forall_cons in H2 as [-> _]. auto.
Qed.

Lemma back_over_space_insert buf m k x :
  (m ≤ k)%nat → back_over_space (<[k := x]> buf) m = back_over_space buf m.
Proof.
  intros Hk. induction m as [|m IH]; [reflexivity |]. simpl.
  rewrite list_lookup_insert_ne by lia.
  destruct (buf !! m) as [c|]; [| reflexivity]. simpl.
  destruct (isspace c); [apply IH; lia | reflexivity].
Qed.

Lemma index_ge buf from c p : index buf from c = Some p → (from ≤ p)%nat.
Proof.
  unfold index. destruct (strchr (drop from buf) c); [| discriminate].
  simpl. intros [= <-]. lia.
Qed.

Lemma index_lookup buf from c p :
  c ≠ NUL → index buf from c = Some p → buf !! p = Some c.
Proof.
  intros Hc. unfold index.
  destruct (strchr (drop from buf) c) as [i|] eqn:E; [| discriminate].
  simpl. intros [= <-].
  apply strchr_Some in E as [E _]; [| exact Hc].
  now rewrite lookup_drop in E.
Qed.

(** X13. A line with a space whose first bracket has only white space
    before it (or nothing) has no result: the scan back from the bracket
    in [AddSymbol] reads the byte before the buffer. *)
Theorem read_line_blank_before_bracket w n buf m st :
  index buf 0 "[" = Some m →
  Forall (λ c, isspace c = true) (take m buf) →
  is_Some (index buf 0 " ") →
  read_line w n buf st = None.
Proof.
  intros Hm Hblank [p Hp]. unfold read_line. rewrite Hm, Hp.
  rewrite bool_decide_eq_false_2 by discriminate. rewrite andb_false_r.
  rewrite bind_run. unfold AddSymbol. rewrite bind_run. unfold lift.
  replace (scan_line w (chomp buf)) with (@None (option locals));
    [reflexivity |].
  symmetry. unfold scan_line.
  rewrite index_0 in Hm. pose proof Hm as Hm'.
  apply (chomp_strchr_Some _ _ _ bracket_not_NUL) in Hm'; [| discriminate].
  rewrite index_0, Hm'.
  assert (Hb : back_over_space (chomp buf) m = None).
  { apply back_over_space_blank.
    unfold chomp; cbv zeta.
    destruct (buf !! (strlen buf - 1)%nat) as [c|] eqn:Ec; [| exact Hblank].
    destruct (Ascii.eqb_spec c newline) as [->|]; [| exact Hblank].
    destruct (strchr_Some _ _ _ bracket_not_NUL Hm) as [Hl Hlt].
    assert (m ≠ strlen buf - 1)%nat
      by (intros ->; rewrite Hl in Ec; discriminate).
    rewrite take_insert_ge by lia. exact Hblank. }
  destruct (index (chomp buf) m "]") as [q|] eqn:Hq.
  - rewrite back_over_space_insert, Hb; [reflexivity |].
    now apply index_ge in Hq.
  - now rewrite Hb.
Qed.

Lemma read_line_blank_before_bracket_witness :
  read_line 64 0 (list_ascii_of_string "[m] 1000 T f") empty_state = None.
Proof.
  apply (read_line_blank_before_bracket 64 0
           (list_ascii_of_string "[m] 1000 T f") 0 empty_state);
    [reflexivity | constructor | eexists; reflexivity].
Defined.

Lemma read_line_short w n buf p st :
  n <= 0 → index buf 0 "[" = None → index buf 0 " " = Some p →
  (length buf < p + 3)%nat → heap st = [] →
  read_line w n buf st = None.
Proof.
  intros Hn Hb Hp Hlen Hheap. unfold read_line. rewrite Hp.
  replace (0 <? n) with false by (symmetry; apply Z.ltb_ge; lia).
  rewrite andb_false_l, bind_run.
  rewrite index_0 in Hb, Hp.
  apply (chomp_strchr_None _ _ bracket_not_NUL) in Hb.
  apply (chomp_strchr_Some _ _ _ space_not_NUL space_not_newline) in Hp.
  rewrite <- index_0 in Hb, Hp.
  rewrite (AddSymbol_scanned _ _ _ _ (scan_line_plain w _ _ Hb Hp)).
  rewrite add_to_group_unread; [reflexivity | exact Hheap |].
  unfold string_at. cbn [l_line l_p].
  rewrite length_insert, chomp_length.
  now destruct (Nat.leb_spec (p + 3) (length buf)); [lia |].
Qed.



(** ** The pieces [fgets] cuts the file into *)

Lemma fgets_all_concat room acc s :
  concat (fgets_all room acc s) = reverse acc ++ s.
Proof.
  revert room acc. induction s as [|c s IH]; intros room acc.
  - simpl. destruct acc; [reflexivity |]. simpl. now rewrite !app_nil_r.
  - simpl. destruct (Ascii.eqb c newline).
    + simpl. rewrite IH. rewrite reverse_cons. simpl.
      now rewrite <- app_assoc.
    + destruct room as [|[|r]]; simpl; rewrite IH, ?reverse_cons; simpl;
        rewrite <- ?app_assoc; reflexivity.
Qed.

Lemma fgets_all_pieces room acc s :
  (1 ≤ room)%nat → (length acc + room = 127)%nat → newline ∉ acc →
  Forall (λ buf, buf ≠ [] ∧ (length buf ≤ 127)%nat ∧
                 newline ∉ take (length buf - 1) buf)
    (fgets_all room acc s).
Proof.
  revert room acc. induction s as [|c s IH]; intros room acc Hroom Hlen Hnl.
  - simpl. destruct acc as [|a acc]; [constructor |].
    constructor; [| constructor]. split; [| split].
    + intros E. apply (f_equal length) in E. rewrite length_reverse in E.
      discriminate.
    + rewrite length_reverse. lia.
    + intros Hin. apply elem_of_take in Hin as (i & Hi & _).
      apply list_elem_of_lookup_2 in Hi. rewrite elem_of_reverse in Hi.
      exact (Hnl Hi).
  - assert (Hemit : Forall (λ buf, buf ≠ [] ∧ (length buf ≤ 127)%nat ∧
                             newline ∉ take (length buf - 1) buf)
                      (reverse (c :: acc) :: fgets_all 127 [] s)).
    { constructor.
      - split; [| split].
        + intros E. apply (f_equal length) in E.
          rewrite length_reverse in E. discriminate.
        + rewrite length_reverse. simpl. lia.
        + rewrite reverse_cons, length_app. simpl.
          replace (length (reverse acc) + 1 - 1)%nat
            with (length (reverse acc)) by lia.
          rewrite take_app_length. intros Hin.
          rewrite elem_of_reverse in Hin. exact (Hnl Hin).
      - apply IH; [lia | simpl; lia | apply not_elem_of_nil]. }
    simpl. destruct (Ascii.eqb_spec c newline) as [->|Hc]; [exact Hemit |].
    destruct room as [|[|r]]; [exact Hemit | exact Hemit |].
    apply IH; [lia | simpl; lia |].
    intros Hin. apply elem_of_cons in Hin as [E | Hin];
      [now symmetry in E | exact (Hnl Hin)].
Qed.

(** X15. The reading loop sees the file in pieces: together they are the
    file, none is empty or longer than 127 bytes, and a newline can only be
    the last byte of a piece. *)
Theorem fgets_lines_pieces s :
  concat (fgets_lines s) = s ∧
  Forall (λ buf, buf ≠ [] ∧ (length buf ≤ 127)%nat ∧
                 newline ∉ take (length buf - 1) buf)
    (fgets_lines s).
Proof.
  split.
  - unfold fgets_lines. now rewrite fgets_all_concat.
  - apply fgets_all_pieces; [lia | reflexivity | apply not_elem_of_nil].
Qed.

Lemma fgets_all_full room acc pre rest :
  newline ∉ pre → (1 ≤ room)%nat → length pre = room →
  fgets_all room acc (pre ++ rest)
  = reverse (reverse pre ++ acc) :: fgets_all 127 [] rest.
Proof.
  revert room acc. induction pre as [|c pre IH]; intros room acc Hnl Hroom Hlen.
  - simpl in Hlen. lia.
  - simpl. destruct (Ascii.eqb_spec c newline) as [->|Hc].
    { exfalso. apply Hnl. left. }
    simpl in Hlen. destruct room as [|[|r]]; [lia | |].
    + destruct pre; [| discriminate]. reflexivity.
    + rewrite IH; [| | lia | lia].
      * rewrite reverse_cons, <- app_assoc. reflexivity.
      * intros Hin. apply Hnl. now right.
Qed.

(** X16. The first 127 bytes of a line without a newline among them are
    read as one line, and what follows as the lines after it, into the
    buffer as that piece leaves it: an overlong line is not passed
    over. *)
Theorem read_lines_overlong w n pre rest st :
  length pre = 127%nat → newline ∉ pre →
  read_lines w n (fgets_buffers n [] (fgets_lines (pre ++ rest))) st
  = (read_line w n pre;;
     read_lines w n
       (fgets_buffers n (line_left n pre) (fgets_lines rest))) st.
Proof.
  intros Hlen Hnl. unfold fgets_lines.
  rewrite (fgets_all_full 127 [] pre rest) by (auto; lia).
  rewrite app_nil_r, reverse_involutive. reflexivity.
Qed.

Lemma read_lines_overlong_witness :
  read_lines 64 0
    (fgets_buffers 0 [] (fgets_lines (long_piece ++ long_rest))) empty_state
    = (read_line 64 0 long_piece;;
       read_lines 64 0
         (fgets_buffers 0 (line_left 0 long_piece) (fgets_lines long_rest)))
        empty_state ∧
  (sym_array_modules <$>
     (snd <$> InitMsyms 64 0 (Some (long_piece ++ long_rest)) empty_state))
  = Some [mk_module None
            [sym 0x1000 (string_of_list_ascii (replicate 120 "a"%char));
             sym 0xc0de "tail"]].
Proof.
  split; [| vm_compute; reflexivity].
  apply (read_lines_overlong 64 0 long_piece long_rest empty_state);
    [reflexivity |].
  apply (bool_decide_unpack _). vm_compute. exact I.
Defined.

(** ** What earlier lines leave in the buffer *)

(** X12. When in every piece of the file the name lies within the piece,
    what the pieces before it left in [buf] plays no part: the reading
    loop does the same as if each piece came into a buffer of its
    own. *)
Theorem read_lines_within w n pieces old st :
  Forall (within w) pieces →
  read_lines w n (fgets_buffers n old pieces) st = read_lines w n pieces st.
Proof.
  intros H. revert old st.
  induction H as [|piece pieces Hp _ IH]; intros old st; [reflexivity |].
  cbn [fgets_buffers read_lines]. rewrite !bind_run.
  assert (E : read_line w n (fgets_into old piece) st
              = read_line w n piece st).
  { destruct (fgets_into_shape old piece) as [-> | [r ->]];
      [reflexivity | now apply read_line_within]. }
  rewrite E. destruct (read_line w n piece st) as [[[] st1]|];
    [apply IH | reflexivity].
Qed.

Lemma read_lines_within_witness :
  read_lines 64 0 (fgets_buffers 0 [] (fgets_lines three_lines)) empty_state
    = read_lines 64 0 (fgets_lines three_lines) empty_state ∧
  fgets_buffers 0 [] (fgets_lines three_lines) ≠ fgets_lines three_lines.
Proof.
  split; [| vm_compute; discriminate].
  apply (read_lines_within 64 0 (fgets_lines three_lines) [] empty_state).
  repeat (apply Forall_cons; split;
          [intros loc Hloc; vm_compute in Hloc;
           injection Hloc as <-; vm_compute; lia |]).
  apply Forall_nil_2.
Defined.

(** ** Lines of /proc/kallsyms *)

(** Two lists are equal once their concatenations are nested the same
    way. *)
Ltac list_norm :=
  rewrite <- ?app_assoc; cbn [app]; rewrite <- ?app_assoc; cbn [app];
  reflexivity.

(** Two characters differ. *)
Ltac distinct :=
  let E := fresh in intros E; vm_compute in E; discriminate E.

Lemma plain_spec c :
  plain c = true → isspace c = false ∧ c ≠ NUL ∧ c ≠ "["%char ∧ c ≠ " "%char.
Proof.
  unfold plain. intros H.
  apply andb_prop in H as [H H3]. apply andb_prop in H as [H1 H2].
  apply negb_true_iff in H1, H2, H3.
  repeat split; try assumption.
  - intros ->. discriminate.
  - intros ->. discriminate.
  - intros ->. discriminate.
Qed.

Lemma strchr_app_first l c r :
  Forall (λ x, x ≠ c ∧ x ≠ NUL) l → strchr (l ++ c :: r) c = Some (length l).
Proof.
  induction 1 as [|x l [Hc Hn] Hl IH]; simpl.
  - now rewrite Ascii.eqb_refl.
  - destruct (Ascii.eqb_spec x c); [contradiction |].
    destruct (Ascii.eqb_spec x NUL); [contradiction |].
    now rewrite IH.
Qed.

Lemma strchr_absent l c : Forall (λ x, x ≠ c) l → strchr l c = None.
Proof.
  induction 1 as [|x l Hc Hl IH]; simpl; [reflexivity |].
  destruct (Ascii.eqb_spec x c); [contradiction |].
  destruct (Ascii.eqb x NUL); [reflexivity |]. now rewrite IH.
Qed.

Lemma cstring_app l r :
  Forall (λ x, x ≠ NUL) l → cstring (l ++ NUL :: r) = l.
Proof.
  induction 1 as [|x l Hn Hl IH]; simpl.
  - reflexivity.
  - destruct (Ascii.eqb_spec x NUL); [contradiction |]. now rewrite IH.
Qed.

Lemma cstring_whole l : Forall (λ x, x ≠ NUL) l → cstring l = l.
Proof.
  induction 1 as [|x l Hn Hl IH]; simpl; [reflexivity |].
  destruct (Ascii.eqb_spec x NUL); [contradiction |]. now rewrite IH.
Qed.

Lemma insert_middle {A} (l : list A) x y r :
  <[length l := y]> (l ++ x :: r) = l ++ y :: r.
Proof.
  replace (length l) with (length l + 0)%nat by lia.
  now rewrite insert_app_r.
Qed.

Lemma chomp_newline l :
  Forall (λ x, x ≠ NUL) l → chomp (l ++ [newline]) = l ++ [NUL].
Proof.
  intros H. unfold chomp, strlen.
  rewrite cstring_whole.
  2:{ apply Forall_app. split; [exact H |]. constructor; [discriminate |].
      constructor. }
  rewrite length_app. simpl.
  replace (length l + 1 - 1)%nat with (length l) by lia.
  rewrite lookup_end. rewrite Ascii.eqb_refl. apply insert_middle.
Qed.

Lemma back_over_space_stop l c r :
  isspace c = false →
  back_over_space (l ++ c :: tab :: r) (length l + 2) = Some (length l).
Proof.
  intros Hc. replace (length l + 2)%nat with (S (S (length l))) by lia.
  assert (H1 : (l ++ c :: tab :: r) !! S (length l) = Some tab).
  { rewrite lookup_app_r by lia.
    now replace (S (length l) - length l)%nat with 1%nat by lia. }
  assert (H0 : (l ++ c :: tab :: r) !! length l = Some c).
  { rewrite lookup_app_r by lia. now rewrite Nat.sub_diag. }
  cbn [back_over_space]. rewrite H1. cbn [mbind option_bind].
  replace (isspace tab) with true by reflexivity.
  rewrite H0. cbn [mbind option_bind]. now rewrite Hc.
Qed.

Section Kallsyms.

Context (w : Z) (addr : list ascii) (type : ascii) (name : list ascii).
Hypothesis addr_plain : Forall (λ c, plain c = true) addr.
Hypothesis type_plain : type ≠ NUL ∧ type ≠ "["%char.
Hypothesis name_plain : Forall (λ c, plain c = true) name.

Lemma addr_no_space : Forall (λ x, x ≠ " "%char ∧ x ≠ NUL) addr.
Proof.
  eapply Forall_impl; [exact addr_plain |]. intros c Hc.
  apply plain_spec in Hc as (_ & H1 & _ & H2). now split.
Qed.

Lemma addr_no_NUL : Forall (λ x, x ≠ NUL) addr.
Proof.
  eapply Forall_impl; [exact addr_plain |]. intros c Hc.
  now apply plain_spec in Hc as (_ & H1 & _ & _).
Qed.

Lemma name_no_NUL : Forall (λ x, x ≠ NUL) name.
Proof.
  eapply Forall_impl; [exact name_plain |]. intros c Hc.
  now apply plain_spec in Hc as (_ & H1 & _ & _).
Qed.

(** The bytes before the bracket hold no bracket and no terminator. *)
Lemma front_no_bracket tl :
  Forall (λ x, x ≠ "["%char ∧ x ≠ NUL) tl →
  Forall (λ x, x ≠ "["%char ∧ x ≠ NUL)
    (addr ++ " "%char :: type :: " "%char :: name ++ tl).
Proof.
  intros Htl. apply Forall_app. split.
  { eapply Forall_impl; [exact addr_plain |]. intros c Hc.
    apply plain_spec in Hc as (_ & H1 & H2 & _). now split. }
  constructor; [split; discriminate |].
  constructor; [destruct type_plain; now split |].
  constructor; [split; discriminate |].
  apply Forall_app. split; [| exact Htl].
  eapply Forall_impl; [exact name_plain |]. intros c Hc.
  apply plain_spec in Hc as (_ & H1 & H2 & _). now split.
Qed.

Lemma scan_line_kallsyms_plain :
  scan_line w (chomp (kallsyms_line addr type name None))
  = Some (Some {|
      l_line := addr ++ NUL :: type :: " "%char :: name ++ [NUL];
      l_module := None;
      l_address := strtoul w addr;
      l_p := (length addr + 3)%nat |}).
Proof.
  rewrite (scan_line_plain w _ (length addr)).
  - unfold kallsyms_line. rewrite app_nil_l.
    replace (addr ++ " "%char :: type :: " "%char :: name ++ [newline])
      with ((addr ++ " "%char :: type :: " "%char :: name) ++ [newline])
      by (now rewrite <- app_assoc).
    rewrite chomp_newline.
    2:{ rewrite <- (app_nil_r name).
        eapply Forall_impl; [apply front_no_bracket; constructor |].
        intros c [_ Hc]. exact Hc. }
    rewrite <- app_assoc. cbn [app].
    rewrite insert_middle, cstring_app by apply addr_no_NUL. reflexivity.
  - rewrite index_0. apply chomp_strchr_None; [distinct |].
    apply strchr_absent. unfold kallsyms_line. rewrite app_nil_l.
    eapply Forall_impl; [apply front_no_bracket |].
    + constructor; [split; distinct | constructor].
    + intros c [Hc _]. exact Hc.
  - rewrite index_0. apply chomp_strchr_Some; [distinct | distinct |].
    apply strchr_app_first, addr_no_space.
Qed.

Lemma string_at_name tl :
  string_at (addr ++ NUL :: type :: " "%char :: name ++ NUL :: tl)
    (length addr + 3)
  = Some name.
Proof.
  unfold string_at.
  replace (addr ++ NUL :: type :: " "%char :: name ++ NUL :: tl)
    with ((addr ++ [NUL; type; " "%char]) ++ name ++ NUL :: tl)
    by (now rewrite <- app_assoc).
  replace (length addr + 3)%nat with (length (addr ++ [NUL; type; " "%char]))
    by (rewrite length_app; reflexivity).
  rewrite drop_app_length, cstring_app by apply name_no_NUL.
  rewrite !length_app.
  now destruct (Nat.leb_spec (length addr + length [NUL; type; " "%char])
                  (length addr + length [NUL; type; " "%char]
                   + (length name + length (NUL :: tl)))); [| lia].
Qed.

Lemma scan_line_kallsyms_module m :
  name ≠ [] → Forall (λ c, c ≠ NUL ∧ c ≠ "]"%char) m →
  scan_line w (chomp (kallsyms_line addr type name (Some m)))
  = Some (Some {|
      l_line := addr ++ NUL :: type :: " "%char :: name ++
                NUL :: "["%char :: m ++ [NUL; NUL];
      l_module := Some (length addr + 3 + length name + 2)%nat;
      l_address := strtoul w addr;
      l_p := (length addr + 3)%nat |}).
Proof.
  intros Hname Hm.
  destruct (list_last_split name Hname) as (name0 & c & En).
  assert (Hc : isspace c = false).
  { pose proof name_plain as H. rewrite En in H.
    apply Forall_app in H as [_ H]. apply Forall_cons in H as [H _].
    now apply plain_spec in H as (H & _). }
  set (front0 := addr ++ " "%char :: type :: " "%char :: name0).
  set (front := front0 ++ [c; tab]).
  assert (Efront : front = addr ++ " "%char :: type :: " "%char :: name ++ [tab]).
  { unfold front, front0. rewrite En. list_norm. }
  assert (Hfront : Forall (λ x, x ≠ "["%char ∧ x ≠ NUL) front).
  { rewrite Efront. apply front_no_bracket.
    constructor; [split; distinct | constructor]. }
  assert (Lfront : length front = (length addr + 3 + length name + 1)%nat).
  { rewrite Efront. rewrite length_app. simpl. rewrite length_app. simpl. lia. }
  assert (Hm0 : Forall (λ x, x ≠ NUL) m).
  { eapply Forall_impl; [exact Hm |]. intros x [Hx _]. exact Hx. }
  assert (E0 : chomp (kallsyms_line addr type name (Some m))
               = front ++ "["%char :: m ++ ["]"%char; NUL]).
  { replace (kallsyms_line addr type name (Some m))
      with ((front ++ "["%char :: m ++ ["]"%char]) ++ [newline])
      by (rewrite Efront; unfold kallsyms_line; list_norm).
    rewrite chomp_newline; [list_norm |].
    apply Forall_app. split.
    - eapply Forall_impl; [exact Hfront |]. intros x [_ Hx]. exact Hx.
    - constructor; [distinct |]. apply Forall_app. split; [exact Hm0 |].
      constructor; [distinct | constructor]. }
  rewrite E0. unfold scan_line.
  rewrite index_0, (strchr_app_first front) by exact Hfront.
  assert (E1 : index (front ++ "["%char :: m ++ ["]"%char; NUL])
                 (length front) "]"
               = Some (length (front ++ "["%char :: m))).
  { unfold index. rewrite drop_app_length.
    change ("["%char :: m ++ ["]"%char; NUL])
      with (("["%char :: m) ++ "]"%char :: [NUL]).
    rewrite strchr_app_first.
    - simpl. rewrite length_app. simpl. f_equal.
    - constructor; [split; distinct |].
      eapply Forall_impl; [exact Hm |]. intros x [H1 H2]. auto. }
  rewrite E1.
  replace (front ++ "["%char :: m ++ ["]"%char; NUL])
    with ((front ++ "["%char :: m) ++ "]"%char :: [NUL]) by list_norm.
  rewrite insert_middle.
  replace ((front ++ "["%char :: m) ++ [NUL; NUL])
    with (front0 ++ c :: tab :: "["%char :: m ++ [NUL; NUL])
    by (unfold front; list_norm).
  replace (length front) with (length front0 + 2)%nat
    by (unfold front; rewrite length_app; reflexivity).
  rewrite back_over_space_stop by exact Hc.
  cbn [mbind option_bind].
  replace (front0 ++ c :: tab :: "["%char :: m ++ [NUL; NUL])
    with ((front0 ++ [c]) ++ tab :: "["%char :: m ++ [NUL; NUL]) by list_norm.
  assert (L0 : S (length front0) = length (front0 ++ [c]))
    by (rewrite (length_app front0 [c]); simpl; lia).
  rewrite L0.
  rewrite insert_middle.
  replace ((front0 ++ [c]) ++ NUL :: "["%char :: m ++ [NUL; NUL])
    with (addr ++ " "%char :: type :: " "%char :: name
          ++ NUL :: "["%char :: m ++ [NUL; NUL])
    by (unfold front0; rewrite En; list_norm).
  rewrite index_0, strchr_app_first by apply addr_no_space.
  rewrite insert_middle, cstring_app by apply addr_no_NUL.
  do 3 f_equal. f_equal.
  unfold front0. rewrite En, !length_app. simpl. rewrite ?length_app. simpl.
  lia.
Qed.

Lemma index_kallsyms_space module :
  index (kallsyms_line addr type name module) 0 " " = Some (length addr).
Proof.
  rewrite index_0. unfold kallsyms_line.
  apply strchr_app_first, addr_no_space.
Qed.

Lemma index_kallsyms_bracket m :
  is_Some (index (kallsyms_line addr type name (Some m)) 0 "[").
Proof.
  rewrite index_0.
  replace (kallsyms_line addr type name (Some m))
    with ((addr ++ " "%char :: type :: " "%char :: name ++ [tab])
          ++ "["%char :: m ++ ["]"%char; newline])
    by (unfold kallsyms_line; list_norm).
  rewrite strchr_app_first; [eauto |].
  apply front_no_bracket. constructor; [split; distinct | constructor].
Qed.

Lemma module_of_kallsyms m p a :
  Forall (λ c, c ≠ NUL ∧ c ≠ "]"%char) m →
  module_of {| l_line := addr ++ NUL :: type :: " "%char :: name ++
                         NUL :: "["%char :: m ++ [NUL; NUL];
               l_module := Some (length addr + 3 + length name + 2)%nat;
               l_address := a; l_p := p |}
  = Some (string_of_list_ascii m).
Proof.
  intros Hm. unfold module_of. cbn [l_module l_line fmap option_fmap option_map].
  f_equal. f_equal.
  replace (addr ++ NUL :: type :: " "%char :: name ++
           NUL :: "["%char :: m ++ [NUL; NUL])
    with ((addr ++ NUL :: type :: " "%char :: name ++ [NUL; "["%char])
          ++ m ++ NUL :: [NUL]) by list_norm.
  replace (length addr + 3 + length name + 2)%nat
    with (length (addr ++ NUL :: type :: " "%char :: name ++ [NUL; "["%char])).
  2:{ rewrite length_app. simpl. rewrite length_app. simpl. lia. }
  rewrite drop_app_length. apply cstring_app.
  eapply Forall_impl; [exact Hm |]. intros x [Hx _]. exact Hx.
Qed.

End Kallsyms.

(** What [AddSymbol] makes of a line of /proc/kallsyms. *)
Lemma AddSymbol_kallsyms w addr type name module st :
  Forall (λ c, plain c = true) addr → type ≠ NUL ∧ type ≠ "["%char →
  Forall (λ c, plain c = true) name → name ≠ [] →
  (∀ m, module = Some m → Forall (λ c, c ≠ NUL ∧ c ≠ "]"%char) m) →
  heap st = [] →
  ∃ st',
    AddSymbol w (chomp (kallsyms_line addr type name module)) st
    = Some (1, st') ∧
    heap st' = [] ∧
    sym_array_modules st'
    = added st (string_of_list_ascii <$> module)
        {| value := strtoul w addr; name := string_of_list_ascii name |}.
Proof.
  intros Haddr Htype Hname Hne Hm Hheap.
  destruct module as [m|].
  - pose proof (scan_line_kallsyms_module w addr type name Haddr Htype Hname
                  m Hne (Hm m eq_refl)) as Hscan.
    rewrite (AddSymbol_scanned _ _ _ _ Hscan).
    match type of Hscan with _ = Some (Some ?l) =>
      destruct (add_to_group_added l st name Hheap) as (st' & E & Hh & Hs)
    end.
    { cbn [l_line l_p]. now apply string_at_name. }
    rewrite E. exists st'. split; [reflexivity |]. split; [exact Hh |].
    rewrite Hs, module_of_kallsyms by auto. reflexivity.
  - pose proof (scan_line_kallsyms_plain w addr type name Haddr Htype Hname)
      as Hscan.
    rewrite (AddSymbol_scanned _ _ _ _ Hscan).
    match type of Hscan with _ = Some (Some ?l) =>
      destruct (add_to_group_added l st name Hheap) as (st' & E & Hh & Hs)
    end.
    { cbn [l_line l_p].
      now apply (string_at_name addr type name) with (tl := []). }
    rewrite E. exists st'. split; [reflexivity |]. split; [exact Hh |].
    rewrite Hs. reflexivity.
Qed.

(** The line passes the filter of the reading loop. *)
Lemma kallsyms_line_read w n addr type name module st :
  Forall (λ c, plain c = true) addr → type ≠ NUL ∧ type ≠ "["%char →
  Forall (λ c, plain c = true) name →
  (module = None → n <= 0) →
  read_line w n (kallsyms_line addr type name module) st
  = (_ ← AddSymbol w (chomp (kallsyms_line addr type name module)); mret tt)
      st.
Proof.
  intros Haddr Htype Hname Hn. unfold read_line.
  rewrite (index_kallsyms_space addr type name Haddr).
  replace ((0 <? n)
           && bool_decide (index (kallsyms_line addr type name module)
                             0 "[" = None)) with false; [reflexivity |].
  symmetry. destruct module as [m|].
  - destruct (index_kallsyms_bracket addr type name Haddr Htype Hname m)
      as [i ->].
    rewrite bool_decide_eq_false_2 by discriminate. apply andb_false_r.
  - replace (0 <? n) with false; [reflexivity |].
    symmetry. apply Z.ltb_ge. auto.
Qed.

(** X17. A line of /proc/kallsyms adds one symbol, every allocation
    granted: its value is what [strtoul] reads from the address, its name
    is the name on the line, and it goes to the module named in the
    brackets, or to the anonymous module. A line without brackets is only
    taken when the static table is empty. *)
Theorem read_line_kallsyms w n addr type name module st :
  Forall (λ c, plain c = true) addr → type ≠ NUL ∧ type ≠ "["%char →
  Forall (λ c, plain c = true) name → name ≠ [] →
  (∀ m, module = Some m → Forall (λ c, c ≠ NUL ∧ c ≠ "]"%char) m) →
  (module = None → n <= 0) →
  heap st = [] →
  ∃ st',
    read_line w n (kallsyms_line addr type name module) st = Some (tt, st') ∧
    heap st' = [] ∧
    sym_array_modules st'
    = added st (string_of_list_ascii <$> module)
        {| value := strtoul w addr; name := string_of_list_ascii name |}.
Proof.
  intros Haddr Htype Hname Hne Hm Hn Hheap.
  rewrite kallsyms_line_read by assumption.
  destruct (AddSymbol_kallsyms w addr type name module st)
    as (st' & E & Hh & Hs); try assumption.
  exists st'. rewrite bind_run, E. auto.
Qed.

Lemma read_line_kallsyms_witness :
  ∃ st',
    read_line 64 0
      (kallsyms_line (list_ascii_of_string "1010") "T"
         (list_ascii_of_string "f2") (Some (list_ascii_of_string "m")))
      (loaded [mk_module (Some "m"%string) [sym 0x1000 "f1"]])
    = Some (tt, st') ∧
    heap st' = [] ∧
    sym_array_modules st'
    = added (loaded [mk_module (Some "m"%string) [sym 0x1000 "f1"]])
        (string_of_list_ascii <$> Some (list_ascii_of_string "m"))
        {| value := strtoul 64 (list_ascii_of_string "1010");
           name := string_of_list_ascii (list_ascii_of_string "f2") |}.
Proof.
  apply (read_line_kallsyms 64 0 (list_ascii_of_string "1010") "T"
           (list_ascii_of_string "f2") (Some (list_ascii_of_string "m"))
           (loaded [mk_module (Some "m"%string) [sym 0x1000 "f1"]])).
  - repeat constructor.
  - split; discriminate.
  - repeat constructor.
  - discriminate.
  - intros m [= <-]. repeat constructor; discriminate.
  - discriminate.
  - reflexivity.
Defined.

Lemma added_grouped st module s :
  coherent st = true →
  added st module s = grouped_add (sym_array_modules st) (module, s).
Proof.
  unfold coherent, added, grouped_add, same_group, num_modules.
  destruct (last (sym_array_modules st)) as [mp|] eqn:El; intros Hco.
  - apply bool_decide_eq_true in Hco. rewrite Hco. cbn [fst snd].
    assert (Hn : (length (sym_array_modules st) =? 0)%nat = false).
    { destruct (sym_array_modules st); [discriminate | reflexivity]. }
    rewrite Hn. cbn [negb andb].
    destruct (mod_name mp) as [l|], module as [m|].
    + destruct (String.eqb_spec m l) as [->|Hne].
      * now rewrite bool_decide_eq_true_2.
      * rewrite bool_decide_eq_false_2; [reflexivity |]. congruence.
    + now rewrite bool_decide_eq_false_2.
    + now rewrite bool_decide_eq_false_2.
    + now rewrite bool_decide_eq_true_2.
  - apply last_None in El. rewrite El. reflexivity.
Qed.

Lemma index_kallsyms_plain addr type name :
  Forall (λ c, plain c = true) addr → type ≠ NUL ∧ type ≠ "["%char →
  Forall (λ c, plain c = true) name →
  index (kallsyms_line addr type name None) 0 "[" = None.
Proof.
  intros Ha Ht Hn. rewrite index_0. apply strchr_absent.
  unfold kallsyms_line. rewrite app_nil_l.
  eapply Forall_impl; [apply (front_no_bracket addr type name Ha Ht Hn) |].
  - constructor; [split; distinct | constructor].
  - intros c [Hc _]. exact Hc.
Qed.

Lemma read_line_entry w n e st :
  well_formed e → heap st = [] → coherent st = true →
  ∃ st', read_line w n (entry_line e) st = Some (tt, st') ∧
    heap st' = [] ∧ coherent st' = true ∧
    sym_array_modules st'
    = match entry_record w n e with
      | Some r => grouped_add (sym_array_modules st) r
      | None => sym_array_modules st
      end.
Proof.
  intros (Ha & Ht & _ & Hn & Hne & Hm & _) Hheap Hco.
  unfold entry_record.
  destruct ((0 <? n) && bool_decide (e_module e = None)) eqn:Hf.
  - exists st. apply andb_prop in Hf as [Hf1 Hf2].
    apply bool_decide_eq_true in Hf2.
    unfold read_line, entry_line. rewrite Hf2.
    rewrite index_kallsyms_plain by assumption.
    rewrite Hf1, bool_decide_eq_true_2 by reflexivity. auto.
  - assert (Hn' : e_module e = None → n <= 0).
    { intros Em. apply andb_false_iff in Hf as [Hf | Hf].
      - now apply Z.ltb_ge.
      - apply bool_decide_eq_false in Hf. contradiction. }
    destruct (AddSymbol_kallsyms w (e_addr e) (e_type e) (e_name e)
                (e_module e) st) as (st' & E & Hh & Hs); try assumption.
    { intros m Em. eapply Forall_impl; [exact (Hm m Em) |].
      intros c [Hc _]. exact Hc. }
    assert (Hrun : read_line w n (entry_line e) st = Some (tt, st')).
    { unfold entry_line. rewrite kallsyms_line_read by assumption.
      now rewrite bind_run, E. }
    exists st'. split; [exact Hrun |]. split; [exact Hh |].
    split; [eapply read_line_coherent; eauto |].
    rewrite Hs. now apply added_grouped.
Qed.

(** What earlier lines left in the buffer takes no part in the reading of
    an entry. *)
Lemma read_line_entry_into w n e old st :
  well_formed e →
  read_line w n (fgets_into old (entry_line e)) st
  = read_line w n (entry_line e) st.
Proof.
  intros (Ha & Ht & _ & Hn & Hne & Hm & _). unfold fgets_into.
  destruct (length old <=? length (entry_line e))%nat; [reflexivity |].
  unfold entry_line. destruct (e_module e) as [m|] eqn:Em.
  - eapply read_line_beyond.
    + apply scan_line_kallsyms_module; try assumption.
      eapply Forall_impl; [exact (Hm m eq_refl) |]. intros c [Hc _]. exact Hc.
    + cbn [l_line l_p]. now apply string_at_name.
  - eapply read_line_beyond.
    + now apply scan_line_kallsyms_plain.
    + cbn [l_line l_p].
      now apply (string_at_name (e_addr e) (e_type e) (e_name e))
        with (tl := []).
Qed.

Lemma read_lines_entries w n es old st :
  Forall well_formed es → heap st = [] → coherent st = true →
  ∃ st',
    read_lines w n (fgets_buffers n old (entry_line <$> es)) st
    = Some (tt, st') ∧
    heap st' = [] ∧
    sym_array_modules st'
    = foldl grouped_add (sym_array_modules st) (omap (entry_record w n) es).
Proof.
  intros Hes. revert old st.
  induction Hes as [|e es He Hes IH]; intros old st Hh Hco.
  - exists st. auto.
  - destruct (read_line_entry w n e st He Hh Hco) as (st1 & E & Hh1 & Hco1 & Hs).
    destruct (IH (line_left n (fgets_into old (entry_line e))) st1 Hh1 Hco1)
      as (st' & E' & Hh' & Hs').
    exists st'. split; [| split; [exact Hh' |]].
    + rewrite fmap_cons. cbn [fgets_buffers read_lines].
      rewrite bind_run, read_line_entry_into, E by exact He. exact E'.
    + rewrite Hs', Hs. simpl.
      now destruct (entry_record w n e).
Qed.

Lemma fgets_all_line room acc body rest :
  newline ∉ body → (length body < room)%nat →
  fgets_all room acc (body ++ newline :: rest)
  = reverse (newline :: reverse body ++ acc) :: fgets_all 127 [] rest.
Proof.
  revert room acc. induction body as [|c body IH]; intros room acc Hnl Hlen.
  - simpl. rewrite ?Ascii.eqb_refl. reflexivity.
  - simpl. destruct (Ascii.eqb_spec c newline) as [->|Hc].
    { exfalso. apply Hnl. left. }
    simpl in Hlen. destruct room as [|[|r]]; [lia | lia |].
    rewrite IH; [| | lia].
    + rewrite (reverse_cons body c), <- app_assoc. reflexivity.
    + intros Hin. apply Hnl. now right.
Qed.

Lemma fgets_lines_concat lines :
  Forall (λ l, ∃ body, l = body ++ [newline] ∧ (newline ∉ body) ∧
                       (length body < 127)%nat) lines →
  fgets_lines (concat lines) = lines.
Proof.
  unfold fgets_lines.
  induction 1 as [|l lines (body & -> & Hnl & Hlen) Hb IH]; [reflexivity |].
  cbn [concat]. rewrite <- app_assoc. cbn [app].
  rewrite fgets_all_line by assumption.
  rewrite IH, app_nil_r, reverse_cons, reverse_involutive. reflexivity.
Qed.

Lemma plain_not_newline c : plain c = true → c ≠ newline.
Proof. intros H ->. discriminate. Qed.

Lemma entry_line_body e :
  well_formed e →
  ∃ body, entry_line e = body ++ [newline] ∧ (newline ∉ body) ∧
          (length body < 127)%nat.
Proof.
  intros (Ha & Ht & Htn & Hn & Hne & Hm & Hlen).
  exists (e_addr e ++ " "%char :: e_type e :: " "%char :: e_name e ++
          match e_module e with
          | Some m => tab :: "["%char :: m ++ ["]"%char]
          | None => []
          end).
  assert (E : entry_line e
              = (e_addr e ++ " "%char :: e_type e :: " "%char :: e_name e ++
                 match e_module e with
                 | Some m => tab :: "["%char :: m ++ ["]"%char]
                 | None => []
                 end) ++ [newline]).
  { unfold entry_line, kallsyms_line. list_norm. }
  split; [exact E |]. split.
  - intros Hin.
    eapply (proj1 (Forall_forall (λ c, c ≠ newline) _)); [| exact Hin |
      reflexivity].
    apply Forall_app. split.
    { eapply Forall_impl; [exact Ha |]. apply plain_not_newline. }
    constructor; [distinct |]. constructor; [exact Htn |].
    constructor; [distinct |]. apply Forall_app. split.
    { eapply Forall_impl; [exact Hn |]. apply plain_not_newline. }
    destruct (e_module e) as [m|]; [| constructor].
    constructor; [distinct |]. constructor; [distinct |].
    apply Forall_app. split.
    + eapply Forall_impl; [exact (Hm m eq_refl) |]. intros c [_ Hc]. exact Hc.
    + constructor; [distinct | constructor].
  - rewrite E, length_app in Hlen. simpl in Hlen. lia.
Qed.

Lemma grouped_add_whole ms r :
  Forall whole ms → Forall whole (grouped_add ms r).
Proof.
  intros H. unfold grouped_add. destruct (last ms) as [mp|].
  - destruct (bool_decide (mod_name mp = r.1)).
    + apply Forall_alter; [exact H |]. intros m _. apply whole_append.
    + apply Forall_app. split; [exact H |]. constructor; [| constructor].
      exists [r.2]. split; [discriminate | reflexivity].
  - constructor; [| constructor].
    exists [r.2]. split; [discriminate | reflexivity].
Qed.

Lemma foldl_grouped_whole rs ms :
  Forall whole ms → Forall whole (foldl grouped_add ms rs).
Proof.
  revert ms. induction rs as [|r rs IH]; intros ms H; [exact H |].
  simpl. apply IH. now apply grouped_add_whole.
Qed.

Lemma mapM_sort_total ms :
  Forall whole ms → is_Some (mapM sort_module ms).
Proof.
  intros H. apply mapM_is_Some. eapply Forall_impl; [exact H |].
  intros mp (syms & _ & E). unfold compose.
  rewrite E, sort_module_mk_module. eauto.
Qed.

(** X18. A load of a file of well-formed entries, every allocation
    granted, returns 1 and leaves the entries grouped run by run, each
    module sorted. *)
Theorem InitMsyms_kallsyms w n es st :
  Forall well_formed es → heap st = [] → is_Some (FreeModules st) →
  ∃ st',
    InitMsyms w n (Some (concat (entry_line <$> es))) st = Some (1, st') ∧
    mapM sort_module (grouped (omap (entry_record w n) es))
    = Some (sym_array_modules st') ∧
    have_modules st' = true.
Proof.
  intros Hes Hheap [[[] st0] Hfree]. unfold InitMsyms.
  rewrite bind_run, Hfree. apply FreeModules_Some in Hfree.
  rewrite fgets_lines_concat.
  2:{ apply Forall_fmap. eapply Forall_impl; [exact Hes |].
      intros e He. now apply entry_line_body. }
  destruct (read_lines_entries w n es [] st0 Hes) as (st1 & E & Hh & Hs).
  { subst st0. exact Hheap. }
  { subst st0. reflexivity. }
  rewrite bind_run, E.
  assert (Hms : sym_array_modules st1 = grouped (omap (entry_record w n) es)).
  { rewrite Hs. subst st0. reflexivity. }
  destruct (mapM_sort_total (sym_array_modules st1)) as [ms' Hsort].
  { rewrite Hms. apply foldl_grouped_whole. constructor. }
  unfold mbind, M_bind, modify, gets, lift, mret, M_ret.
  cbn [set_have_modules sym_array_modules]. rewrite Hsort.
  cbn [fmap option_fmap option_map].
  eexists. split; [reflexivity |]. split; [| reflexivity].
  rewrite <- Hms. exact Hsort.
Qed.

Lemma InitMsyms_kallsyms_witness :
  ∃ st',
    InitMsyms 64 0
      (Some (concat (entry_line <$> [entry_f1; entry_f2; entry_g1])))
      empty_state
    = Some (1, st') ∧
    mapM sort_module
      (grouped (omap (entry_record 64 0) [entry_f1; entry_f2; entry_g1]))
    = Some (sym_array_modules st') ∧
    have_modules st' = true.
Proof.
  apply (InitMsyms_kallsyms 64 0 [entry_f1; entry_f2; entry_g1] empty_state);
    [| reflexivity | eexists; reflexivity].
  repeat constructor; try discriminate; simpl; try lia;
    intros m [= <-]; repeat constructor; discriminate.
Defined.

Lemma store_symbols_app ms1 ms2 :
  store_symbols (ms1 ++ ms2) = store_symbols ms1 ++ store_symbols ms2.
Proof. unfold store_symbols. apply bind_app. Qed.

Lemma store_symbols_mk_module nm syms :
  store_symbols [mk_module nm syms] = syms.
Proof.
  unfold store_symbols. simpl. rewrite read_syms_mk_module. simpl.
  apply app_nil_r.
Qed.

Lemma grouped_add_symbols ms r :
  Forall whole ms →
  store_symbols (grouped_add ms r) = store_symbols ms ++ [r.2].
Proof.
  intros H. unfold grouped_add.
  destruct (last ms) as [mp|] eqn:El.
  - destruct (bool_decide (mod_name mp = r.1)).
    + apply last_Some in El as [ms0 ->].
      rewrite length_app. simpl.
      replace (length ms0 + 1 - 1)%nat with (length ms0) by lia.
      rewrite alter_end, !store_symbols_app.
      apply Forall_app in H as [_ H]. apply Forall_cons in H as [H _].
      destruct H as (syms & _ & E). rewrite E, append_symbol_mk_module.
      rewrite !store_symbols_mk_module. now rewrite app_assoc.
    + rewrite store_symbols_app, store_symbols_mk_module. reflexivity.
  - apply last_None in El as ->. apply store_symbols_mk_module.
Qed.

Lemma grouped_symbols rs ms :
  Forall whole ms →
  store_symbols (foldl grouped_add ms rs) = store_symbols ms ++ rs.*2.
Proof.
  revert ms. induction rs as [|r rs IH]; intros ms H; simpl.
  - now rewrite app_nil_r.
  - rewrite IH by (now apply grouped_add_whole).
    rewrite grouped_add_symbols by exact H. now rewrite <- app_assoc.
Qed.

Lemma mapM_sort_symbols ms ms' :
  Forall whole ms → mapM sort_module ms = Some ms' →
  Permutation (store_symbols ms') (store_symbols ms).
Proof.
  intros H Hs%mapM_Some. induction Hs as [|m m' ms ms' Hm Hms IH];
    [constructor |].
  apply Forall_cons in H as [(syms & _ & E) H2].
  change (m' :: ms') with ([m'] ++ ms'). change (m :: ms) with ([m] ++ ms).
  rewrite !store_symbols_app. apply Permutation_app; [| auto].
  rewrite E in Hm |- *. rewrite sort_module_mk_module in Hm.
  injection Hm as <-. rewrite !store_symbols_mk_module.
  destruct (length syms <? 2)%nat; [reflexivity | apply qsort_perm].
Qed.

(** X19. The symbols of the store after such a load are the symbols of
    the entries taken, none lost and none added. *)
Theorem InitMsyms_kallsyms_symbols w n es st r st' :
  Forall well_formed es → heap st = [] →
  InitMsyms w n (Some (concat (entry_line <$> es))) st = Some (r, st') →
  Permutation (store_symbols (sym_array_modules st'))
    ((omap (entry_record w n) es).*2).
Proof.
  intros Hes Hheap H. unfold InitMsyms in H.
  apply bind_Some in H as ([] & st0 & Hfree & H).
  apply FreeModules_Some in Hfree.
  rewrite fgets_lines_concat in H.
  2:{ apply Forall_fmap. eapply Forall_impl; [exact Hes |].
      intros e He. now apply entry_line_body. }
  destruct (read_lines_entries w n es [] st0 Hes) as (st1 & E & Hh & Hs).
  { subst st0. exact Hheap. }
  { subst st0. reflexivity. }
  rewrite bind_run, E in H. inv_run H.
  assert (Hms : sym_array_modules st1 = grouped (omap (entry_record w n) es)).
  { rewrite Hs. reflexivity. }
  match goal with Hsort : mapM sort_module _ = Some ?k |- _ =>
    simpl in Hsort; rewrite Hms in Hsort; simpl;
    rewrite (mapM_sort_symbols _ k
               (foldl_grouped_whole _ [] (Forall_nil_2 _)) Hsort)
  end.
  unfold grouped. now rewrite grouped_symbols by constructor.
Qed.

Lemma InitMsyms_kallsyms_symbols_witness :
  InitMsyms 64 0
    (Some (concat (entry_line <$> [entry_f1; entry_f2; entry_g1])))
    empty_state
  = Some (1, loaded two_groups) ∧
  Permutation (store_symbols (sym_array_modules (loaded two_groups)))
    ((omap (entry_record 64 0) [entry_f1; entry_f2; entry_g1]).*2).
Proof.
  assert (H : InitMsyms 64 0
                (Some (concat (entry_line <$> [entry_f1; entry_f2; entry_g1])))
                empty_state
              = Some (1, loaded two_groups)) by (vm_compute; reflexivity).
  split; [exact H |].
  apply (InitMsyms_kallsyms_symbols 64 0 [entry_f1; entry_f2; entry_g1]
           empty_state 1 (loaded two_groups)); [| reflexivity | exact H].
  repeat constructor; try discriminate; simpl; try lia;
    intros m [= <-]; repeat constructor; discriminate.
Defined.

(** ** The comparison and the module array *)

(** X20. [symsort] is a comparison [qsort] can use: its sign is the
    order of the two addresses, whatever their distance, it is
    antisymmetric, and it is transitive. *)
Theorem symsort_order a b c :
  (symsort a b < 0 ↔ value a < value b) ∧
  (symsort a b = 0 ↔ value a = value b) ∧
  (0 < symsort a b ↔ value b < value a) ∧
  symsort a b = - symsort b a ∧
  (symsort a b <= 0 → symsort b c <= 0 → symsort a c <= 0).
Proof.
  unfold symsort.
  destruct (Z.ltb_spec (value a) (value b)), (Z.eqb_spec (value a) (value b)),
    (Z.ltb_spec (value b) (value a)), (Z.eqb_spec (value b) (value a)),
    (Z.ltb_spec (value b) (value c)), (Z.eqb_spec (value b) (value c)),
    (Z.ltb_spec (value a) (value c)), (Z.eqb_spec (value a) (value c));
    repeat split; intros; lia.
Qed.

(** X21. What [AddModule] does follows from its allocations alone. When
    the array cannot be allocated or grown it returns NULL and the store
    is as before. When the array grows it returns the new last element,
    at the index of the old count: a module without symbols whose name is
    the one given, or NULL when [strdup] is refused. Nothing else of the
    state changes; the allocations asked for are used up. *)
Theorem AddModule_store module st :
  (∀ h, heap st = false :: h →
     AddModule module st = Some (None, set_heap h st)) ∧
  (∀ s h, module = Some s → heap st = true :: false :: h →
     AddModule module st
     = Some (Some (num_modules st),
             set_modules
               (sym_array_modules st
                  ++ [{| sym_array := None; num_syms := 0;
                         mod_name := None |}])
               (set_heap h st))) ∧
  (Forall (λ b, b = true)
     (take (match module with Some _ => 2 | None => 1 end) (heap st)) →
   AddModule module st
   = Some (Some (num_modules st),
           set_modules
             (sym_array_modules st
                ++ [{| sym_array := None; num_syms := 0;
                       mod_name := module |}])
             (set_heap
                (drop (match module with Some _ => 2 | None => 1 end)
                   (heap st)) st))).
Proof.
  destruct st as [ms hm lm r h].
  unfold AddModule, mbind, M_bind, mret, M_ret, gets, modify, alloc,
    num_modules, set_modules, set_heap.
  cbn [sym_array_modules have_modules lastmodule ret heap].
  repeat split.
  - intros h' ->. reflexivity.
  - intros s h' -> ->. reflexivity.
  - intros Hh. destruct module as [s|]; destruct h as [|[] [|[] h]];
      cbn [negb sym_array_modules have_modules lastmodule ret heap take drop]
        in *;
      try reflexivity;
      repeat match goal with
             | H : Forall _ (_ :: _) |- _ =>
                 apply Forall_cons in H as [? H]
             end; discriminate.
Qed.

Lemma AddModule_store_witness :
  AddModule (Some "m"%string) (set_heap [false] (loaded m_store))
    = Some (None, set_heap [] (loaded m_store)) ∧
  AddModule (Some "k"%string) (set_heap [true; false] (loaded m_store))
    = Some (Some 1%nat,
            set_modules
              (m_store ++ [{| sym_array := None; num_syms := 0;
                              mod_name := None |}])
              (set_heap [] (loaded m_store))) ∧
  AddModule (Some "k"%string) (loaded m_store)
    = Some (Some 1%nat,
            set_modules
              (m_store ++ [{| sym_array := None; num_syms := 0;
                              mod_name := Some "k"%string |}])
              (loaded m_store)).
Proof.
  split; [| split].
  - exact (proj1 (AddModule_store (Some "m"%string)
                    (set_heap [false] (loaded m_store))) [] eq_refl).
  - exact (proj1 (proj2 (AddModule_store (Some "k"%string)
                           (set_heap [true; false] (loaded m_store))))
             "k"%string [] eq_refl eq_refl).
  - exact (proj2 (proj2 (AddModule_store (Some "k"%string)
                           (loaded m_store))) (Forall_nil_2 _)).
Defined.

(** ** What a call of [AddSymbol] changes *)

Lemma AddModule_new module st i st' :
  AddModule module st = Some (Some i, st') →
  ∃ m, sym_array_modules st' = sym_array_modules st ++ [m] ∧
       num_syms m = 0%nat.
Proof.
  unfold AddModule. intros H.
  apply bind_Some in H as (ok & st1 & Hal & H).
  pose proof (alloc_Some _ _ _ Hal) as E.
  destruct ok; simpl in H; [| inv_run H; discriminate].
  apply bind_Some in H as (n & st2 & Hn & H). inv_run Hn.
  apply bind_Some in H as (nm & st3 & Hnm & H).
  assert (E3 : sym_array_modules st3 = sym_array_modules st1).
  { destruct module as [s|]; inv_run Hnm; [| reflexivity].
    eauto using alloc_Some. }
  inv_run H. simpl. rewrite E3, E. eauto.
Qed.

(** What a call of [add_to_group] that ends has done to the counts: no
    module could be had and the store is as it was, or the module chosen
    is the last one, and counts one symbol more when the call returns 1
    and as many as before when it returns 0. *)
Lemma add_to_group_counts loc st r st' :
  add_to_group loc st = Some (r, st') →
  (r = 0 ∧ sym_array_modules st' = sym_array_modules st) ∨
  ∃ ms m m',
    (sym_array_modules st = ms ++ [m] ∨
     (sym_array_modules st = ms ∧ num_syms m = 0%nat)) ∧
    sym_array_modules st' = ms ++ [m'] ∧
    ((r = 1 ∧ num_syms m' = S (num_syms m)) ∨
     (r = 0 ∧ num_syms m' = num_syms m)).
Proof.
  intros H. unfold add_to_group in H.
  apply bind_Some in H as (n & st1 & Hn & H). inv_run Hn.
  apply bind_Some in H as (lm & st2 & Hlm & H). inv_run Hlm.
  apply bind_Some in H as (mp & st3 & Hmp & H).
  destruct mp as [i|].
  - right.
    assert (Hi : ∃ ms m0, sym_array_modules st3 = ms ++ [m0] ∧ i = length ms ∧
               (sym_array_modules st = ms ++ [m0] ∨
                (sym_array_modules st = ms ∧ num_syms m0 = 0%nat))).
    { destruct (new_group (num_modules st) (lastmodule st) (module_of loc))
        eqn:G.
      - pose proof (AddModule_Some _ _ _ _ Hmp) as (-> & _).
        apply AddModule_new in Hmp as (m0 & E & E0).
        exists (sym_array_modules st), m0. auto.
      - inv_run Hmp. unfold new_group in G.
        destruct (num_modules st) as [|n] eqn:En; [discriminate G |].
        unfold num_modules in En.
        destruct (list_last_split (sym_array_modules st)) as (ms & m0 & E).
        { intros E. rewrite E in En. discriminate. }
        exists ms, m0. split; [exact E |].
        match goal with H : Some _ = Some _ |- _ => injection H as -> end.
        rewrite E, length_app in En. simpl in En. split; [lia | auto]. }
    destruct Hi as (ms & m0 & Ems & -> & Hold).
    exists ms, m0.
    apply bind_Some in H as (ms' & st4 & Hms' & H). inv_run Hms'.
    apply bind_Some in H as (m & st5 & Hm & H). inv_run Hm.
    rewrite Ems, lookup_end in Hm. injection Hm as <-.
    apply bind_Some in H as ([] & st6 & Hlast & H). inv_run Hlast.
    apply bind_Some in H as (ok & st7 & Hal & H).
    pose proof (alloc_Some _ _ _ Hal) as E7. simpl in E7.
    destruct ok; simpl in H.
    + apply bind_Some in H as ([] & st8 & Hup & H). inv_run Hup.
      apply bind_Some in H as (nm & st9 & Hnm & H). inv_run Hnm.
      apply bind_Some in H as (ok & st10 & Hal' & H).
      pose proof (alloc_Some _ _ _ Hal') as E10. simpl in E10.
      destruct ok; simpl in H; inv_run H.
      * eexists. split; [exact Hold |]. split.
        -- simpl. rewrite E10. unfold update_module. simpl.
           rewrite E7, Ems, !alter_end. reflexivity.
        -- left. auto.
      * eexists. split; [exact Hold |]. split.
        -- rewrite E10. unfold update_module. simpl.
           rewrite E7, Ems, !alter_end. reflexivity.
        -- right. auto.
    + inv_run H. eexists. split; [exact Hold |]. split.
      * unfold update_module. simpl. rewrite E7, Ems, alter_end. reflexivity.
      * right. auto.
  - left. inv_run H.
    destruct (new_group (num_modules st) (lastmodule st) (module_of loc)).
    + apply AddModule_None in Hmp as [E L]. auto.
    + inv_run Hmp. discriminate.
Qed.

(** X22. What [AddSymbol] returns tells whether a symbol was counted,
    whatever the allocator did: it returns 1 and the store counts one
    symbol more, or it returns 0 and the store counts as many as before.
    The store has as many modules as before, or one more. *)
Theorem AddSymbol_counts w line st r st' :
  AddSymbol w line st = Some (r, st') →
  ((r = 1 ∧ total_syms st' = S (total_syms st)) ∨
   (r = 0 ∧ total_syms st' = total_syms st)) ∧
  (num_modules st' = num_modules st ∨ num_modules st' = S (num_modules st)).
Proof.
  intros H. unfold AddSymbol in H. rewrite bind_run in H. unfold lift in H.
  destruct (scan_line w line) as [[loc|]|]; simpl in H;
    [| inv_run H; auto | discriminate].
  apply add_to_group_counts in H
    as [[-> E] | (ms & m & m' & Hold & Hnew & Hr)].
  - unfold total_syms, num_modules. rewrite E. auto.
  - assert (Ht : total_syms st
                 = (sum_list_with num_syms ms + num_syms m)%nat).
    { destruct Hold as [E | [E E0]].
      - now apply total_syms_app.
      - unfold total_syms. rewrite E, E0. lia. }
    split.
    + rewrite (total_syms_app _ _ _ Hnew), Ht.
      destruct Hr as [[-> ->] | [-> ->]]; [left | right]; split;
        reflexivity || lia.
    + unfold num_modules. rewrite Hnew, length_app. simpl.
      destruct Hold as [-> | [-> _]]; [left | right];
        rewrite ?length_app; simpl; lia.
Qed.

Lemma AddSymbol_counts_witness :
  AddSymbol 64 (list_ascii_of_string "1010 T f2 [k]")
    (set_heap [true; true; true; false]
       (loaded [mk_module (Some "m"%string) [sym 0x1000 "f1"]]))
  = Some (0, loaded [mk_module (Some "m"%string) [sym 0x1000 "f1"];
                     {| sym_array := Some [None]; num_syms := 0;
                        mod_name := Some "k"%string |}]) ∧
  total_syms (loaded [mk_module (Some "m"%string) [sym 0x1000 "f1"];
                      {| sym_array := Some [None]; num_syms := 0;
                         mod_name := Some "k"%string |}])
  = total_syms (loaded [mk_module (Some "m"%string) [sym 0x1000 "f1"]]) ∧
  num_modules (loaded [mk_module (Some "m"%string) [sym 0x1000 "f1"];
                       {| sym_array := Some [None]; num_syms := 0;
                          mod_name := Some "k"%string |}])
  = S (num_modules (loaded [mk_module (Some "m"%string) [sym 0x1000 "f1"]])).
Proof.
  assert (H : AddSymbol 64 (list_ascii_of_string "1010 T f2 [k]")
                (set_heap [true; true; true; false]
                   (loaded [mk_module (Some "m"%string) [sym 0x1000 "f1"]]))
              = Some (0, loaded [mk_module (Some "m"%string) [sym 0x1000 "f1"];
                                 {| sym_array := Some [None]; num_syms := 0;
                                    mod_name := Some "k"%string |}]))
    by (vm_compute; reflexivity).
  split; [exact H |].
  destruct (AddSymbol_counts 64 _ _ 0 _ H) as [[[E _] | [_ E]] _];
    [discriminate E |].
  split; [exact E | reflexivity].
Defined.

(** X23. [AddSymbol] leaves every module but the last as it was. *)
Theorem AddSymbol_earlier_modules w line st r st' i mp :
  AddSymbol w line st = Some (r, st') →
  sym_array_modules st !! i = Some mp → (S i < num_modules st)%nat →
  sym_array_modules st' !! i = Some mp.
Proof.
  intros H Hi Hlt. unfold AddSymbol in H. rewrite bind_run in H.
  unfold lift in H.
  destruct (scan_line w line) as [[loc|]|]; simpl in H;
    [| inv_run H; exact Hi | discriminate].
  unfold num_modules in Hlt.
  apply add_to_group_counts in H
    as [[_ E] | (ms & m & m' & Hold & Hnew & _)].
  - now rewrite E.
  - rewrite Hnew. destruct Hold as [E | [E _]]; rewrite E in Hi, Hlt.
    + rewrite length_app in Hlt. simpl in Hlt.
      rewrite lookup_app_l in Hi by lia. rewrite lookup_app_l by lia.
      exact Hi.
    + rewrite lookup_app_l by lia. exact Hi.
Qed.

Lemma AddSymbol_earlier_modules_witness :
  AddSymbol 64 (list_ascii_of_string "2010 T g2") (loaded two_groups)
  = Some (1, loaded [mk_module (Some "m"%string)
                       [sym 0x1000 "f1"; sym 0x1010 "f2"];
                     mk_module None [sym 0x2000 "g1"; sym 0x2010 "g2"]]) ∧
  sym_array_modules
    (loaded [mk_module (Some "m"%string) [sym 0x1000 "f1"; sym 0x1010 "f2"];
             mk_module None [sym 0x2000 "g1"; sym 0x2010 "g2"]]) !! 0%nat
  = Some (mk_module (Some "m"%string) [sym 0x1000 "f1"; sym 0x1010 "f2"]).
Proof.
  assert (H : AddSymbol 64 (list_ascii_of_string "2010 T g2")
                (loaded two_groups)
              = Some (1, loaded [mk_module (Some "m"%string)
                                   [sym 0x1000 "f1"; sym 0x1010 "f2"];
                                 mk_module None
                                   [sym 0x2000 "g1"; sym 0x2010 "g2"]]))
    by (vm_compute; reflexivity).
  split; [exact H |].
  apply (AddSymbol_earlier_modules 64 _ _ 1 _ 0%nat _ H);
    [reflexivity | unfold num_modules; simpl; lia].
Defined.

(** ** The sorting loop and a lost array *)

(** X24. When the reading loop leaves a module that counts two or more
    symbols and one of them cannot be read (its array lost to a refused
    [realloc], or a slot never written), the sorting loop reads it and
    [InitMsyms] has no result. *)
Theorem InitMsyms_sort_unread w n s st st0 st1 mp :
  FreeModules st = Some (tt, st0) →
  read_lines w n (fgets_buffers n [] (fgets_lines s)) st0 = Some (tt, st1) →
  mp ∈ sym_array_modules st1 → (2 ≤ num_syms mp)%nat →
  read_syms mp = None →
  InitMsyms w n (Some s) st = None.
Proof.
  intros Hfree Hread Hin Hn Hr. unfold InitMsyms.
  rewrite bind_run, Hfree, bind_run, Hread.
  unfold mbind, M_bind, modify, gets, lift, mret, M_ret.
  cbn [set_have_modules sym_array_modules].
  destruct (mapM sort_module (sym_array_modules st1)) as [ms'|] eqn:E;
    [| reflexivity].
  exfalso.
  assert (Hs : is_Some (mapM sort_module (sym_array_modules st1))) by eauto.
  apply mapM_is_Some in Hs. rewrite Forall_forall in Hs.
  destruct (Hs mp Hin) as [mp' Hmp]. unfold sort_module in Hmp.
  destruct (Nat.ltb_spec (num_syms mp) 2); [lia |].
  rewrite Hr in Hmp. discriminate.
Qed.

Lemma InitMsyms_sort_unread_witness :
  InitMsyms 64 0
    (Some (file_of ["1000 T f1 [m]"; "1010 T f2 [m]"; "1020 T f3 [m]"]%string))
    (set_heap [true; true; true; true; true; true; false] empty_state)
  = None.
Proof.
  eapply (InitMsyms_sort_unread 64 0 _ _ _ _
            {| sym_array := None; num_syms := 2;
               mod_name := Some "m"%string |}).
  - reflexivity.
  - vm_compute. reflexivity.
  - left.
  - simpl. lia.
  - reflexivity.
Defined.

(** ** The label of an earlier search *)

Lemma take_candidate_same w fty v mp l x a b :
  same_search a b →
  same_search (take_candidate w fty v mp l x a)
    (take_candidate w fty v mp l x b).
Proof.
  intros [E1 E2]. unfold take_candidate. rewrite <- E1.
  destruct (replaces w a.1 (cand_offset w v l) (cand_size w l x)).
  - split; [reflexivity | now left].
  - split; assumption.
Qed.

Lemma sym_loop_same w fty v mp fuel nsym last a b a' :
  same_search a b →
  sym_loop w fty v mp fuel nsym last a = Some a' →
  ∃ b', sym_loop w fty v mp fuel nsym last b = Some b' ∧ same_search a' b'.
Proof.
  intros Hab. revert nsym last.
  induction fuel as [|fuel IH]; intros nsym last H; simpl in *.
  - injection H as <-. eauto.
  - destruct (slot mp nsym) as [cur|]; [| discriminate]. simpl in *.
    destruct (v <? value cur).
    + destruct (slot mp last) as [l|]; [| discriminate]. simpl in *.
      injection H as <-. eauto using take_candidate_same.
    + eauto.
Qed.

Lemma module_loop_same w fty v ms a b a' :
  same_search a b →
  module_loop w fty v ms a = Some a' →
  ∃ b', module_loop w fty v ms b = Some b' ∧ same_search a' b'.
Proof.
  revert a b. induction ms as [|mp ms IH]; intros a b Hab H; simpl in *.
  - injection H as <-. eauto.
  - destruct (sym_loop w fty v mp (num_syms mp - 1) 1 0 a) as [a1|] eqn:E;
      [| discriminate].
    simpl in H.
    destruct (sym_loop_same _ _ _ _ _ _ _ _ _ _ Hab E) as (b1 & -> & Hab1).
    simpl. eauto.
Qed.

(** X25. What the search returns does not depend on what [ret] held
    before the call: the label of an earlier search is never handed
    back. *)
Theorem LookupModuleSymbol_fresh w fty v st x r sy st' :
  LookupModuleSymbol w fty v st = Some ((r, sy), st') →
  ∃ st2, LookupModuleSymbol w fty v (set_ret x st) = Some ((r, sy), st2).
Proof.
  unfold LookupModuleSymbol.
  change (num_modules (set_ret x st)) with (num_modules st).
  change (sym_array_modules (set_ret x st)) with (sym_array_modules st).
  change (ret (set_ret x st)) with x.
  destruct (num_modules st =? 0)%nat; [intros [= <- <- <-]; eauto |].
  destruct (module_loop w fty v (sym_array_modules st)
              ({| size := 0; offset := 0 |}, ret st)) as [[s1 r1]|] eqn:E;
    [| discriminate].
  simpl. intros [= <- <- <-].
  destruct (module_loop_same w fty v (sym_array_modules st)
              ({| size := 0; offset := 0 |}, ret st)
              ({| size := 0; offset := 0 |}, x) _
              (conj eq_refl (or_intror eq_refl)) E)
    as ([s2 r2] & -> & Hs & Hr).
  simpl in Hs, Hr. subst s2. simpl.
  destruct (Z.ltb_spec 0 (size s1)) as [Hpos|Hle].
  - destruct Hr as [-> | Hz]; [eauto | lia].
  - eauto.
Qed.

Lemma LookupModuleSymbol_fresh_witness :
  LookupModuleSymbol 64 c_int 0x1050 (store_m empty_state)
    = Some ((Some "m:A"%string, {| size := 0x100; offset := 0x50 |}),
            set_ret "m:A" (store_m empty_state)) ∧
  ∃ st2,
    LookupModuleSymbol 64 c_int 0x1050 (set_ret "k:old" (store_m empty_state))
    = Some ((Some "m:A"%string, {| size := 0x100; offset := 0x50 |}), st2).
Proof.
  assert (H : LookupModuleSymbol 64 c_int 0x1050 (store_m empty_state)
              = Some ((Some "m:A"%string,
                       {| size := 0x100; offset := 0x50 |}),
                      set_ret "m:A" (store_m empty_state)))
    by (vm_compute; reflexivity).
  split; [exact H |].
  exact (LookupModuleSymbol_fresh 64 c_int 0x1050 (store_m empty_state)
           "k:old" _ _ _ H).
Defined.
